(** * The resumable batch runner of the zoomify ripper

    A shallow embedding of [run_dezoomify.js] (work-queue construction,
    filename derivation, failure bookkeeping, progress snapshot and the
    bounded dispatch loop) and of the retry logic of
    [extract_zoomify.js], with the properties the specification states
    about them.

    Conventions of the embedding.
    - A JavaScript string is a [string]; one [ascii] stands for one code
      unit, so the strings of the model are those whose code units are
      below 256.  The characters the code tells apart (the class
      [[A-Za-z0-9_-]], the bar, white space) all are.
    - A [Set] of strings is a [gset string]; a JSON object used as a map
      (the detailed failure record, the [byType] counts) is a [gmap]
      from its own property names.  Names that JavaScript resolves on
      [Object.prototype], such as [__proto__] or [constructor], are
      neither URLs nor failure types of this program and stay outside.
    - JavaScript numbers that count or index are [Z]; the counters of
      this program stay far below 2^53, where the arithmetic is exact.
    - Code that touches files runs in a small state-and-exception monad
      over the record [World]; whether a file operation throws is read
      from an oracle carried by the world, and the time from a clock
      carried by it.
    - The script is single-threaded.  Between two [await]s its code runs
      without interruption, so a run is a sequence of events ([Event]),
      each of which runs one such stretch of code to its end. *)

From Stdlib Require Import ZArith Ascii String Sorted.
From stdpp Require Import base tactics option list gmap strings fin_maps.
From Equations Require Import Equations.

Local Open Scope string_scope.
Local Open Scope Z_scope.

(** ** Strings *)

Module Str.

(** [s.slice(n)] for [0 <= n]. *)
Fixpoint drop (n : nat) (s : string) : string :=
  match n, s with
  | O, _ => s
  | S n', String _ s' => drop n' s'
  | S _, EmptyString => EmptyString
  end.

(** [s.replace(pat, '')] with a string pattern: the first occurrence of
    [pat] (searched from the left) is removed, the rest is kept. *)
Fixpoint remove_first (pat s : string) : string :=
  if String.prefix pat s then drop (String.length pat) s
  else match s with
       | EmptyString => EmptyString
       | String c s' => String c (remove_first pat s')
       end.

(** Character-wise image of a string ([s.replace(/[...]/g, f)] for a
    class of single code units). *)
Fixpoint map (f : ascii -> ascii) (s : string) : string :=
  match s with
  | EmptyString => EmptyString
  | String c s' => String (f c) (map f s')
  end.

Fixpoint forallb (p : ascii -> bool) (s : string) : bool :=
  match s with
  | EmptyString => true
  | String c s' => p c && forallb p s'
  end.

End Str.

(** ** Settings of run_dezoomify.js *)

Definition urlPrefix : string :=
  "https://www.geographicus.com/mm5/graphics/00000001/zoomify/".
Definition urlSuffix : string := "/ImageProperties.xml".
Definition workingDir : string := "C:/Users/Mai/Documents/zoomifyjs".

(** [path.join(dir, name)] for a [name] without separator or dot
    segments: the two parts joined by one separator (which Windows prints
    as a backslash). *)
Definition path_join (dir name : string) : string := dir ++ "/" ++ name.

Definition outputDir : string := path_join workingDir "finished_zoomify_downloads".

(** ** Filename derivation *)

Definition in_range (lo hi c : ascii) : bool :=
  (N_of_ascii lo <=? N_of_ascii c)%N && (N_of_ascii c <=? N_of_ascii hi)%N.

(** Membership in the class [[a-z0-9_\-]] under the [i] flag. *)
Definition in_class (c : ascii) : bool :=
  in_range "a" "z" c || in_range "A" "Z" c || in_range "0" "9" c
  || Ascii.eqb c "_" || Ascii.eqb c "-".

(** The replacement function of [/[^a-z0-9_\-]/gi -> '_']. *)
Definition sanitizeChar (c : ascii) : ascii :=
  if in_class c then c else "_"%char.

Definition sanitizeFilename (url : string) : string :=
  let base := Str.remove_first urlPrefix url in
  let base := Str.remove_first urlSuffix base in
  Str.map sanitizeChar base.

Definition tempOutputPath (url : string) : string :=
  path_join workingDir (sanitizeFilename url ++ ".jpg").
Definition finalOutputPath (url : string) : string :=
  path_join outputDir (sanitizeFilename url ++ ".jpg").

(** ** Work queue *)

(** The filter of [allUrls] computed at startup. *)
Definition workQueue (allUrls : list string)
    (dezoomifySuccessSet extractSuccessSet failureSet : gset string) : list string :=
  List.filter (fun url =>
      let processedByBoth :=
        bool_decide (url ∈ dezoomifySuccessSet) && bool_decide (url ∈ extractSuccessSet) in
      let hasFailed := bool_decide (url ∈ failureSet) in
      negb processedByBoth && negb hasFailed)
    allUrls.

(** ** Log files as text *)

Module Text.

(** [s.split(c)] for a one-character separator: the pieces between the
    separators, in order; never the empty list. *)
Fixpoint split (sep : ascii) (s : string) : list string :=
  match s with
  | EmptyString => [EmptyString]
  | String c s' =>
      if Ascii.eqb c sep then EmptyString :: split sep s'
      else match split sep s' with
           | piece :: rest => String c piece :: rest
           | [] => [String c EmptyString]
           end
  end.

(** White space and line terminators among the first 256 code units. *)
Definition is_space (c : ascii) : bool :=
  let n := N_of_ascii c in
  ((9 <=? n) && (n <=? 13) || (n =? 32) || (n =? 160))%N.

Fixpoint trim_start (s : string) : string :=
  match s with
  | String c s' => if is_space c then trim_start s' else s
  | EmptyString => EmptyString
  end.

Fixpoint trim_end (s : string) : string :=
  match s with
  | EmptyString => EmptyString
  | String c s' =>
      match trim_end s' with
      | EmptyString => if is_space c then EmptyString else String c EmptyString
      | t => String c t
      end
  end.

Definition trim (s : string) : string := trim_end (trim_start s).

(** [Boolean(s)] for a string. *)
Definition truthy (s : string) : bool :=
  match s with EmptyString => false | _ => true end.

End Text.

Definition newline : ascii := ascii_of_nat 10.
Definition bar : ascii := "|"%char.

(** One line of a log: timestamped entries carry the value after the
    first bar. *)
Definition logEntry (line : string) : string :=
  match Text.split bar line with
  | _ :: part1 :: _ => Text.trim part1
  | _ => Text.trim line
  end.

(** [readLog]: [None] is a file that does not exist. *)
Definition readLog (file : option string) : gset string :=
  match file with
  | Some text =>
      list_to_set (List.filter Text.truthy (List.map logEntry (Text.split newline text)))
  | None => ∅
  end.

(** The candidate list: trimmed non-empty lines, in file order. *)
Definition readUrls (text : string) : list string :=
  List.filter (fun line => negb (Nat.eqb (String.length line) 0))
    (List.map Text.trim (Text.split newline text)).

(** ** Data of a run *)

(** A thrown value: [message], [stderr] (exec errors carry one) and the
    result of [toString()]. *)
Record Error := mkError {
  err_message : string;
  err_stderr : option string;
  err_toString : string
}.

(** An entry of dezoomify_failure_details.json. *)
Record FailureRecord := mkFailureRecord {
  timestamp : string;
  type : string;
  error : string;
  stderr : option string;
  attempts : Z;
  lastAttempt : string
}.

(** A JSON file on disk: missing, present with text [JSON.parse]
    rejects, or present with a parsable value. *)
Inductive JsonFile (A : Type) : Type :=
  | Absent
  | Unparsable
  | Parsed (value : A).
Arguments Absent {A}.
Arguments Unparsable {A}.
Arguments Parsed {A} value.

Module Progress.
Record FailureStats := mkStats {
  total : Z;
  byType : gmap string Z;
  multipleAttempts : Z
}.
Record TotalProcessed := mkTotal {
  dezoomifySuccess : Z;
  extractSuccess : Z;
  completedBoth : Z;
  failed : FailureStats
}.
Record t := mk {
  lastProcessedIndex : Z;
  totalUrls : Z;
  successCount : Z;
  failCount : Z;
  lastUpdate : string;
  totalProcessed : TotalProcessed;
  activeDownloads : Z
}.
End Progress.

(** The constants a run computes at startup. *)
Record Config := mkConfig {
  batchSize : Z;
  startIndex : Z;
  maxConcurrent : Z;
  dezoomifySuccessSet : gset string;
  extractSuccessSet : gset string;
  failureSet : gset string;
  urls : list string
}.

Definition endIndex (cfg : Config) : Z :=
  Z.min (startIndex cfg + batchSize cfg) (Z.of_nat (length (urls cfg))).

(** [urls[i]]: [undefined] outside the array. *)
Definition urlAt (cfg : Config) (i : Z) : option string :=
  if i <? 0 then None else urls cfg !! Z.to_nat i.

(** The files the runner owns. *)
Record Files := mkFiles {
  successLogFile : option string;
  failureLogFile : option string;
  detailedFailureLogFile : JsonFile (gmap string FailureRecord);
  progressFile : option Progress.t
}.

(** The module-level variables. *)
Record Vars := mkVars {
  successCount : Z;
  failCount : Z;
  current : Z;
  activeDownloads : Z
}.

(** Where [processUrls] stands: in its first loop, in its second loop,
    returned, or ended by [process.exit(1)]. *)
Inductive Phase := Dispatching | Draining | Finished | Exited.

(** The pending [processUrl] calls (index in the queue and URL), the
    URLs started so far, the position of [processUrls] and the resume
    command it printed. *)
Record Sched := mkSched {
  inflight : list (Z * string);
  started : list (Z * string);
  phase : Phase;
  resumeHint : option (Z * Z * Z)
}.

(** The environment: the outcome of each coming file operation that can
    throw ([None]: it succeeds; past the end of the list all succeed),
    and the clock read by [getTimestamp]. *)
Record Env := mkEnv {
  oracle : list (option Error);
  clock : nat -> string;
  ticks : nat
}.

Record World := mkWorld {
  files : Files;
  vars : Vars;
  sched : Sched;
  env : Env
}.

Definition with_files (f : Files -> Files) (w : World) : World :=
  mkWorld (f (files w)) (vars w) (sched w) (env w).
Definition with_vars (f : Vars -> Vars) (w : World) : World :=
  mkWorld (files w) (f (vars w)) (sched w) (env w).
Definition with_sched (f : Sched -> Sched) (w : World) : World :=
  mkWorld (files w) (vars w) (f (sched w)) (env w).
Definition with_env (f : Env -> Env) (w : World) : World :=
  mkWorld (files w) (vars w) (sched w) (f (env w)).

(** ** The monad of effectful code *)

Inductive Result (A : Type) : Type :=
  | Ok (a : A)
  | Throw (e : Error).
Arguments Ok {A} a.
Arguments Throw {A} e.

Definition M (A : Type) : Type := World -> Result A * World.

Definition ret {A} (a : A) : M A := fun w => (Ok a, w).
Definition throw {A} (e : Error) : M A := fun w => (Throw e, w).
Definition bind {A B} (c : M A) (k : A -> M B) : M B :=
  fun w => match c w with
           | (Ok a, w') => k a w'
           | (Throw e, w') => (Throw e, w')
           end.
(** [try { body } catch (e) { handler }]: effects of the body before the
    throw are kept. *)
Definition try_catch {A} (body : M A) (handler : Error -> M A) : M A :=
  fun w => match body w with
           | (Ok a, w') => (Ok a, w')
           | (Throw e, w') => handler e w'
           end.
Definition get : M World := fun w => (Ok w, w).
Definition modify (f : World -> World) : M unit := fun w => (Ok tt, f w).

Declare Scope run_scope.
Delimit Scope run_scope with run.
Notation "x <- c ; k" := (bind c (fun x => k))
  (at level 100, c at next level, right associativity) : run_scope.
Notation "c ;; k" := (bind c (fun _ => k))
  (at level 100, right associativity) : run_scope.
Local Open Scope run_scope.

(** A file operation that can throw consumes one answer of the oracle. *)
Definition fallible : M unit :=
  fun w => match oracle (env w) with
           | [] => (Ok tt, w)
           | None :: rest => (Ok tt, with_env (fun e => mkEnv rest (clock e) (ticks e)) w)
           | Some err :: rest =>
               (Throw err, with_env (fun e => mkEnv rest (clock e) (ticks e)) w)
           end.

Definition getTimestamp : M string :=
  fun w => (Ok (clock (env w) (ticks (env w))),
            with_env (fun e => mkEnv (oracle e) (clock e) (S (ticks e))) w).

(** ** Logging *)

Inductive LogFile := SuccessLog | FailureLog.

Definition appendText (old : option string) (text : string) : option string :=
  Some (match old with Some t => t ++ text | None => text end).

(** [fs.appendFileSync]: creates the file when it is missing. *)
Definition appendFileSync (file : LogFile) (text : string) : M unit :=
  fallible ;;
  modify (with_files (fun f =>
    match file with
    | SuccessLog =>
        mkFiles (appendText (successLogFile f) text) (failureLogFile f)
                (detailedFailureLogFile f) (progressFile f)
    | FailureLog =>
        mkFiles (successLogFile f) (appendText (failureLogFile f) text)
                (detailedFailureLogFile f) (progressFile f)
    end)).

Definition logLine (timestamp content : string) : string :=
  timestamp ++ " | " ++ content ++ String newline "".

Definition logToFile (file : LogFile) (content : string) : M unit :=
  timestamp <- getTimestamp ;
  appendFileSync file (logLine timestamp content).

Definition syntaxError : Error :=
  mkError "Unexpected token in JSON" None "SyntaxError: Unexpected token in JSON".

(** The block "load existing detailed failures" shared by [logFailure]
    and [saveProgress]: the empty object unless the file exists, can be
    read and parses. *)
Definition loadDetailed : M (gmap string FailureRecord) :=
  w <- get ;
  match detailedFailureLogFile (files w) with
  | Absent => ret ∅
  | Unparsable => try_catch (fallible ;; throw syntaxError) (fun _ => ret ∅)
  | Parsed value => try_catch (fallible ;; ret value) (fun _ => ret ∅)
  end.

Definition writeDetailed (value : gmap string FailureRecord) : M unit :=
  fallible ;;
  modify (with_files (fun f =>
    mkFiles (successLogFile f) (failureLogFile f) (Parsed value) (progressFile f))).

Definition writeProgress (p : Progress.t) : M unit :=
  fallible ;;
  modify (with_files (fun f =>
    mkFiles (successLogFile f) (failureLogFile f) (detailedFailureLogFile f) (Some p))).

(** [n || 0] on a number. *)
Definition or0 (n : Z) : Z := if n =? 0 then 0 else n.

(** [detailedFailures[url]?.attempts || 0]. *)
Definition previousAttempts (detailedFailures : gmap string FailureRecord)
    (url : string) : Z :=
  or0 (match detailedFailures !! url with Some r => attempts r | None => 0 end).

Definition logFailure (url : string) (error : Error) (type : string) : M unit :=
  timestamp <- getTimestamp ;
  logToFile FailureLog url ;;
  detailedFailures <- loadDetailed ;
  let entry :=
    mkFailureRecord timestamp type
      (if Text.truthy (err_message error) then err_message error else err_toString error)
      (match err_stderr error with
       | Some s => if Text.truthy s then Some s else None
       | None => None
       end)
      (previousAttempts detailedFailures url + 1)
      timestamp in
  writeDetailed (<[url := entry]> detailedFailures).

(** ** Progress snapshot *)

(** The [reduce] of [saveProgress] over [Object.values]. *)
Definition countByType (values : list FailureRecord) : gmap string Z :=
  foldl (fun acc curr => <[type curr := or0 (default 0 (acc !! type curr)) + 1]> acc)
        ∅ values.

Definition failureStatsOf (failureDetails : gmap string FailureRecord)
    : Progress.FailureStats :=
  let values := (map_to_list failureDetails).*2 in
  Progress.mkStats
    (Z.of_nat (size failureDetails))
    (countByType values)
    (Z.of_nat (length (List.filter (fun f => 1 <? attempts f) values))).

Definition saveProgress (cfg : Config) : M unit :=
  failureDetails <- loadDetailed ;
  let failureStats := failureStatsOf failureDetails in
  w <- get ;
  lastUpdate <- getTimestamp ;
  writeProgress
    (Progress.mk
       (current (vars w))
       (Z.of_nat (length (urls cfg)))
       (successCount (vars w))
       (failCount (vars w))
       lastUpdate
       (Progress.mkTotal
          (Z.of_nat (size (dezoomifySuccessSet cfg)))
          (Z.of_nat (size (extractSuccessSet cfg)))
          (Z.of_nat (length (List.filter
             (fun url => bool_decide (url ∈ extractSuccessSet cfg))
             (elements (dezoomifySuccessSet cfg)))))
          failureStats)
       (activeDownloads (vars w))).

(** ** One item *)

(** What the outside world answers for one item: the outcome of the
    downloader process and of the rename ([None]: no error). *)
Record ItemIO := mkItemIO {
  execResult : option Error;
  renameResult : option Error
}.

Definition incSuccess : M unit :=
  modify (with_vars (fun v =>
    mkVars (successCount v + 1) (failCount v) (current v) (activeDownloads v))).
Definition incFail : M unit :=
  modify (with_vars (fun v =>
    mkVars (successCount v) (failCount v + 1) (current v) (activeDownloads v))).
Definition incActive : M unit :=
  modify (with_vars (fun v =>
    mkVars (successCount v) (failCount v) (current v) (activeDownloads v + 1))).
Definition decActive : M unit :=
  modify (with_vars (fun v =>
    mkVars (successCount v) (failCount v) (current v) (activeDownloads v - 1))).

Definition raise (r : option Error) : M unit :=
  match r with Some e => throw e | None => ret tt end.

(** [processUrl] from the point where [execAsync] settles. *)
Definition processUrl (cfg : Config) (url : string) (io : ItemIO) : M unit :=
  try_catch
    (raise (execResult io) ;;
     try_catch
       (raise (renameResult io) ;;
        logToFile SuccessLog url ;;
        incSuccess)
       (fun moveErr =>
          logFailure url moveErr "move_failure" ;;
          incFail))
    (fun error =>
       logFailure url error "download_failure" ;;
       incFail) ;;
  decActive ;;
  saveProgress cfg.

(** The call site [processUrl(url).catch(error => { ...; activeDownloads--; })]. *)
Definition settle (cfg : Config) (url : string) (io : ItemIO) : M unit :=
  try_catch (processUrl cfg url io) (fun error => decActive).

(** ** The dispatch loop *)

Definition set_current (i : Z) : M unit :=
  modify (with_vars (fun v =>
    mkVars (successCount v) (failCount v) i (activeDownloads v))).
Definition set_phase (p : Phase) : M unit :=
  modify (with_sched (fun s => mkSched (inflight s) (started s) p (resumeHint s))).
Definition set_hint (h : Z * Z * Z) : M unit :=
  modify (with_sched (fun s => mkSched (inflight s) (started s) (phase s) (Some h))).

(** [processUrl(url)] up to its first [await]: the downloader process is
    spawned and the call is pending. *)
Definition spawn (i : Z) (url : string) : M unit :=
  modify (with_sched (fun s =>
    mkSched (inflight s ++ [(i, url)]) (started s ++ [(i, url)]) (phase s) (resumeHint s))).

(** The body of the inner [while]. *)
Definition launch (cfg : Config) : M unit :=
  w <- get ;
  let i := current (vars w) in
  set_current (i + 1) ;;
  match urlAt cfg i with
  | Some url =>
      if Text.truthy url then incActive ;; spawn i url else ret tt
  | None => ret tt
  end.

Definition canLaunch (cfg : Config) (w : World) : bool :=
  (activeDownloads (vars w) <? maxConcurrent cfg) && (current (vars w) <? endIndex cfg).

(** The inner [while]; every turn advances [current], so
    [endIndex - current] turns are enough ([innerLoopFrom_spec]). *)
Fixpoint innerLoopFrom (cfg : Config) (turns : nat) : M unit :=
  match turns with
  | O => ret tt
  | S turns' =>
      w <- get ;
      if canLaunch cfg w then launch cfg ;; innerLoopFrom cfg turns' else ret tt
  end.

Definition innerLoop (cfg : Config) : M unit :=
  w <- get ;
  innerLoopFrom cfg (Z.to_nat (endIndex cfg - current (vars w))).

(** The end of [processUrls]: summary, resume command, last snapshot. *)
Definition finish (cfg : Config) : M unit :=
  w <- get ;
  (if current (vars w) <? Z.of_nat (length (urls cfg))
   then set_hint (batchSize cfg, current (vars w), maxConcurrent cfg)
   else ret tt) ;;
  saveProgress cfg ;;
  set_phase Finished.

(** The test of the second [while]. *)
Definition drain (cfg : Config) : M unit :=
  w <- get ;
  if 0 <? activeDownloads (vars w) then set_phase Draining else finish cfg.

(** [processUrls] from its start or from a timer, up to the next
    [await]; a rejection ends the process ([process.exit(1)]). *)
Definition processUrls (cfg : Config) : M unit :=
  try_catch
    (w <- get ;
     match phase (sched w) with
     | Dispatching =>
         if current (vars w) <? endIndex cfg then innerLoop cfg else drain cfg
     | Draining => drain cfg
     | Finished | Exited => ret tt
     end)
    (fun error => set_phase Exited).

(** ** Runs *)

(** What can happen while the runner waits: the polling timer fires, or
    the downloader of the [k]-th pending call ends with answers [io]. *)
Inductive Event :=
  | Timer
  | Settled (k : nat) (io : ItemIO).

Definition dropPending (k : nat) : World -> World :=
  with_sched (fun s => mkSched (delete k (inflight s)) (started s) (phase s) (resumeHint s)).

Definition step (cfg : Config) (ev : Event) (w : World) : option World :=
  match phase (sched w), ev with
  | Exited, _ => None
  | (Dispatching | Draining), Timer => Some (processUrls cfg w).2
  | Finished, Timer => None
  | _, Settled k io =>
      match inflight (sched w) !! k with
      | Some (_, url) => Some (settle cfg url io (dropPending k w)).2
      | None => None
      end
  end.

Definition initialWorld (cfg : Config) (f : Files) (e : Env) : World :=
  mkWorld f
    (mkVars (Z.of_nat (size (dezoomifySuccessSet cfg)))
            (Z.of_nat (size (failureSet cfg)))
            (startIndex cfg) 0)
    (mkSched [] [] Dispatching None)
    e.

(** The world when the script first yields: [processUrls()] has run up
    to its first [await]. *)
Definition boot (cfg : Config) (f : Files) (e : Env) : World :=
  (processUrls cfg (initialWorld cfg f e)).2.

Fixpoint runEvents (cfg : Config) (evs : list Event) (w : World) : option World :=
  match evs with
  | [] => Some w
  | ev :: evs' =>
      match step cfg ev w with
      | Some w' => runEvents cfg evs' w'
      | None => None
      end
  end.

(** The worlds a run can be in. *)
Inductive reachable (cfg : Config) (f : Files) (e : Env) : World -> Prop :=
  | reach_boot : reachable cfg f e (boot cfg f e)
  | reach_step w ev w' :
      reachable cfg f e w -> step cfg ev w = Some w' -> reachable cfg f e w'.

(** Startup: the sets and the queue are computed once from the files;
    [None] is the exit for a missing candidate file. *)
Definition configure (batchSize startIndex maxConcurrent : Z)
    (inputFile extractSuccessFile : option string) (f : Files) : option Config :=
  match inputFile with
  | None => None
  | Some text =>
      let dezoomifySuccessSet := readLog (successLogFile f) in
      let extractSuccessSet := readLog extractSuccessFile in
      let failureSet := readLog (failureLogFile f) in
      Some (mkConfig batchSize startIndex maxConcurrent
              dezoomifySuccessSet extractSuccessSet failureSet
              (workQueue (readUrls text) dezoomifySuccessSet extractSuccessSet failureSet))
  end.

(** * The retry logic of extract_zoomify.js *)

Module Extract.

Definition MAX_RETRIES : nat := 3.

Record Stats := mkStats { successful : Z; skipped : Z; failed : Z }.

(** The files the validator writes, its counters, the product pages it
    has visited so far (one entry for each run of the [try] block), and
    the outside world: what the [n]-th visit yields (the corrected URL,
    or [None] when any step of the [try] block throws) and the clock. *)
Record State := mkState {
  successLogFile : option string;
  failureLogFile : option string;
  correctedUrlsFile : option string;
  stats : Stats;
  processedCount : Z;
  visits : list string;
  web : nat -> option string;
  clock : nat -> string;
  ticks : nat
}.

(** The [try] block up to the point where the corrected URL is known. *)
Definition attempt (url : string) (st : State) : option string * State :=
  (web st (length (visits st)),
   mkState (successLogFile st) (failureLogFile st) (correctedUrlsFile st) (stats st)
     (processedCount st) (visits st ++ [url]) (web st) (clock st) (ticks st)).

(** The rest of the [try] block. *)
Definition recordSuccess (correctedUrl : string) (st : State) : State :=
  mkState
    (appendText (successLogFile st) (logLine (clock st (ticks st)) correctedUrl))
    (failureLogFile st)
    (appendText (correctedUrlsFile st) (correctedUrl ++ String newline ""))
    (mkStats (successful (stats st) + 1) (skipped (stats st)) (failed (stats st)))
    (processedCount st + 1) (visits st) (web st) (clock st) (S (ticks st)).

(** The end of the [catch] block, once the retries are used up. *)
Definition recordFailure (url : string) (st : State) : State :=
  mkState
    (successLogFile st)
    (appendText (failureLogFile st) (logLine (clock st (ticks st)) url))
    (correctedUrlsFile st)
    (mkStats (successful (stats st)) (skipped (stats st)) (failed (stats st) + 1))
    (processedCount st + 1) (visits st) (web st) (clock st) (S (ticks st)).

Equations? processUrl (url : string) (retryCount : nat) (st : State) : State
  by wf (MAX_RETRIES - retryCount)%nat lt :=
  processUrl url retryCount st with attempt url st => {
    | (Some correctedUrl, st1) := recordSuccess correctedUrl st1;
    | (None, st1) with lt_dec retryCount MAX_RETRIES => {
        | left _ := processUrl url (S retryCount) st1;
        | right _ := recordFailure url st1 } }.
Proof. unfold MAX_RETRIES in *. lia. Qed.

End Extract.

(** * Notions used in the statements *)

(** ** Queue and filename *)

(** The queue as the specification words it: the candidates, in their
    order, that are neither in the failure set nor in both success
    sets. *)
Definition queueSpec (allUrls : list string) (dz ex fl : gset string) : list string :=
  filter (fun url => (url ∉ fl) ∧ url ∉ (dz ∩ ex)) allUrls.




(** ** Worlds and outcomes *)

(** No file operation is going to throw. *)
Definition quiet (w : World) : Prop := oracle (env w) = [].

(** What [loadDetailed] returns. *)
Definition loaded (w : World) : gmap string FailureRecord :=
  match detailedFailureLogFile (files w) with
  | Parsed value => value
  | _ => ∅
  end.

(** A fresh working directory, a well-behaved environment, and sample
    errors. *)
Definition noFiles : Files := mkFiles None None Absent None.
Definition calmEnv : Env := mkEnv [] (fun _ => "2025-05-01T10:00:00.000Z") 0.
Definition execError : Error :=
  mkError "Command failed: dezoomify-rs.exe" (Some "tile download failed")
          "Error: Command failed: dezoomify-rs.exe".
Definition moveError : Error :=
  mkError "EPERM: operation not permitted, rename" None
          "Error: EPERM: operation not permitted, rename".
Definition demoConfig : Config := mkConfig 10 0 3 ∅ ∅ ∅ ["a"; "b"; "c"].

(** Failing again and again: the count follows the number of failures. *)
Fixpoint failTimes (n : nat) (url : string) (error : Error) (ty : string)
    (w : World) : World :=
  match n with
  | O => w
  | S n' => (logFailure url error ty (failTimes n' url error ty w)).2
  end.

(** The number of records of type [t]. *)
Definition typeCount (t : string) (values : list FailureRecord) : Z :=
  Z.of_nat (length (filter (fun r => type r = t) values)).

(** A count as [byType] holds it: no property for zero. *)
Definition countCell (n : Z) : option Z := if n =? 0 then None else Some n.

(** The entry [logFailure] writes for [url] in world [w]. *)
Definition entryFor (w : World) (url : string) (error : Error) (ty : string)
    : FailureRecord :=
  mkFailureRecord
    (clock (env w) (ticks (env w))) ty
    (if Text.truthy (err_message error) then err_message error else err_toString error)
    (match err_stderr error with
     | Some s => if Text.truthy s then Some s else None
     | None => None
     end)
    (previousAttempts (loaded w) url + 1)
    (clock (env w) (ticks (env w))).

(** The snapshot [saveProgress] writes from variables [v] at time [now]
    when the detailed record holds [m]. *)
Definition snapshotOf (cfg : Config) (v : Vars) (m : gmap string FailureRecord)
    (now : string) : Progress.t :=
  Progress.mk (current v) (Z.of_nat (length (urls cfg))) (successCount v) (failCount v) now
    (Progress.mkTotal
       (Z.of_nat (size (dezoomifySuccessSet cfg)))
       (Z.of_nat (size (extractSuccessSet cfg)))
       (Z.of_nat (length (List.filter
          (fun url => bool_decide (url ∈ extractSuccessSet cfg))
          (elements (dezoomifySuccessSet cfg)))))
       (failureStatsOf m))
    (activeDownloads v).

(** How the item ended for the runner: the error it logs and under which
    type; [None] for a success. *)
Definition failureOf (io : ItemIO) : option (Error * string) :=
  match execResult io, renameResult io with
  | Some error, _ => Some (error, "download_failure")
  | None, Some moveErr => Some (moveErr, "move_failure")
  | None, None => None
  end.

(** The error of a file operation that throws. *)
Definition diskError : Error :=
  mkError "ENOSPC: no space left on device, write" None
          "Error: ENOSPC: no space left on device, write".

(** ** Frames and invariants *)

(** [keeps P c]: whatever [c] does, and whether it returns or throws, the
    world it leaves is related by [P] to the world it found. *)
Definition keeps (P : relation World) {A} (c : M A) : Prop := ∀ w, P w (c w).2.

(** The environment and the files may change; the scheduler state and the
    variables [current] and [activeDownloads] do not. *)
Definition same_control : relation World := fun w w' =>
  sched w' = sched w
  ∧ current (vars w') = current (vars w)
  ∧ activeDownloads (vars w') = activeDownloads (vars w).

(** Once no file operation is going to throw, none is. *)
Definition calm : relation World := fun w w' => quiet w → quiet w'.

(** [processUrl] up to the point where it gives its slot back. *)
Definition outcome (url : string) (io : ItemIO) : M unit :=
  try_catch
    (raise (execResult io) ;;
     try_catch
       (raise (renameResult io) ;; logToFile SuccessLog url ;; incSuccess)
       (fun moveErr => logFailure url moveErr "move_failure" ;; incFail))
    (fun error => logFailure url error "download_failure" ;; incFail).

(** The pending calls, the started calls, [current] and
    [activeDownloads] are as before (the phase and the printed hint may
    differ). *)
Definition same_items : relation World := fun w w' =>
  inflight (sched w') = inflight (sched w)
  ∧ started (sched w') = started (sched w)
  ∧ current (vars w') = current (vars w)
  ∧ activeDownloads (vars w') = activeDownloads (vars w).

(** What the inner loop starts at position [i]: the URL there, unless
    the position is outside the queue or holds the empty string. *)
Definition launchedAt (cfg : Config) (i : Z) : list (Z * string) :=
  match urlAt cfg i with
  | Some url => if Text.truthy url then [(i, url)] else []
  | None => []
  end.

(** What is started over the [n] positions from [i] on. *)
Fixpoint sliceFrom (cfg : Config) (i : Z) (n : nat) : list (Z * string) :=
  match n with
  | O => []
  | S n' => (launchedAt cfg i ++ sliceFrom cfg (i + 1) n')%list
  end.

(** The world after one turn of the inner loop. *)
Definition afterLaunch (cfg : Config) (w : World) : World :=
  let i := current (vars w) in
  mkWorld (files w)
    (mkVars (successCount (vars w)) (failCount (vars w)) (i + 1)
            (activeDownloads (vars w) + Z.of_nat (length (launchedAt cfg i))))
    (mkSched (inflight (sched w) ++ launchedAt cfg i)
             (started (sched w) ++ launchedAt cfg i)
             (phase (sched w)) (resumeHint (sched w)))
    (env w).

(** True in every world of every run. *)
Record Inv (cfg : Config) (w : World) : Prop := mkInv {
  inv_current_lo : startIndex cfg ≤ current (vars w);
  inv_current_hi : current (vars w) ≤ Z.max (startIndex cfg) (endIndex cfg);
  inv_started :
    started (sched w)
    = sliceFrom cfg (startIndex cfg) (Z.to_nat (current (vars w) - startIndex cfg));
  inv_inflight : sublist (inflight (sched w)) (started (sched w));
  inv_counter_max : activeDownloads (vars w) ≤ Z.max 0 (maxConcurrent cfg);
  inv_counter_low : activeDownloads (vars w) ≤ Z.of_nat (length (inflight (sched w)));
  inv_slack :
    Z.of_nat (length (inflight (sched w))) - activeDownloads (vars w)
    ≤ Z.of_nat (length (started (sched w))) - Z.of_nat (length (inflight (sched w)))
}.

(** True in every world of a run in which no file operation throws. *)
Definition QInv (w : World) : Prop :=
  quiet w ∧ activeDownloads (vars w) = Z.of_nat (length (inflight (sched w))).

(** ** Sample inputs *)

(** The validator before its first item. *)
Definition blankState (web : nat -> option string) : Extract.State :=
  Extract.mkState None None None (Extract.mkStats 0 0 0) 0 [] web
    (fun _ => "2025-05-01T09:00:00.000Z") 0.

(** Lines of a file. *)
Definition unlines (lines : list string) : string :=
  foldr (fun line rest => line ++ String newline rest) "" lines.

(** A candidate file of four URLs. *)
Definition fourCandidates : option string := Some (unlines ["A"; "B"; "C"; "D"]).
(** The validator's success log for the same four URLs. *)
Definition fourValidated : option string :=
  Some (logLine "2025-05-01T09:00:00.000Z" "A" ++ logLine "2025-05-01T09:00:01.000Z" "B"
        ++ logLine "2025-05-01T09:00:02.000Z" "C" ++ logLine "2025-05-01T09:00:03.000Z" "D").
(** Download and move both succeed. *)
Definition itemOk : ItemIO := mkItemIO None None.

(** ** Log lines *)

(** [c] does not occur in [s]. *)
Definition lacks (c : ascii) (s : string) : bool :=
  Str.forallb (fun x => negb (Ascii.eqb x c)) s.

(** The part of [s] before its first [c]; all of [s] when it has none. *)
Fixpoint beforeFirst (c : ascii) (s : string) : string :=
  match s with
  | EmptyString => EmptyString
  | String a s' => if Ascii.eqb a c then EmptyString else String a (beforeFirst c s')
  end.

(** A queue whose first URL holds a bar. *)
Definition barredConfig : Config := mkConfig 10 0 3 ∅ ∅ ∅ ["x|y"; "c"].

(** What the runner logs: a string without bar or line break, trimmed and
    not empty (as [readUrls] delivers them, bars apart). *)
Definition cleanEntry (s : string) : Prop :=
  lacks bar s = true ∧ lacks newline s = true ∧ Text.trim s = s ∧ s ≠ "".

(** An ISO timestamp has neither bar nor line break. *)
Definition cleanStamp (s : string) : Prop :=
  lacks bar s = true ∧ lacks newline s = true.

(** The file is missing, empty, or ends with a line break. *)
Definition endsWithNewline (file : option string) : Prop :=
  ∃ pre : list string, Text.split newline (default "" file) = (pre ++ [""])%list.

(** ** The end of a run *)

(** The command a run prints when it ends with [current] at [cur]. *)
Definition hintOf (cfg : Config) (cur : Z) : option (Z * Z * Z) :=
  if cur <? Z.of_nat (length (urls cfg))
  then Some (batchSize cfg, cur, maxConcurrent cfg)
  else None.

(** What the phase says about the rest of the state. *)
Record PhaseInv (cfg : Config) (w : World) : Prop := mkPhaseInv {
  pi_dispatching : phase (sched w) = Dispatching → resumeHint (sched w) = None;
  pi_draining :
    phase (sched w) = Draining →
    resumeHint (sched w) = None ∧ endIndex cfg ≤ current (vars w);
  pi_finished :
    phase (sched w) = Finished →
    endIndex cfg ≤ current (vars w)
    ∧ activeDownloads (vars w) ≤ 0
    ∧ resumeHint (sched w) = hintOf cfg (current (vars w))
}.

(** ** Counted failures *)

(** The last line of the simple failure log is for [url], and the
    detailed record has an entry for [url] of type [ty]. *)
Definition recorded (url ty : string) (w : World) : Prop :=
  (∃ old ts, failureLogFile (files w) = appendText old (logLine ts url))
  ∧ ∃ m r, detailedFailureLogFile (files w) = Parsed m ∧ m !! url = Some r ∧ type r = ty.

(** The logs (not the snapshot) and the failure counter are as before. *)
Definition same_logs : relation World := fun w w' =>
  successLogFile (files w') = successLogFile (files w)
  ∧ failureLogFile (files w') = failureLogFile (files w)
  ∧ detailedFailureLogFile (files w') = detailedFailureLogFile (files w)
  ∧ successCount (vars w') = successCount (vars w)
  ∧ failCount (vars w') = failCount (vars w).

(** The inner [try] of [processUrl] with its [catch]. *)
Definition moveAndLog (url : string) (io : ItemIO) : M unit :=
  try_catch
    (raise (renameResult io) ;; logToFile SuccessLog url ;; incSuccess)
    (fun moveErr => logFailure url moveErr "move_failure" ;; incFail).

(** * The rest of the three scripts

    What follows embeds the code around the parts above: the remaining
    notions about runs of the downloader, the startup, the URL
    correction and the chunking of the validator (extract_zoomify.js),
    and the sitemap tracker (track_sitemap_changes.js).

    Further conventions.
    - A JavaScript [Set] whose iteration order matters (the URL sets of
      the tracker) is a list without repetition, in insertion order.
    - The XML parser is a parameter: a function from the text to the
      [loc] entries it finds, or [None] for an error.
    - For the validator and the tracker, writing a file is taken to
      succeed; reading a missing or unparsable file fails as the code
      does. *)

(** ** Logs by name *)

(** The text of one of the two simple logs. *)
Definition logText (file : LogFile) (f : Files) : option string :=
  match file with
  | SuccessLog => successLogFile f
  | FailureLog => failureLogFile f
  end.

(** ** Runs in which no file operation throws *)

(** The world after the last lines of [processUrls]: the command is
    printed if the queue goes on, the snapshot is written, the function
    has returned. *)
Definition finishedWorld (cfg : Config) (w : World) : World :=
  mkWorld
    (mkFiles (successLogFile (files w)) (failureLogFile (files w))
       (detailedFailureLogFile (files w))
       (Some (snapshotOf cfg (vars w) (loaded w) (clock (env w) (ticks (env w))))))
    (vars w)
    (mkSched (inflight (sched w)) (started (sched w)) Finished
       (if current (vars w) <? Z.of_nat (length (urls cfg))
        then Some (batchSize cfg, current (vars w), maxConcurrent cfg)
        else resumeHint (sched w)))
    (mkEnv [] (clock (env w)) (S (ticks (env w)))).

(** The world after a timer that finds nothing left to start: the runner
    keeps waiting while calls are pending, and ends otherwise. *)
Definition idleWorld (cfg : Config) (w : World) : World :=
  if 0 <? activeDownloads (vars w)
  then with_sched (fun s => mkSched (inflight s) (started s) Draining (resumeHint s)) w
  else finishedWorld cfg w.

(** The number of calls that have settled. *)
Definition settledCount (w : World) : Z :=
  Z.of_nat (length (started (sched w))) - Z.of_nat (length (inflight (sched w))).

(** True in every world of a run in which no file operation throws. *)
Record QRun (cfg : Config) (w : World) : Prop := mkQRun {
  qr_phase : phase (sched w) ≠ Exited;
  qr_counts :
    successCount (vars w) + failCount (vars w)
    = Z.of_nat (size (dezoomifySuccessSet cfg)) + Z.of_nat (size (failureSet cfg))
      + settledCount w;
  qr_success : Z.of_nat (size (dezoomifySuccessSet cfg)) ≤ successCount (vars w);
  qr_fail : Z.of_nat (size (failureSet cfg)) ≤ failCount (vars w);
  qr_snapshot :
    phase (sched w) = Finished →
    ∃ now, progressFile (files w) = Some (snapshotOf cfg (vars w) (loaded w) now)
}.

(** A queue of four URLs, of which a run takes the second and third. *)
Definition sliceConfig : Config := mkConfig 2 1 3 ∅ ∅ ∅ ["A"; "B"; "C"; "D"].

(** ** Statistics *)

(** The sum of the counts a [byType] object holds. *)
Definition sumCounts (m : gmap string Z) : Z :=
  map_fold (fun _ n acc => n + acc) 0 m.

(** The world after [a] has failed twice in an empty working directory. *)
Definition twiceFailed : World :=
  failTimes 2 "a" execError "download_failure" (initialWorld demoConfig noFiles calmEnv).

(** * The validator: extract_zoomify.js *)

(** ** String and array methods *)

Module Js.

(** [s.indexOf(pat)]: the position of the first occurrence of [pat];
    [None] stands for -1. *)
Fixpoint indexOf (pat s : string) : option nat :=
  if String.prefix pat s then Some 0%nat
  else match s with
       | EmptyString => None
       | String _ s' => S <$> indexOf pat s'
       end.

(** [s.includes(pat)]. *)
Definition includes (pat s : string) : bool :=
  match indexOf pat s with Some _ => true | None => false end.

(** [s.endsWith(suffix)]. *)
Fixpoint endsWith (suffix s : string) : bool :=
  String.eqb suffix s
  || match s with
     | EmptyString => false
     | String _ s' => endsWith suffix s'
     end.

(** [s.slice(0, -n)]: the string without its last [n] code units. *)
Definition dropLast (n : nat) (s : string) : string :=
  String.substring 0 (String.length s - n) s.

(** [arr.slice(start, stop)], with the indices counted from the end when
    they are negative, and clamped to the array. *)
Definition slice {A} (start stop : Z) (l : list A) : list A :=
  let len := Z.of_nat (length l) in
  let k := if start <? 0 then Z.max (len + start) 0 else Z.min start len in
  let final := if stop <? 0 then Z.max (len + stop) 0 else Z.min stop len in
  take (Z.to_nat (final - k)) (drop (Z.to_nat k) l).

(** [arr.join(sep)]. *)
Fixpoint join (sep : string) (l : list string) : string :=
  match l with
  | [] => ""
  | [x] => x
  | x :: rest => x ++ sep ++ join sep rest
  end.

End Js.

(** The number of occurrences of a character. *)
Fixpoint countChar (c : ascii) (s : string) : nat :=
  match s with
  | EmptyString => O
  | String a s' => ((if Ascii.eqb a c then 1 else 0) + countChar c s')%nat
  end.

Module Validator.

Definition marker : string := "/P/AntiqueMap/".

Definition missingMarker : Error :=
  mkError "Invalid URL format - missing /P/AntiqueMap/" None
          "Error: Invalid URL format - missing /P/AntiqueMap/".
Definition missingDash : Error :=
  mkError "Invalid URL format - missing dash (-) in map ID" None
          "Error: Invalid URL format - missing dash (-) in map ID".

(** Lines 200-215 of [processUrl]: the URL of ImageProperties.xml, from
    the product URL and the identifier found on the product page. *)
Definition correctedUrl (url zoomlinkId : string) : Result string :=
  match Js.indexOf marker url with
  | None => Throw missingMarker
  | Some antiqueMapIndex =>
      let mapId := Str.drop (antiqueMapIndex + 13) url in
      match Js.indexOf "-" mapId with
      | None => Throw missingDash
      | Some dashIndex =>
          let mapIdSuffix := Str.drop dashIndex mapId in
          Ok (urlPrefix ++ zoomlinkId ++ mapIdSuffix ++ urlSuffix)
      end
  end.

End Validator.

(** ** Startup of the validator *)

Module ValidatorMain.

(** [readLog] of extract_zoomify.js (lines 283-299); every line is a
    string, so the first test keeps the lines that are not empty. *)
Definition readLog (file : option string) : gset string :=
  match file with
  | None => ∅
  | Some content =>
      list_to_set
        (List.filter Text.truthy
           (List.map logEntry
              (List.filter Text.truthy
                 (List.map Text.trim
                    (List.filter Text.truthy (Text.split newline content))))))
  end.

Definition notDefined : Error :=
  mkError "localSitemapFile is not defined" None
          "ReferenceError: localSitemapFile is not defined".
Definition noUrls : Error :=
  mkError "[ERROR] No URLs found in C:/Users/Mai/Documents/zoomifyjs/logs/initial_urls_noxml.txt"
          None
          "Error: [ERROR] No URLs found in C:/Users/Mai/Documents/zoomifyjs/logs/initial_urls_noxml.txt".

(** [validateEnvironment] (lines 82-102), as a function of the text of
    initial_urls_noxml.txt ([None]: the file is missing).  Without the
    file it calls [extractAntiqueMapUrls], whose first statement reads
    the variable [localSitemapFile], which this script never declares:
    the promise rejects.  (With the file, the function also creates an
    empty corrected-URL file if there is none; that does not bear on
    the value it returns.) *)
Definition validateEnvironment (initialUrlsNoXmlFile : option string)
    : Result (list string) :=
  match initialUrlsNoXmlFile with
  | None => Throw notDefined
  | Some text =>
      let inputContent := Text.trim text in
      if Text.truthy inputContent
      then Ok (List.filter Text.truthy
                 (List.map Text.trim (Text.split newline inputContent)))
      else Throw noUrls
  end.

(** The candidates found in neither log (the filter of line 309). *)
Definition pending (allUrls : list string) (successSet failureSet : gset string)
    : list string :=
  List.filter (fun url =>
      negb (bool_decide (url ∈ successSet)) && negb (bool_decide (url ∈ failureSet)))
    allUrls.

(** The batch of a run (lines 308-310). *)
Definition batch (allUrls : list string) (successSet failureSet : gset string)
    (startIndex batchSize : Z) : list string :=
  Js.slice startIndex (startIndex + batchSize) (pending allUrls successSet failureSet).

(** The command a run prints for the next batch (lines 364-367), [None]
    when it prints none.  An empty batch ends the run at lines 312-315,
    before anything is printed.  When URLs are left after the first one
    and the limit is not a length an array can have or is zero, line 364
    is not reached either: with a limit that is negative or above
    2^32 - 1, [Array(maxConcurrent)] throws and the handler of line 370
    exits; with zero the chunk size is zero and the loop of line 344
    does not end.  Otherwise, when neither a call to the browser nor a
    write to a log throws, the run comes to the test of line 364. *)
Definition nextBatch (allUrls : list string) (successSet failureSet : gset string)
    (batchSize startIndex maxConcurrent : Z) : option (Z * Z * Z) :=
  match batch allUrls successSet failureSet startIndex batchSize with
  | [] => None
  | _ :: remainingUrls =>
      if negb (Nat.eqb (length remainingUrls) 0)
         && ((maxConcurrent <? 1) || (4294967295 <? maxConcurrent))
      then None
      else if startIndex + batchSize <? Z.of_nat (length allUrls)
           then Some (batchSize, startIndex + batchSize, maxConcurrent)
           else None
  end.

End ValidatorMain.

(** [f] applied to the last element. *)
Fixpoint mapLast {A} (f : A -> A) (l : list A) : list A :=
  match l with
  | [] => []
  | [x] => [f x]
  | x :: l' => x :: mapLast f l'
  end.

(** The candidates as both scripts would keep them: the trimmed lines
    that are not empty. *)
Definition keptLines (text : string) : list string :=
  List.filter Text.truthy (List.map Text.trim (Text.split newline text)).

(** A product page and the URL the validator builds for it. *)
Definition parisPage : string :=
  "https://www.geographicus.com/P/AntiqueMap/paris-bonne-1771".
Definition parisUrl : string := urlPrefix ++ "Paris-bonne-1771" ++ urlSuffix.

(** ** The chunks of a batch *)

Module Chunks.

(** The [for] loop of lines 344-351: the chunk that starts at [i], then
    the chunks after it.  Every turn moves [i] by [chunkSize]; when that
    is positive, as many turns as there are URLs are enough
    ([chunks_cover]). *)
Fixpoint chunksFrom (turns : nat) (chunkSize i : Z) (remainingUrls : list string)
    : list (list string) :=
  match turns with
  | O => []
  | S turns' =>
      if i <? Z.of_nat (length remainingUrls)
      then Js.slice i (i + chunkSize) remainingUrls
           :: chunksFrom turns' chunkSize (i + chunkSize) remainingUrls
      else []
  end.

Definition chunks (maxConcurrent : Z) (remainingUrls : list string) : list (list string) :=
  let chunkSize := Z.min (maxConcurrent * 2) (Z.of_nat (length remainingUrls)) in
  chunksFrom (length remainingUrls) chunkSize 0 remainingUrls.

(** [index % pages.length] for the pool of [maxConcurrent] pages: the
    page that runs the task at [index] of a chunk. *)
Definition pageOf (maxConcurrent : Z) (index : nat) : Z :=
  Z.rem (Z.of_nat index) maxConcurrent.

End Chunks.

(** * The sitemap tracker: track_sitemap_changes.js *)

Module Sitemap.

(** A [Set] of strings with its insertion order is a list without
    repetition; [s.has(x)] is membership and [s.add(x)] appends a new
    element. *)
Definition setAdd (x : string) (s : list string) : list string :=
  if bool_decide (x ∈ s) then s else (s ++ [x])%list.

(** [new Set(array)]. *)
Definition setOf (l : list string) : list string :=
  foldl (fun s x => setAdd x s) [] l.

Definition filterDuplicateUrls (urls : list string) : list string :=
  foldl (fun filteredUrls url =>
           if Js.endsWith "_d" url && bool_decide (Js.dropLast 2 url ∈ urls)
           then filteredUrls
           else setAdd url filteredUrls)
        [] urls.

(** The pair [{ added, removed }]. *)
Definition findDifferences (oldUrls newUrls : list string) : list string * list string :=
  (List.filter (fun url => negb (bool_decide (url ∈ oldUrls))) newUrls,
   List.filter (fun url => negb (bool_decide (url ∈ newUrls))) oldUrls).

Definition parseError : Error :=
  mkError "Non-whitespace before first tag." None "Error: Non-whitespace before first tag.".
Definition jsonError : Error :=
  mkError "Unexpected end of JSON input" None "SyntaxError: Unexpected end of JSON input".
Definition noChangesLog : Error :=
  mkError "ENOENT: no such file or directory, open" None
          "Error: ENOENT: no such file or directory, open".

(** An entry of sitemap_changes.json. *)
Record Change := mkChange {
  date : string;
  added : list string;
  removed : list string
}.

(** The files of the tracker: the two copies of the sitemap, the log of
    changes (the array under [changes]) and the list of URLs it leaves
    for the validator. *)
Record Disk := mkDisk {
  CURRENT_SITEMAP : option string;
  LATEST_SITEMAP : option string;
  CHANGES_LOG : JsonFile (list Change);
  INITIAL_URLS_NOXML : option string
}.

(** The statement that runs when the module is loaded (lines 14-16):
    a missing log of changes is created with an empty array. *)
Definition ensureChangesLog (d : Disk) : Disk :=
  match CHANGES_LOG d with
  | Absent => mkDisk (CURRENT_SITEMAP d) (LATEST_SITEMAP d) (Parsed []) (INITIAL_URLS_NOXML d)
  | _ => d
  end.

(** The line break as a separator. *)
Definition lineBreak : string := String newline "".

Section Parser.

(** The XML parser, seen from this script: the [loc] entries of the
    sitemap in document order, or [None] when [parseString] reports an
    error. *)
Variable parse : string -> option (list string).

Definition extractUrls (xmlContent : string) : Result (list string) :=
  match parse xmlContent with
  | None => Throw parseError
  | Some locs =>
      Ok (filterDuplicateUrls (setOf (List.filter (Js.includes Validator.marker) locs)))
  end.

(** [checkSitemapChanges] from the point where the download has
    succeeded with text [latestXml]; [now] is the time of the run.  The
    result is the value returned, or the error rethrown, with the files
    as the call leaves them (writes are taken to succeed). *)
Definition checkSitemapChanges (latestXml now : string) (d : Disk)
    : Result (list string * (list string * list string)) * Disk :=
  let d1 := mkDisk (CURRENT_SITEMAP d) (Some latestXml) (CHANGES_LOG d)
              (INITIAL_URLS_NOXML d) in
  match extractUrls latestXml with
  | Throw e => (Throw e, d1)
  | Ok latestUrls =>
      let localXml := default "" (CURRENT_SITEMAP d1) in
      match (if Text.truthy localXml then extractUrls localXml else Ok []) with
      | Throw e => (Throw e, d1)
      | Ok localUrls =>
          let diff := findDifferences localUrls latestUrls in
          let d2 := mkDisk (CURRENT_SITEMAP d1) (LATEST_SITEMAP d1) (CHANGES_LOG d1)
                      (Some (Js.join lineBreak latestUrls)) in
          if (0 <? length diff.1)%nat || (0 <? length diff.2)%nat
          then match CHANGES_LOG d2 with
               | Parsed changes =>
                   let d3 := mkDisk (CURRENT_SITEMAP d2) (LATEST_SITEMAP d2)
                               (Parsed (changes ++ [mkChange now diff.1 diff.2])%list)
                               (INITIAL_URLS_NOXML d2) in
                   let d4 :=
                     if negb (Text.truthy localXml)
                        || (0 <? length diff.1)%nat || (0 <? length diff.2)%nat
                     then mkDisk (Some latestXml) (LATEST_SITEMAP d3) (CHANGES_LOG d3)
                            (INITIAL_URLS_NOXML d3)
                     else d3 in
                   (Ok (latestUrls, diff), d4)
               | Unparsable => (Throw jsonError, d2)
               | Absent => (Throw noChangesLog, d2)
               end
          else (Ok (latestUrls, diff), d2)
      end
  end.

End Parser.

End Sitemap.

(** A URL as a sitemap lists it: not empty, on one line, without white
    space at either end. *)
Definition cleanUrl (u : string) : Prop :=
  lacks newline u = true ∧ Text.trim u = u ∧ u ≠ "".

(** The test of the loop of [filterDuplicateUrls]: the URL is the [_d]
    twin of a URL of the set. *)
Definition isTwin (urls : list string) (url : string) : Prop :=
  Js.endsWith "_d" url = true ∧ Js.dropLast 2 url ∈ urls.

(** * Properties *)

(** ** Examples *)

Example sanitize_ex :
  sanitizeFilename (urlPrefix ++ "Paris-bonne-1771" ++ urlSuffix) = "Paris-bonne-1771"
  /\ sanitizeFilename "http://x/a b.c" = "http___x_a_b_c".
Proof. split; vm_compute; reflexivity. Qed.

Example workQueue_ex :
  workQueue ["A"; "B"; "C"] {["A"]} {["A"]} ∅ = ["B"; "C"].
Proof. vm_compute. reflexivity. Qed.

Example readLog_ex :
  readLog (Some ("2025-05-01T10:00:00.000Z | http://a/1" ++ String newline
                 ("http://a/2 " ++ String newline "")))
  = {[ "http://a/1"; "http://a/2" ]}.
Proof. vm_compute. reflexivity. Qed.

(** ** Strings *)

Lemma remove_first_unfold pat s :
  Str.remove_first pat s =
  if String.prefix pat s then Str.drop (String.length pat) s
  else match s with
       | EmptyString => EmptyString
       | String c s' => String c (Str.remove_first pat s')
       end.
Proof. destruct s; reflexivity. Qed.

Lemma append_cons a (p r : string) : String a p ++ r = String a (p ++ r).
Proof. reflexivity. Qed.

Lemma prefix_append p r : String.prefix p (p ++ r) = true.
Proof.
  induction p as [|a p IH]; [by destruct r|].
  rewrite append_cons. cbn [String.prefix].
  destruct (ascii_dec a a); [exact IH | congruence].
Qed.

Lemma prefix_head_differs a b p s :
  a ≠ b → String.prefix (String a p) (String b s) = false.
Proof. intros Hab. cbn [String.prefix]. destruct (ascii_dec a b); congruence. Qed.

Lemma drop_append p r : Str.drop (String.length p) (p ++ r) = r.
Proof.
  induction p as [|a p IH]; [by destruct r|].
  rewrite append_cons. exact IH.
Qed.

Lemma remove_first_at_start p r : Str.remove_first p (p ++ r) = r.
Proof. rewrite remove_first_unfold, prefix_append. apply drop_append. Qed.

Lemma append_empty_r (s : string) : s ++ "" = s.
Proof.
  induction s as [|a s IH]; [reflexivity|].
  by rewrite append_cons, IH.
Qed.





(** A name without a slash cannot hide an early occurrence of the
    suffix: the suffix is removed at the end, where it stands. *)
Lemma remove_suffix_at_end name :
  lacks "/" name = true ->
  Str.remove_first urlSuffix (name ++ urlSuffix) = name.
Proof.
  unfold lacks. induction name as [|c name IH]; intros Hname.
  - change ("" ++ urlSuffix) with urlSuffix.
    rewrite <- (append_empty_r urlSuffix) at 2.
    apply remove_first_at_start.
  - simpl in Hname. apply andb_prop in Hname as [Hc Hname].
    rewrite append_cons, remove_first_unfold.
    unfold urlSuffix at 1. rewrite prefix_head_differs.
    + by rewrite IH.
    + intros <-. discriminate Hc.
Qed.

(** ** Work queue *)

Lemma keep_decides (dz ex fl : gset string) (url : string) :
  negb (bool_decide (url ∈ dz) && bool_decide (url ∈ ex)) && negb (bool_decide (url ∈ fl))
  = bool_decide ((url ∉ fl) ∧ url ∉ (dz ∩ ex)).
Proof.
  destruct (decide (url ∈ dz)) as [Hd|Hd], (decide (url ∈ ex)) as [He|He],
    (decide (url ∈ fl)) as [Hf|Hf];
    repeat first [rewrite (bool_decide_eq_true_2 _ Hd) | rewrite (bool_decide_eq_true_2 _ He)
                 | rewrite (bool_decide_eq_true_2 _ Hf) | rewrite (bool_decide_eq_false_2 _ Hd)
                 | rewrite (bool_decide_eq_false_2 _ He) | rewrite (bool_decide_eq_false_2 _ Hf)];
    simpl; symmetry;
    first [apply bool_decide_eq_true_2 | apply bool_decide_eq_false_2];
    rewrite elem_of_intersection; tauto.
Qed.

Lemma workQueue_refines allUrls dz ex fl :
  workQueue allUrls dz ex fl = queueSpec allUrls dz ex fl.
Proof.
  unfold workQueue, queueSpec.
  induction allUrls as [|url l IH]; [reflexivity|].
  cbn [List.filter]. rewrite filter_cons, IH, keep_decides.
  by case_bool_decide; case_decide.
Qed.

Lemma elem_of_workQueue allUrls dz ex fl url :
  url ∈ workQueue allUrls dz ex fl ↔ url ∈ allUrls ∧ (url ∉ fl) ∧ url ∉ (dz ∩ ex).
Proof.
  rewrite workQueue_refines. unfold queueSpec. rewrite list_elem_of_filter. tauto.
Qed.

(** C1: the work queue computed at startup is the subsequence of the
    candidate list, in candidate order, of exactly the URLs that are not
    in the failure set and not in both success sets; a URL in only one
    success set stays in the queue. *)
Theorem workQueue_spec (allUrls : list string) (dz ex fl : gset string) :
  workQueue allUrls dz ex fl = queueSpec allUrls dz ex fl
  ∧ sublist (workQueue allUrls dz ex fl) allUrls
  ∧ (∀ url, url ∈ workQueue allUrls dz ex fl ↔
            url ∈ allUrls ∧ (url ∉ fl) ∧ ¬ (url ∈ dz ∧ url ∈ ex))
  ∧ (∀ url, url ∈ allUrls → url ∉ fl → url ∉ dz ∨ url ∉ ex →
            url ∈ workQueue allUrls dz ex fl).
Proof.
  split; [apply workQueue_refines|]. split; [|split].
  - rewrite workQueue_refines. apply sublist_filter.
  - intros url. rewrite elem_of_workQueue, elem_of_intersection. tauto.
  - intros url Hin Hf Hone. apply elem_of_workQueue.
    rewrite elem_of_intersection. tauto.
Qed.

Lemma configure_spec bs si mc input extract f cfg :
  configure bs si mc input extract f = Some cfg →
  ∃ text, input = Some text
    ∧ dezoomifySuccessSet cfg = readLog (successLogFile f)
    ∧ extractSuccessSet cfg = readLog extract
    ∧ failureSet cfg = readLog (failureLogFile f)
    ∧ urls cfg = workQueue (readUrls text) (readLog (successLogFile f))
                   (readLog extract) (readLog (failureLogFile f)).
Proof.
  unfold configure. destruct input as [text|]; [|discriminate].
  intros [= <-]. by exists text.
Qed.

Lemma both_success_sets_skip (allUrls : list string) (dz ex fl : gset string) (u : string) :
  u ∈ dz → u ∈ ex → u ∉ workQueue allUrls dz ex fl.
Proof.
  intros Hd He Hin. apply elem_of_workQueue in Hin as (_ & _ & Hboth).
  apply Hboth, elem_of_intersection. by split.
Qed.

(** C2, as it is worded, fails: with [A] in the downloader's own success
    log only, [A] stays in the queue and the queue of [[A,B,C]] is not
    [[B,C]]. *)
Lemma own_success_log_is_not_enough :
  "A" ∈ ({["A"]} : gset string)
  ∧ "A" ∈ workQueue ["A"; "B"; "C"] {["A"]} ∅ ∅
  ∧ workQueue ["A"; "B"; "C"] {["A"]} ∅ ∅ = ["A"; "B"; "C"]
  ∧ workQueue ["A"; "B"; "C"] {["A"]} ∅ ∅ ≠ ["B"; "C"].
Proof.
  assert (Hq : workQueue ["A"; "B"; "C"] {["A"]} ∅ ∅ = ["A"; "B"; "C"])
    by (vm_compute; reflexivity).
  rewrite Hq.
  split; [by apply elem_of_singleton|].
  split; [apply list_elem_of_here|].
  split; [reflexivity | discriminate].
Qed.

(** C2 (amended): a URL that is in the downloader's own success log and
    in the upstream validator's success log is absent from the work
    queue, and so from the queue of every run that starts from logs
    holding it; for the candidates [[a,b,c]], downloader success log
    [{a}], a validator success log that contains [a], and an empty
    failure log, the queue is [[b,c]]. *)
Theorem succeeded_in_both_logs_is_skipped
    (allUrls : list string) (dz ex fl : gset string) (u a b c : string)
    (Hdz : u ∈ dz) (Hex : u ∈ ex) (Ha : a ∈ ex) (Hab : a ≠ b) (Hac : a ≠ c) :
  (u ∉ workQueue allUrls dz ex fl)
  ∧ workQueue [a; b; c] {[a]} ex ∅ = [b; c]
  ∧ (∀ (bs si mc : Z) (input extract : option string) (f : Files) (cfg : Config),
       configure bs si mc input extract f = Some cfg →
       readLog (successLogFile f) = dz → readLog extract = ex →
       u ∉ urls cfg).
Proof.
  split; [by apply both_success_sets_skip|]. split.
  - unfold workQueue. cbn [List.filter].
    rewrite (bool_decide_eq_true_2 (a ∈ ({[a]} : gset string)))
      by by apply elem_of_singleton.
    rewrite (bool_decide_eq_true_2 (a ∈ ex)) by done.
    rewrite (bool_decide_eq_false_2 (b ∈ ({[a]} : gset string)))
      by (rewrite elem_of_singleton; congruence).
    rewrite (bool_decide_eq_false_2 (c ∈ ({[a]} : gset string)))
      by (rewrite elem_of_singleton; congruence).
    rewrite !(bool_decide_eq_false_2 (_ ∈ (∅ : gset string))) by apply not_elem_of_empty.
    reflexivity.
  - intros bs si mc input extract f cfg Hcfg <- <-.
    unfold configure in Hcfg. destruct input as [text|]; [|discriminate].
    injection Hcfg as <-. by apply both_success_sets_skip.
Qed.

Lemma succeeded_in_both_logs_is_skipped_witness :
  ("A" ∉ workQueue ["A"; "B"; "C"] {["A"]} {["A"]} ∅)
  ∧ workQueue ["A"; "B"; "C"] {["A"]} {["A"]} ∅ = ["B"; "C"]
  ∧ (∀ (bs si mc : Z) (input extract : option string) (f : Files) (cfg : Config),
       configure bs si mc input extract f = Some cfg →
       readLog (successLogFile f) = {["A"]} → readLog extract = {["A"]} →
       "A" ∉ urls cfg).
Proof.
  apply (succeeded_in_both_logs_is_skipped ["A"; "B"; "C"] {["A"]} {["A"]} ∅
           "A" "A" "B" "C").
  - vm_compute. reflexivity.
  - vm_compute. reflexivity.
  - vm_compute. reflexivity.
  - discriminate.
  - discriminate.
Defined.

(** ** Filename derivation *)



Lemma map_ext (f g : ascii -> ascii) (s : string) :
  (∀ c, f c = g c) → Str.map f s = Str.map g s.
Proof.
  intros Hfg. induction s as [|a s IH]; simpl; [reflexivity|].
  by rewrite Hfg, IH.
Qed.

(** ** Removing the first occurrence *)

Lemma prefix_inv p s : String.prefix p s = true → ∃ r, s = p ++ r.
Proof.
  revert s; induction p as [|a p IH]; intros s Hp; [by exists s|].
  destruct s as [|b s]; [discriminate|].
  cbn [String.prefix] in Hp. destruct (ascii_dec a b) as [->|]; [|discriminate].
  destruct (IH s Hp) as [r ->]. by exists r.
Qed.






(** For a URL of the expected shape the stripped part is the map name. *)
Lemma sanitizeFilename_wellformed name :
  lacks "/" name = true ->
  sanitizeFilename (urlPrefix ++ name ++ urlSuffix) = Str.map sanitizeChar name.
Proof.
  intros Hname. unfold sanitizeFilename. cbv zeta.
  by rewrite remove_first_at_start, remove_suffix_at_end.
Qed.

(** C10: the derivation is not injective: two distinct URLs that differ
    in a character outside [[A-Za-z0-9_-]] get the same filename, hence
    the same temporary and final output paths, and both can stand in one
    work queue. *)
Theorem sanitizeFilename_not_injective :
  ∃ u1 u2 : string,
    u1 ≠ u2
    ∧ sanitizeFilename u1 = sanitizeFilename u2
    ∧ tempOutputPath u1 = tempOutputPath u2
    ∧ finalOutputPath u1 = finalOutputPath u2
    ∧ workQueue [u1; u2] ∅ ∅ ∅ = [u1; u2].
Proof.
  exists (urlPrefix ++ "Paris 1771" ++ urlSuffix), (urlPrefix ++ "Paris.1771" ++ urlSuffix).
  split; [discriminate|].
  assert (Hsame : sanitizeFilename (urlPrefix ++ "Paris 1771" ++ urlSuffix)
                  = sanitizeFilename (urlPrefix ++ "Paris.1771" ++ urlSuffix))
    by (vm_compute; reflexivity).
  unfold tempOutputPath, finalOutputPath. rewrite Hsame.
  split; [reflexivity|]. split; [reflexivity|]. split; [reflexivity|].
  vm_compute. reflexivity.
Qed.

(** ** Running effectful code when no file operation throws *)

Ltac run_step :=
  cbv beta iota zeta delta
    [bind ret throw try_catch get modify fallible getTimestamp raise
     with_files with_vars with_sched with_env
     appendFileSync logToFile loadDetailed writeDetailed writeProgress
     incSuccess incFail incActive decActive set_current set_phase set_hint spawn
     files vars sched env oracle clock ticks
     successLogFile failureLogFile detailedFailureLogFile progressFile
     successCount failCount current activeDownloads
     inflight started phase resumeHint fst snd].

Lemma logFailure_quiet url error ty w :
  quiet w →
  logFailure url error ty w =
  (Ok tt,
   mkWorld
     (mkFiles (successLogFile (files w))
        (appendText (failureLogFile (files w))
           (logLine (clock (env w) (S (ticks (env w)))) url))
        (Parsed (<[url := mkFailureRecord
                     (clock (env w) (ticks (env w))) ty
                     (if Text.truthy (err_message error) then err_message error
                      else err_toString error)
                     (match err_stderr error with
                      | Some s => if Text.truthy s then Some s else None
                      | None => None
                      end)
                     (previousAttempts (loaded w) url + 1)
                     (clock (env w) (ticks (env w)))]> (loaded w)))
        (progressFile (files w)))
     (vars w) (sched w)
     (mkEnv [] (clock (env w)) (S (S (ticks (env w)))))).
Proof.
  destruct w as [f v s [o c t]]. unfold quiet, loaded; simpl. intros ->.
  unfold logFailure. destruct f as [sl fl [| |m] pf]; run_step; reflexivity.
Qed.

Lemma or0_id n : or0 n = n.
Proof. unfold or0. destruct (Z.eqb_spec n 0); congruence. Qed.

(** ** Detailed failure record *)

(** C8, as it is worded, fails when a file operation of [logFailure]
    does not go through.  The record holds two attempts for [a] and one
    for [b], and [a] fails again.  When reading the record throws, the
    code starts from the empty object: the file it writes gives [a] one
    attempt and has lost the entry of [b].  When the write of the record
    throws, the failure is in the simple log and the record still gives
    [a] two attempts. *)
Lemma unusable_record_resets_attempts :
  let w0 := (logFailure "b" moveError "move_failure" twiceFailed).2 in
  (∃ m : gmap string FailureRecord,
     detailedFailureLogFile (files w0) = Parsed m
     ∧ attempts <$> m !! "a" = Some 2
     ∧ attempts <$> m !! "b" = Some 1)
  ∧ (let w := with_env (fun e => mkEnv [None; Some diskError] (clock e) (ticks e)) w0 in
     ∃ (w' : World) (m' : gmap string FailureRecord),
       logFailure "a" execError "download_failure" w = (Ok tt, w')
       ∧ detailedFailureLogFile (files w') = Parsed m'
       ∧ attempts <$> m' !! "a" = Some 1
       ∧ m' !! "b" = None)
  ∧ (let w := with_env (fun e => mkEnv [None; None; Some diskError] (clock e) (ticks e)) w0 in
     ∃ (w' : World) (m' : gmap string FailureRecord),
       logFailure "a" execError "download_failure" w = (Throw diskError, w')
       ∧ "a" ∈ readLog (failureLogFile (files w'))
       ∧ detailedFailureLogFile (files w') = Parsed m'
       ∧ attempts <$> m' !! "a" = Some 2).
Proof.
  cbv zeta. split; [|split].
  - eexists. repeat (split; [vm_compute; reflexivity|]). vm_compute. reflexivity.
  - eexists _, _. repeat (split; [vm_compute; reflexivity|]). vm_compute. reflexivity.
  - eexists _, _. split; [vm_compute; reflexivity|].
    split; [apply (bool_decide_unpack _); vm_compute; exact I|].
    split; vm_compute; reflexivity.
Qed.

(** C8 (amended): when no file operation throws, [logFailure] writes a
    record with an entry for the URL.  If the record file was read and
    parsed, that entry has [attempts] 1 when the file had no entry for
    the URL and the old value plus exactly one otherwise, and the
    entries of all other URLs are as they were in the file.  If the file
    was missing or did not parse, the record starts afresh: the entry
    has [attempts] 1 and is the only one. *)
Theorem logFailure_counts_attempts
    (url : string) (error : Error) (ty : string) (w : World) (Hq : quiet w) :
  ∃ (w' : World) (m' : gmap string FailureRecord) (r' : FailureRecord),
    logFailure url error ty w = (Ok tt, w')
    ∧ detailedFailureLogFile (files w') = Parsed m'
    ∧ m' !! url = Some r'
    ∧ quiet w'
    ∧ (∀ m : gmap string FailureRecord,
         detailedFailureLogFile (files w) = Parsed m →
         attempts r' = match m !! url with
                       | Some r => attempts r + 1
                       | None => 1
                       end
         ∧ (∀ other : string, other ≠ url → m' !! other = m !! other)
         ∧ dom m' = {[url]} ∪ dom m)
    ∧ (detailedFailureLogFile (files w) = Absent
       ∨ detailedFailureLogFile (files w) = Unparsable →
       attempts r' = 1 ∧ m' = {[url := r']}).
Proof.
  rewrite (logFailure_quiet url error ty w Hq).
  eexists _, _, _. split; [reflexivity|]. split; [reflexivity|].
  split; [apply lookup_insert_eq|]. split; [reflexivity|]. split.
  - intros m Hm. unfold loaded. rewrite Hm. split; [|split].
    + cbn [attempts]. unfold previousAttempts. rewrite or0_id.
      destruct (m !! url); reflexivity.
    + intros other Hother. by rewrite lookup_insert_ne.
    + apply dom_insert_L.
  - intros Hm. unfold loaded.
    destruct Hm as [-> | ->]; (split; [reflexivity | apply insert_empty]).
Qed.

Lemma logFailure_counts_attempts_witness :
  attempts <$> loaded twiceFailed !! "a" = Some 2
  ∧ ∃ (w' : World) (m' : gmap string FailureRecord) (r' : FailureRecord),
    logFailure "a" execError "download_failure" twiceFailed = (Ok tt, w')
    ∧ detailedFailureLogFile (files w') = Parsed m'
    ∧ m' !! "a" = Some r'
    ∧ quiet w'
    ∧ (∀ m : gmap string FailureRecord,
         detailedFailureLogFile (files twiceFailed) = Parsed m →
         attempts r' = match m !! "a" with
                       | Some r => attempts r + 1
                       | None => 1
                       end
         ∧ (∀ other : string, other ≠ "a" → m' !! other = m !! other)
         ∧ dom m' = {["a"]} ∪ dom m)
    ∧ (detailedFailureLogFile (files twiceFailed) = Absent
       ∨ detailedFailureLogFile (files twiceFailed) = Unparsable →
       attempts r' = 1 ∧ m' = {["a" := r']}).
Proof.
  split; [vm_compute; reflexivity|].
  apply (logFailure_counts_attempts "a" execError "download_failure" twiceFailed).
  vm_compute. reflexivity.
Defined.

Lemma logFailure_next url error ty w :
  quiet w →
  quiet (logFailure url error ty w).2
  ∧ attempts <$> loaded (logFailure url error ty w).2 !! url
    = Some (previousAttempts (loaded w) url + 1).
Proof.
  intros Hq. rewrite (logFailure_quiet _ _ _ _ Hq). split; [reflexivity|].
  unfold loaded at 1. cbn [snd files detailedFailureLogFile].
  by rewrite lookup_insert_eq.
Qed.

Lemma failTimes_attempts n url error ty w :
  quiet w → loaded w !! url = None →
  quiet (failTimes (S n) url error ty w)
  ∧ attempts <$> loaded (failTimes (S n) url error ty w) !! url = Some (Z.of_nat (S n)).
Proof.
  intros Hq Hnew. induction n as [|n [IHq IHa]].
  - cbn [failTimes]. destruct (logFailure_next url error ty w Hq) as [Hq' Ha].
    split; [exact Hq'|]. rewrite Ha. unfold previousAttempts. by rewrite Hnew.
  - change (failTimes (S (S n)) url error ty w)
      with (logFailure url error ty (failTimes (S n) url error ty w)).2.
    destruct (logFailure_next url error ty _ IHq) as [Hq' Ha].
    split; [exact Hq'|]. rewrite Ha. unfold previousAttempts. rewrite or0_id.
    destruct (loaded (failTimes (S n) url error ty w) !! url) as [r|]; [|discriminate].
    simpl in IHa. injection IHa as ->. f_equal. lia.
Qed.

(** ** Failure statistics *)

Lemma typeCount_nonneg t values : 0 ≤ typeCount t values.
Proof. unfold typeCount. lia. Qed.

Lemma typeCount_cons t r values :
  typeCount t (r :: values) = (if decide (type r = t) then 1 else 0) + typeCount t values.
Proof.
  unfold typeCount. rewrite filter_cons.
  destruct (decide (type r = t)); simpl; lia.
Qed.

(** The fold adds, under each type, the number of records of that type
    to what the accumulator held. *)
Lemma foldl_byType (values : list FailureRecord) (acc : gmap string Z) (t : string) :
  foldl (fun acc curr => <[type curr := or0 (default 0 (acc !! type curr)) + 1]> acc)
        acc values !! t
  = if typeCount t values =? 0 then acc !! t
    else Some (default 0 (acc !! t) + typeCount t values).
Proof.
  revert acc. induction values as [|r values IH]; intros acc; [reflexivity|].
  cbn [foldl]. rewrite IH, typeCount_cons, or0_id.
  pose proof (typeCount_nonneg t values) as Hpos.
  destruct (decide (type r = t)) as [->|Hne].
  - rewrite lookup_insert_eq. simpl.
    destruct (Z.eqb_spec (typeCount t values) 0) as [->|Hn];
      destruct (Z.eqb_spec (1 + typeCount t values) 0); try lia; f_equal; lia.
  - rewrite lookup_insert_ne by done. reflexivity.
Qed.

Lemma countByType_lookup values t :
  countByType values !! t = countCell (typeCount t values).
Proof.
  unfold countByType, countCell. rewrite foldl_byType, lookup_empty. simpl.
  destruct (Z.eqb_spec (typeCount t values) 0); [reflexivity | f_equal; lia].
Qed.



(** ** One item, when no file operation throws *)

Ltac run_item :=
  unfold settle, processUrl, logFailure, saveProgress; run_step.

Lemma settle_failure_quiet cfg url io w error ty :
  quiet w → failureOf io = Some (error, ty) →
  settle cfg url io w =
  (Ok tt,
   let v' := mkVars (successCount (vars w)) (failCount (vars w) + 1)
                    (current (vars w)) (activeDownloads (vars w) - 1) in
   let m' := <[url := entryFor w url error ty]> (loaded w) in
   mkWorld
     (mkFiles (successLogFile (files w))
        (appendText (failureLogFile (files w))
           (logLine (clock (env w) (S (ticks (env w)))) url))
        (Parsed m')
        (Some (snapshotOf cfg v' m' (clock (env w) (S (S (ticks (env w))))))))
     v' (sched w)
     (mkEnv [] (clock (env w)) (S (S (S (ticks (env w))))))).
Proof.
  destruct w as [[sl fl d pf] v s [o c t]], io as [[e1|] [e2|]];
    unfold quiet, failureOf, loaded, entryFor, snapshotOf; simpl;
    intros -> Hio; try discriminate; injection Hio as <- <-;
    destruct d; run_item; reflexivity.
Qed.

Lemma settle_success_quiet cfg url io w :
  quiet w → failureOf io = None →
  settle cfg url io w =
  (Ok tt,
   let v' := mkVars (successCount (vars w) + 1) (failCount (vars w))
                    (current (vars w)) (activeDownloads (vars w) - 1) in
   mkWorld
     (mkFiles
        (appendText (successLogFile (files w))
           (logLine (clock (env w) (ticks (env w))) url))
        (failureLogFile (files w))
        (detailedFailureLogFile (files w))
        (Some (snapshotOf cfg v' (loaded w) (clock (env w) (S (ticks (env w)))))))
     v' (sched w)
     (mkEnv [] (clock (env w)) (S (S (ticks (env w)))))).
Proof.
  destruct w as [[sl fl d pf] v s [o c t]], io as [[e1|] [e2|]];
    unfold quiet, failureOf, loaded, snapshotOf; simpl;
    intros -> Hio; try discriminate;
    destruct d; run_item; reflexivity.
Qed.

Lemma failureOf_move io moveErr :
  execResult io = None → renameResult io = Some moveErr →
  failureOf io = Some (moveErr, "move_failure").
Proof. unfold failureOf. by intros -> ->. Qed.

Lemma failureOf_download io error :
  execResult io = Some error → failureOf io = Some (error, "download_failure").
Proof. unfold failureOf. by intros ->. Qed.




(** ** Counted failures, whatever the file system does *)

Lemma processUrl_outcome cfg url io :
  processUrl cfg url io = (outcome url io ;; decActive ;; saveProgress cfg).
Proof. reflexivity. Qed.

Ltac oracle_cases o := destruct o as [|[?|] [|[?|] [|[?|] o]]].

Lemma logFailure_cases url error ty w :
  vars (logFailure url error ty w).2 = vars w
  ∧ sched (logFailure url error ty w).2 = sched w
  ∧ successLogFile (files (logFailure url error ty w).2) = successLogFile (files w)
  ∧ ((logFailure url error ty w).1 = Ok tt → recorded url ty (logFailure url error ty w).2).
Proof.
  destruct w as [[sl fl d pf] v s [o c t]]. unfold logFailure, recorded.
  oracle_cases o; destruct d; run_step;
    (split; [reflexivity|]); (split; [reflexivity|]); (split; [reflexivity|]);
    intros Hok; try discriminate Hok;
    (split; [by eexists _, _ | eexists _, _; split; [reflexivity|];
                                split; [apply lookup_insert_eq | reflexivity]]).
Qed.

Lemma saveProgress_same_logs cfg w : same_logs w (saveProgress cfg w).2.
Proof.
  destruct w as [[sl fl d pf] v s [o c t]]. unfold saveProgress, same_logs.
  oracle_cases o; destruct d; run_step; by repeat split.
Qed.

Lemma logToFile_success_cases url w :
  vars (logToFile SuccessLog url w).2 = vars w
  ∧ sched (logToFile SuccessLog url w).2 = sched w
  ∧ failureLogFile (files (logToFile SuccessLog url w).2) = failureLogFile (files w)
  ∧ detailedFailureLogFile (files (logToFile SuccessLog url w).2)
    = detailedFailureLogFile (files w).
Proof.
  destruct w as [[sl fl d pf] v s [o c t]].
  oracle_cases o; run_step; by repeat split.
Qed.

Lemma bind_ok {A B} (c : M A) (k : A -> M B) w a w' :
  c w = (Ok a, w') → bind c k w = k a w'.
Proof. unfold bind. by intros ->. Qed.

Lemma bind_throw {A B} (c : M A) (k : A -> M B) w e w' :
  c w = (Throw e, w') → bind c k w = (Throw e, w').
Proof. unfold bind. by intros ->. Qed.

Lemma try_catch_ok {A} (body : M A) handler w a w' :
  body w = (Ok a, w') → try_catch body handler w = (Ok a, w').
Proof. unfold try_catch. by intros ->. Qed.

Lemma try_catch_throw {A} (body : M A) handler w e w' :
  body w = (Throw e, w') → try_catch body handler w = handler e w'.
Proof. unfold try_catch. by intros ->. Qed.

(** A [catch] block of [processUrl]: [logFailure], then the counter. *)
Lemma catch_block_cases url error ty w :
  ty = "download_failure" ∨ ty = "move_failure" →
  sched ((logFailure url error ty ;; incFail) w).2 = sched w
  ∧ (((logFailure url error ty ;; incFail) w).1 = Ok tt
     ∧ failCount (vars ((logFailure url error ty ;; incFail) w).2) = failCount (vars w) + 1
     ∧ (recorded url "download_failure" ((logFailure url error ty ;; incFail) w).2
        ∨ recorded url "move_failure" ((logFailure url error ty ;; incFail) w).2)
     ∨ (∃ e, ((logFailure url error ty ;; incFail) w).1 = Throw e)
       ∧ failCount (vars ((logFailure url error ty ;; incFail) w).2) = failCount (vars w)).
Proof.
  intros Hty.
  destruct (logFailure_cases url error ty w) as (Hv & Hs & _ & Hrec).
  destruct (logFailure url error ty w) as [[[]|e] w1] eqn:Hlog; simpl in Hv, Hs, Hrec.
  - rewrite (bind_ok _ _ _ _ _ Hlog). specialize (Hrec eq_refl).
    destruct w1 as [f1 v1 s1 e1]; simpl in *. subst.
    split; [reflexivity|]. left. split; [reflexivity|]. split; [reflexivity|].
    destruct Hty as [-> | ->]; [by left | by right].
  - rewrite (bind_throw _ _ _ _ _ Hlog). simpl.
    split; [exact Hs|]. right. split; [by eexists | by rewrite Hv].
Qed.

Lemma moveAndLog_cases url io w :
  sched (moveAndLog url io w).2 = sched w
  ∧ (failCount (vars (moveAndLog url io w).2) = failCount (vars w)
     ∨ failCount (vars (moveAndLog url io w).2) = failCount (vars w) + 1
       ∧ (moveAndLog url io w).1 = Ok tt
       ∧ recorded url "move_failure" (moveAndLog url io w).2).
Proof.
  assert (Hcatch : ∀ e w1,
    sched w1 = sched w → failCount (vars w1) = failCount (vars w) →
    let r := (logFailure url e "move_failure" ;; incFail) w1 in
    sched r.2 = sched w
    ∧ (failCount (vars r.2) = failCount (vars w)
       ∨ failCount (vars r.2) = failCount (vars w) + 1
         ∧ r.1 = Ok tt ∧ recorded url "move_failure" r.2)).
  { intros e w1 Hs1 Hf1.
    destruct (logFailure_cases url e "move_failure" w1) as (Hv & Hs & _ & Hrec).
    destruct (logFailure url e "move_failure" w1) as [[[]|e'] w2] eqn:Hlog;
      simpl in Hv, Hs, Hrec.
    - rewrite (bind_ok _ _ _ _ _ Hlog). specialize (Hrec eq_refl).
      destruct w2 as [f2 v2 s2 e2]; simpl in *. subst.
      split; [exact Hs1|]. right. split; [by rewrite Hf1|]. by split.
    - rewrite (bind_throw _ _ _ _ _ Hlog). simpl.
      split; [congruence|]. left. by rewrite Hv. }
  unfold moveAndLog.
  destruct (renameResult io) as [moveErr|].
  - (* the move failed *)
    rewrite (try_catch_throw _ _ w moveErr w) by reflexivity. by apply Hcatch.
  - (* the move succeeded; the success is logged *)
    destruct (logToFile_success_cases url w) as (Hv & Hs & _).
    destruct (logToFile SuccessLog url w) as [[[]|e] w1] eqn:Hlog; simpl in Hv, Hs.
    + rewrite (try_catch_ok _ _ w tt
                 (with_vars (fun v => mkVars (successCount v + 1) (failCount v)
                                        (current v) (activeDownloads v)) w1)).
      * destruct w1 as [f1 v1 s1 e1]; simpl in *. subst. split; [reflexivity|]. by left.
      * unfold bind at 1. cbn [raise ret]. by rewrite (bind_ok _ _ _ _ _ Hlog).
    + (* the append to the success log threw: caught as a move error *)
      rewrite (try_catch_throw _ _ w e w1).
      * apply Hcatch; [exact Hs | by rewrite Hv].
      * unfold bind at 1. cbn [raise ret]. by rewrite (bind_throw _ _ _ _ _ Hlog).
Qed.

Lemma outcome_moveAndLog url io :
  outcome url io
  = try_catch (raise (execResult io) ;; moveAndLog url io)
      (fun error => logFailure url error "download_failure" ;; incFail).
Proof. reflexivity. Qed.

(** The counter of failures moves only when [logFailure] has returned:
    whatever the file system does, the first part of [processUrl] either
    leaves [failCount] alone, or adds one to it with the item recorded in
    both places under one of the two types. *)
Lemma outcome_cases url io w :
  sched (outcome url io w).2 = sched w
  ∧ (failCount (vars (outcome url io w).2) = failCount (vars w)
     ∨ failCount (vars (outcome url io w).2) = failCount (vars w) + 1
       ∧ (outcome url io w).1 = Ok tt
       ∧ (recorded url "download_failure" (outcome url io w).2
          ∨ recorded url "move_failure" (outcome url io w).2)).
Proof.
  assert (Hcatch : ∀ e w1,
    sched w1 = sched w → failCount (vars w1) = failCount (vars w) →
    let r := (logFailure url e "download_failure" ;; incFail) w1 in
    sched r.2 = sched w
    ∧ (failCount (vars r.2) = failCount (vars w)
       ∨ failCount (vars r.2) = failCount (vars w) + 1
         ∧ r.1 = Ok tt
         ∧ (recorded url "download_failure" r.2 ∨ recorded url "move_failure" r.2))).
  { intros e w1 Hs1 Hf1.
    destruct (catch_block_cases url e "download_failure" w1 (or_introl eq_refl))
      as (Hs & Hcase).
    split; [congruence|]. rewrite <- Hf1.
    destruct Hcase as [(Hok & Hfc & Hrec)|[_ Hfc]]; [right | left]; done. }
  rewrite outcome_moveAndLog.
  destruct (execResult io) as [error|].
  - (* the downloader failed *)
    rewrite (try_catch_throw _ _ w error w) by reflexivity. by apply Hcatch.
  - (* the downloader succeeded *)
    destruct (moveAndLog_cases url io w) as (Hs & Hcase).
    destruct (moveAndLog url io w) as [[[]|e] w1] eqn:Hmove; simpl in Hs, Hcase.
    + rewrite (try_catch_ok _ _ w tt w1) by (by rewrite <- Hmove).
      split; [exact Hs|]. destruct Hcase as [Hfc|(Hfc & _ & Hrec)]; [by left|].
      right. split; [exact Hfc|]. split; [reflexivity | by right].
    + rewrite (try_catch_throw _ _ w e w1) by (by rewrite <- Hmove).
      destruct Hcase as [Hfc|(_ & Hok & _)]; [|discriminate].
      by apply Hcatch.
Qed.

Lemma recorded_same_logs url ty w w' :
  failureLogFile (files w') = failureLogFile (files w) →
  detailedFailureLogFile (files w') = detailedFailureLogFile (files w) →
  recorded url ty w → recorded url ty w'.
Proof. unfold recorded. by intros -> ->. Qed.

(** One settled call, whatever the file system does: a failure that is
    counted has been recorded in both places. *)
Lemma settle_counted cfg url io w :
  failCount (vars (settle cfg url io w).2) = failCount (vars w)
  ∨ failCount (vars (settle cfg url io w).2) = failCount (vars w) + 1
    ∧ (recorded url "download_failure" (settle cfg url io w).2
       ∨ recorded url "move_failure" (settle cfg url io w).2).
Proof.
  destruct (outcome_cases url io w) as (_ & Hcase).
  unfold settle. rewrite processUrl_outcome.
  destruct (outcome url io w) as [[[]|e] w1] eqn:Hout; simpl in Hcase.
  - (* the first part returned: slot given back, snapshot written *)
    assert (Hrest : ∀ w3,
      (w3 = (saveProgress cfg (decActive w1).2).2
       ∨ w3 = (decActive (saveProgress cfg (decActive w1).2).2).2) →
      failCount (vars w3) = failCount (vars w1)
      ∧ failureLogFile (files w3) = failureLogFile (files w1)
      ∧ detailedFailureLogFile (files w3) = detailedFailureLogFile (files w1)).
    { intros w3 Hw3.
      destruct (saveProgress_same_logs cfg (decActive w1).2) as (_ & Hf & Hd & _ & Hc).
      destruct w1 as [f1 v1 s1 e1]. cbn [decActive modify with_vars snd files vars failCount] in *.
      destruct Hw3 as [-> | ->]; [by rewrite Hf, Hd, Hc|].
      destruct (saveProgress cfg _) as [r [f3 v3 s3 e3]]. simpl in *. by rewrite Hf, Hd, Hc. }
    unfold try_catch. rewrite (bind_ok _ _ _ _ _ Hout).
    set (w2 := (decActive w1).2).
    assert (Hdec : (decActive ;; saveProgress cfg) w1 = saveProgress cfg w2) by reflexivity.
    rewrite Hdec.
    destruct (saveProgress cfg w2) as [[[]|e] w3] eqn:Hsave.
    + destruct (Hrest w3) as (Hc & Hf & Hd); [left; subst w2; by rewrite Hsave|].
      simpl. rewrite Hc. destruct Hcase as [Hfc|(Hfc & _ & Hrec)]; [by left|].
      right. split; [exact Hfc|].
      destruct Hrec as [Hrec|Hrec]; [left | right]; by eapply recorded_same_logs.
    + destruct (Hrest (decActive w3).2) as (Hc & Hf & Hd);
        [right; subst w2; by rewrite Hsave|].
      rewrite Hc. destruct Hcase as [Hfc|(Hfc & _ & Hrec)]; [by left|].
      right. split; [exact Hfc|].
      destruct Hrec as [Hrec|Hrec]; [left | right]; by eapply recorded_same_logs.
  - (* the first part threw: only the handler runs *)
    unfold try_catch. rewrite (bind_throw _ _ _ _ _ Hout).
    destruct Hcase as [Hfc|(_ & Hok & _)]; [|discriminate].
    left. by destruct w1 as [f1 v1 s1 e1].
Qed.

(** ** Which outcomes reach the logs *)

(** C4, as it is worded, fails for the errors caught at the call site of
    [processUrl].  A download fails and the append to the failure log
    throws: the exception leaves [processUrl], the handler only gives the
    slot back, no file mentions the item and the batch goes on with the
    next one.  A download fails and the write of the detailed record
    throws: the item is in the simple log and in no other place. *)
Lemma unexpected_error_leaves_no_record :
  let cfg := mkConfig 10 0 1 ∅ ∅ ∅ ["a"; "b"] in
  let io := mkItemIO (Some execError) None in
  (let w := boot cfg noFiles (mkEnv [Some diskError] (fun _ => "2025-05-01T10:00:00.000Z") 0) in
   inflight (sched w) = [(0, "a")]
   ∧ (processUrl cfg "a" io (dropPending 0 w)).1 = Throw diskError
   ∧ ∃ w2 w3 : World,
       step cfg (Settled 0 io) w = Some w2
       ∧ files w2 = noFiles
       ∧ failCount (vars w2) = 0
       ∧ step cfg Timer w2 = Some w3
       ∧ started (sched w3) = [(0, "a"); (1, "b")])
  ∧ (let w := boot cfg noFiles
                (mkEnv [None; Some diskError] (fun _ => "2025-05-01T10:00:00.000Z") 0) in
     (processUrl cfg "a" io (dropPending 0 w)).1 = Throw diskError
     ∧ ∃ w2 w3 : World,
         step cfg (Settled 0 io) w = Some w2
         ∧ "a" ∈ readLog (failureLogFile (files w2))
         ∧ detailedFailureLogFile (files w2) = Absent
         ∧ progressFile (files w2) = None
         ∧ failCount (vars w2) = 0
         ∧ step cfg Timer w2 = Some w3
         ∧ started (sched w3) = [(0, "a"); (1, "b")]).
Proof.
  cbv zeta. split.
  - split; [vm_compute; reflexivity|]. split; [vm_compute; reflexivity|].
    eexists _, _. repeat (split; [vm_compute; reflexivity|]).
    vm_compute. reflexivity.
  - split; [vm_compute; reflexivity|].
    eexists _, _. split; [vm_compute; reflexivity|].
    split; [apply (bool_decide_unpack _); vm_compute; exact I|].
    repeat (split; [vm_compute; reflexivity|]).
    vm_compute. reflexivity.
Qed.

(** C4 (amended): an item that ends as [download_failure] or
    [move_failure] is, when the writes go through, appended to the simple
    failure log and entered in the detailed record under that type, and
    counted, before its slot is given back; whatever the file system
    does, a failure is counted only once the item is recorded in both
    places; an exception that leaves [processUrl] is caught at the call
    site, where nothing is written: the files stay as [processUrl] left
    them and the slot is given back. *)
Theorem logged_failures_are_recorded_twice
    (cfg : Config) (url : string) (io : ItemIO) (error : Error) (ty : string)
    (w : World) (Hq : quiet w)
    (Hio : execResult io = Some error ∧ ty = "download_failure"
           ∨ execResult io = None ∧ renameResult io = Some error ∧ ty = "move_failure") :
  (∃ (w' : World) (m' : gmap string FailureRecord) (r' : FailureRecord),
     settle cfg url io w = (Ok tt, w')
     ∧ failureLogFile (files w')
       = appendText (failureLogFile (files w))
           (logLine (clock (env w) (S (ticks (env w)))) url)
     ∧ detailedFailureLogFile (files w') = Parsed m'
     ∧ m' !! url = Some r'
     ∧ type r' = ty
     ∧ failCount (vars w') = failCount (vars w) + 1
     ∧ activeDownloads (vars w') = activeDownloads (vars w) - 1)
  ∧ (∀ w0 : World,
       failCount (vars (settle cfg url io w0).2) = failCount (vars w0)
       ∨ failCount (vars (settle cfg url io w0).2) = failCount (vars w0) + 1
         ∧ (recorded url "download_failure" (settle cfg url io w0).2
            ∨ recorded url "move_failure" (settle cfg url io w0).2))
  ∧ (∀ (w0 w1 : World) (e : Error),
       processUrl cfg url io w0 = (Throw e, w1) →
       ∃ w2 : World,
         settle cfg url io w0 = (Ok tt, w2)
         ∧ files w2 = files w1
         ∧ failCount (vars w2) = failCount (vars w1)
         ∧ activeDownloads (vars w2) = activeDownloads (vars w1) - 1).
Proof.
  split; [|split].
  - assert (Hf : failureOf io = Some (error, ty)).
    { destruct Hio as [[He ->]|(He & Hr & ->)];
        [by apply failureOf_download | by apply failureOf_move]. }
    rewrite (settle_failure_quiet cfg url io w error ty Hq Hf).
    eexists _, _, _. split; [reflexivity|]. do 2 (split; [reflexivity|]).
    split; [apply lookup_insert_eq|]. split; [reflexivity|].
    split; reflexivity.
  - intros w0. apply settle_counted.
  - intros w0 w1 e Hthrow. unfold settle, try_catch. rewrite Hthrow.
    eexists. split; [reflexivity|]. by destruct w1 as [f v s en].
Qed.

Lemma logged_failures_are_recorded_twice_witness :
  (∃ (w' : World) (m' : gmap string FailureRecord) (r' : FailureRecord),
     settle demoConfig "a" (mkItemIO (Some execError) None)
       (boot demoConfig noFiles calmEnv) = (Ok tt, w')
     ∧ failureLogFile (files w')
       = appendText (failureLogFile (files (boot demoConfig noFiles calmEnv)))
           (logLine (clock (env (boot demoConfig noFiles calmEnv))
                       (S (ticks (env (boot demoConfig noFiles calmEnv))))) "a")
     ∧ detailedFailureLogFile (files w') = Parsed m'
     ∧ m' !! "a" = Some r'
     ∧ type r' = "download_failure"
     ∧ failCount (vars w') = failCount (vars (boot demoConfig noFiles calmEnv)) + 1
     ∧ activeDownloads (vars w')
       = activeDownloads (vars (boot demoConfig noFiles calmEnv)) - 1)
  ∧ (∀ w0 : World,
       failCount (vars (settle demoConfig "a" (mkItemIO (Some execError) None) w0).2)
       = failCount (vars w0)
       ∨ failCount (vars (settle demoConfig "a" (mkItemIO (Some execError) None) w0).2)
         = failCount (vars w0) + 1
         ∧ (recorded "a" "download_failure"
              (settle demoConfig "a" (mkItemIO (Some execError) None) w0).2
            ∨ recorded "a" "move_failure"
                (settle demoConfig "a" (mkItemIO (Some execError) None) w0).2))
  ∧ (∀ (w0 w1 : World) (e : Error),
       processUrl demoConfig "a" (mkItemIO (Some execError) None) w0 = (Throw e, w1) →
       ∃ w2 : World,
         settle demoConfig "a" (mkItemIO (Some execError) None) w0 = (Ok tt, w2)
         ∧ files w2 = files w1
         ∧ failCount (vars w2) = failCount (vars w1)
         ∧ activeDownloads (vars w2) = activeDownloads (vars w1) - 1).
Proof.
  apply (logged_failures_are_recorded_twice demoConfig "a"
           (mkItemIO (Some execError) None) execError "download_failure"
           (boot demoConfig noFiles calmEnv)).
  - vm_compute. reflexivity.
  - left. split; reflexivity.
Defined.

(** ** What a piece of code leaves alone *)

Section Frame.
Context (P : relation World) `{!PreOrder P}.

Lemma keeps_ret {A} (a : A) : keeps P (ret a).
Proof. intros w. reflexivity. Qed.

Lemma keeps_throw {A} (e : Error) : keeps P (@throw A e).
Proof. intros w. reflexivity. Qed.

Lemma keeps_get : keeps P get.
Proof. intros w. reflexivity. Qed.

Lemma keeps_modify (f : World -> World) : (∀ w, P w (f w)) → keeps P (modify f).
Proof. intros Hf w. apply Hf. Qed.

Lemma keeps_bind {A B} (c : M A) (k : A -> M B) :
  keeps P c → (∀ a, keeps P (k a)) → keeps P (bind c k).
Proof.
  intros Hc Hk w. unfold bind. specialize (Hc w).
  destruct (c w) as [[a|e] w1]; simpl in *; [|exact Hc].
  etransitivity; [exact Hc | apply Hk].
Qed.

Lemma keeps_try_catch {A} (body : M A) (handler : Error -> M A) :
  keeps P body → (∀ e, keeps P (handler e)) → keeps P (try_catch body handler).
Proof.
  intros Hb Hh w. unfold try_catch. specialize (Hb w).
  destruct (body w) as [[a|e] w1]; simpl in *; [exact Hb|].
  etransitivity; [exact Hb | apply Hh].
Qed.

Lemma keeps_raise (r : option Error) : keeps P (raise r).
Proof. destruct r; [apply keeps_throw | apply keeps_ret]. Qed.
End Frame.

Ltac frame_step :=
  first
    [ assumption
    | apply keeps_bind; [solve [typeclasses eauto] | | intros ?]
    | apply keeps_try_catch; [solve [typeclasses eauto] | | intros ?]
    | apply keeps_ret; solve [typeclasses eauto]
    | apply keeps_throw; solve [typeclasses eauto]
    | apply keeps_get; solve [typeclasses eauto]
    | apply keeps_raise; solve [typeclasses eauto]
    | match goal with
      | |- keeps _ (match ?x with _ => _ end) => destruct x
      | |- keeps _ (if ?b then _ else _) => destruct b
      end ].

Global Instance same_control_preorder : PreOrder same_control.
Proof.
  split.
  - by intros w.
  - intros w1 w2 w3 (?&?&?) (?&?&?). repeat split; congruence.
Qed.

Global Instance calm_preorder : PreOrder calm.
Proof.
  split.
  - intros w Hq. exact Hq.
  - intros w1 w2 w3 H12 H23 Hq. apply H23, H12, Hq.
Qed.

Section Primitives.
Context (P : relation World) `{!PreOrder P}.
(** [P] does not look at the files, at the counters of outcomes or at
    the clock, and lets the oracle lose its head. *)
Hypothesis P_files : ∀ f w, P w (with_files f w).
Hypothesis P_oracle : ∀ w x rest,
  oracle (env w) = x :: rest →
  P w (with_env (fun e => mkEnv rest (clock e) (ticks e)) w).
Hypothesis P_tick : ∀ w,
  P w (with_env (fun e => mkEnv (oracle e) (clock e) (S (ticks e))) w).
Hypothesis P_success : ∀ w,
  P w (with_vars (fun v =>
         mkVars (successCount v + 1) (failCount v) (current v) (activeDownloads v)) w).
Hypothesis P_fail : ∀ w,
  P w (with_vars (fun v =>
         mkVars (successCount v) (failCount v + 1) (current v) (activeDownloads v)) w).

Lemma keeps_fallible : keeps P fallible.
Proof.
  intros w. unfold fallible. destruct (oracle (env w)) as [|[e|] rest] eqn:Ho; simpl.
  - reflexivity.
  - by eapply P_oracle.
  - by eapply P_oracle.
Qed.

Lemma keeps_getTimestamp : keeps P getTimestamp.
Proof. intros w. apply P_tick. Qed.

Ltac prim_step :=
  first
    [ frame_step
    | apply keeps_modify; intros ?;
      first [apply P_files | apply P_success | apply P_fail] ].

Lemma keeps_logToFile file content : keeps P (logToFile file content).
Proof.
  pose proof keeps_fallible. pose proof keeps_getTimestamp.
  unfold logToFile, appendFileSync. repeat prim_step.
Qed.

Lemma keeps_loadDetailed : keeps P loadDetailed.
Proof.
  pose proof keeps_fallible. unfold loadDetailed.
  apply keeps_bind; [done | by apply keeps_get | intros w].
  destruct (detailedFailureLogFile (files w)); repeat prim_step.
Qed.

Lemma keeps_logFailure url error ty : keeps P (logFailure url error ty).
Proof.
  pose proof keeps_fallible. pose proof keeps_getTimestamp.
  pose proof keeps_loadDetailed. pose proof (keeps_logToFile FailureLog url).
  unfold logFailure, writeDetailed. repeat prim_step.
Qed.

Lemma keeps_saveProgress cfg : keeps P (saveProgress cfg).
Proof.
  pose proof keeps_fallible. pose proof keeps_getTimestamp.
  pose proof keeps_loadDetailed.
  unfold saveProgress, writeProgress. repeat prim_step.
Qed.

Lemma keeps_outcome url io : keeps P (outcome url io).
Proof.
  pose proof (keeps_logToFile SuccessLog url).
  pose proof (fun e ty => keeps_logFailure url e ty) as HlogF.
  unfold outcome, incSuccess, incFail.
  repeat first [ apply HlogF | prim_step ].
Qed.
End Primitives.

Global Instance same_items_preorder : PreOrder same_items.
Proof.
  split.
  - by intros w.
  - intros w1 w2 w3 (?&?&?&?) (?&?&?&?). repeat split; congruence.
Qed.

Lemma same_control_items w w' : same_control w w' → same_items w w'.
Proof. intros (Hs & Hc & Ha). unfold same_items. by rewrite Hs. Qed.

Ltac by_fields :=
  intros; repeat match goal with w : World |- _ => destruct w end;
  simpl in *; first [done | congruence].

Section Instances.
Variables (cfg : Config) (url : string) (io : ItemIO).

Lemma outcome_same_control : keeps same_control (outcome url io).
Proof. apply keeps_outcome; try apply _; by_fields. Qed.

Lemma saveProgress_same_control : keeps same_control (saveProgress cfg).
Proof. apply keeps_saveProgress; try apply _; by_fields. Qed.

Lemma outcome_calm : keeps calm (outcome url io).
Proof.
  apply keeps_outcome; try apply _; unfold calm, quiet; by_fields.
Qed.

Lemma saveProgress_calm : keeps calm (saveProgress cfg).
Proof.
  apply keeps_saveProgress; try apply _; unfold calm, quiet; by_fields.
Qed.

(** A settled call gives its slot back once, or twice when
    [saveProgress] throws after [processUrl] has given it back. *)
Lemma settle_control (w : World) :
  (settle cfg url io w).1 = Ok tt
  ∧ sched (settle cfg url io w).2 = sched w
  ∧ current (vars (settle cfg url io w).2) = current (vars w)
  ∧ (activeDownloads (vars (settle cfg url io w).2) = activeDownloads (vars w) - 1
     ∨ activeDownloads (vars (settle cfg url io w).2) = activeDownloads (vars w) - 2).
Proof.
  unfold settle. rewrite processUrl_outcome. unfold try_catch, bind.
  pose proof (outcome_same_control w) as H1.
  destruct (outcome url io w) as [[[]|e1] w1]; simpl in H1.
  - pose proof (saveProgress_same_control (decActive w1).2) as H2.
    cbn [decActive modify fst snd] in *.
    destruct (saveProgress cfg _) as [[[]|e2] w2];
      destruct H1 as (Hs1 & Hc1 & Ha1), H2 as (Hs2 & Hc2 & Ha2);
      destruct w1 as [f1 v1 s1 n1], w2 as [f2 v2 s2 n2]; simpl in *;
      (split; [reflexivity|]); (split; [congruence|]); (split; [congruence|]); lia.
  - destruct H1 as (Hs1 & Hc1 & Ha1). destruct w1 as [f1 v1 s1 n1]; simpl in *.
    split; [reflexivity|]. split; [congruence|]. split; [congruence|]. lia.
Qed.

(** When no file operation throws, it is once. *)
Lemma settle_quiet (w : World) :
  quiet w →
  quiet (settle cfg url io w).2
  ∧ activeDownloads (vars (settle cfg url io w).2) = activeDownloads (vars w) - 1.
Proof.
  intros Hq. destruct (failureOf io) as [[error ty]|] eqn:Hio.
  - by rewrite (settle_failure_quiet cfg url io w error ty Hq Hio).
  - by rewrite (settle_success_quiet cfg url io w Hq Hio).
Qed.
End Instances.

(** ** The dispatch loop: what a run keeps true *)

Lemma launch_eq cfg w : launch cfg w = (Ok tt, afterLaunch cfg w).
Proof.
  destruct w as [f [sc fc cur act] [infl st ph hint] e].
  unfold launch, afterLaunch, launchedAt. run_step.
  destruct (urlAt cfg cur) as [url|]; [destruct (Text.truthy url)|]; run_step;
    cbn [length]; rewrite ?app_nil_r, ?Z.add_0_r; reflexivity.
Qed.

Lemma length_launchedAt cfg i : (length (launchedAt cfg i) ≤ 1)%nat.
Proof.
  unfold launchedAt. destruct (urlAt cfg i) as [url|]; [destruct (Text.truthy url)|];
    simpl; lia.
Qed.

Lemma sliceFrom_snoc cfg i n :
  sliceFrom cfg i (S n) = (sliceFrom cfg i n ++ launchedAt cfg (i + Z.of_nat n))%list.
Proof.
  revert i. induction n as [|n IH]; intros i.
  - simpl. by rewrite app_nil_r, Z.add_0_r.
  - change (sliceFrom cfg i (S (S n)))
      with (launchedAt cfg i ++ sliceFrom cfg (i + 1) (S n))%list.
    rewrite IH. cbn [sliceFrom]. rewrite <- app_assoc. do 3 f_equal. lia.
Qed.

Lemma Inv_same_items cfg w w' : same_items w w' → Inv cfg w → Inv cfg w'.
Proof.
  intros (Hi & Hs & Hc & Ha) [H1 H2 H3 H4 H5 H6 H7].
  split; rewrite ?Hi, ?Hs, ?Hc, ?Ha; assumption.
Qed.

Lemma QInv_same_items w w' : same_items w w' → calm w w' → QInv w → QInv w'.
Proof.
  intros (Hi & Hs & Hc & Ha) Hcalm [Hq Hn].
  split; [by apply Hcalm | by rewrite Hi, Ha].
Qed.

Lemma Inv_initial cfg f e : Inv cfg (initialWorld cfg f e).
Proof.
  split; simpl; try lia.
  - by rewrite Z.sub_diag.
  - constructor.
Qed.

Lemma QInv_initial cfg f e : oracle e = [] → QInv (initialWorld cfg f e).
Proof. intros He. by split. Qed.

Lemma Inv_launch cfg w :
  canLaunch cfg w = true → Inv cfg w → Inv cfg (afterLaunch cfg w).
Proof.
  unfold canLaunch. intros Hcan [H1 H2 H3 H4 H5 H6 H7].
  apply andb_true_iff in Hcan as [Hact Hcur].
  apply Z.ltb_lt in Hact, Hcur.
  pose proof (length_launchedAt cfg (current (vars w))) as Hlen.
  split; cbn [afterLaunch vars sched current activeDownloads inflight started].
  - lia.
  - lia.
  - replace (Z.to_nat (current (vars w) + 1 - startIndex cfg))
      with (S (Z.to_nat (current (vars w) - startIndex cfg))) by lia.
    rewrite sliceFrom_snoc, <- H3. do 2 f_equal. lia.
  - by apply sublist_app.
  - lia.
  - rewrite length_app. lia.
  - rewrite !length_app. lia.
Qed.

Lemma QInv_launch cfg w : QInv w → QInv (afterLaunch cfg w).
Proof.
  intros [Hq Hn]. split; [exact Hq|].
  cbn [afterLaunch vars sched activeDownloads inflight]. rewrite length_app. lia.
Qed.

Lemma innerLoopFrom_S cfg turns w :
  innerLoopFrom cfg (S turns) w
  = if canLaunch cfg w then innerLoopFrom cfg turns (afterLaunch cfg w) else (Ok tt, w).
Proof.
  cbn [innerLoopFrom]. unfold bind, get.
  destruct (canLaunch cfg w); [by rewrite launch_eq | reflexivity].
Qed.

(** The inner loop keeps both, leaves files, environment, phase and hint
    alone, and stops only when nothing more can be launched. *)
Lemma innerLoopFrom_spec cfg turns w :
  let w' := (innerLoopFrom cfg turns w).2 in
  (innerLoopFrom cfg turns w).1 = Ok tt
  ∧ (Inv cfg w → Inv cfg w')
  ∧ (QInv w → QInv w')
  ∧ files w' = files w ∧ env w' = env w
  ∧ phase (sched w') = phase (sched w)
  ∧ resumeHint (sched w') = resumeHint (sched w)
  ∧ ((Z.to_nat (endIndex cfg - current (vars w)) ≤ turns)%nat → canLaunch cfg w' = false).
Proof.
  revert w. induction turns as [|turns IH]; intros w.
  - cbn [innerLoopFrom ret fst snd]. split; [reflexivity|]. do 2 (split; [done|]).
    do 4 (split; [reflexivity|]).
    intros Hn. unfold canLaunch. apply andb_false_iff. right. apply Z.ltb_ge. lia.
  - rewrite innerLoopFrom_S. destruct (canLaunch cfg w) eqn:Hcan.
    + specialize (IH (afterLaunch cfg w)).
      destruct IH as (Hok & HI & HQ & Hf & He & Hp & Hh & Hexit).
      split; [exact Hok|].
      split; [intros HInv; by apply HI, Inv_launch|].
      split; [intros HQInv; by apply HQ, QInv_launch|].
      split; [by rewrite Hf|]. split; [by rewrite He|].
      split; [by rewrite Hp|]. split; [by rewrite Hh|].
      intros Hn. apply Hexit. cbn [afterLaunch vars current].
      unfold canLaunch in Hcan. apply andb_true_iff in Hcan as [_ Hcur].
      apply Z.ltb_lt in Hcur. lia.
    + cbn [ret fst snd]. split; [reflexivity|]. do 2 (split; [done|]).
      do 4 (split; [reflexivity|]). done.
Qed.

Section Ending.
Context (P : relation World) `{!PreOrder P}.
Hypothesis P_save : ∀ cfg, keeps P (saveProgress cfg).
Hypothesis P_sched : ∀ w p h,
  P w (with_sched (fun s => mkSched (inflight s) (started s) p h) w).

Lemma keeps_set_phase p : keeps P (set_phase p).
Proof.
  apply keeps_modify. intros w. pose proof (P_sched w p (resumeHint (sched w))) as H.
  by destruct w as [f v [i s ph h] e].
Qed.

Lemma keeps_set_hint h : keeps P (set_hint h).
Proof.
  apply keeps_modify. intros w. pose proof (P_sched w (phase (sched w)) (Some h)) as H.
  by destruct w as [f v [i s ph h'] e].
Qed.

Lemma keeps_finish cfg : keeps P (finish cfg).
Proof.
  unfold finish.
  apply keeps_bind; [done | by apply keeps_get | intros w].
  destruct (current (vars w) <? Z.of_nat (length (urls cfg)));
    repeat first [apply keeps_set_phase | apply keeps_set_hint | apply P_save | frame_step].
Qed.

Lemma keeps_drain cfg : keeps P (drain cfg).
Proof.
  unfold drain.
  apply keeps_bind; [done | by apply keeps_get | intros w].
  destruct (0 <? activeDownloads (vars w));
    [apply keeps_set_phase | apply keeps_finish].
Qed.

(** A timer that finds nothing to launch. *)
Lemma keeps_idle_timer cfg (body : M unit) :
  body = drain cfg ∨ body = ret tt →
  keeps P (try_catch body (fun error => set_phase Exited)).
Proof.
  intros [-> | ->];
    (apply keeps_try_catch; [done | | intros e; apply keeps_set_phase]);
    [apply keeps_drain | by apply keeps_ret].
Qed.
End Ending.

Lemma processUrls_cases cfg w :
  (phase (sched w) = Dispatching
   ∧ (current (vars w) <? endIndex cfg) = true
   ∧ (processUrls cfg w).2
     = (innerLoopFrom cfg (Z.to_nat (endIndex cfg - current (vars w))) w).2)
  ∨ (same_items w (processUrls cfg w).2 ∧ calm w (processUrls cfg w).2).
Proof.
  assert (Hidle : ∀ body, body = drain cfg ∨ body = ret tt →
            same_items w (try_catch body (fun error => set_phase Exited) w).2
            ∧ calm w (try_catch body (fun error => set_phase Exited) w).2).
  { intros body Hbody. split.
    - refine (keeps_idle_timer same_items _ _ cfg body Hbody w).
      + intros c w0. apply same_control_items, saveProgress_same_control.
      + by_fields.
    - refine (keeps_idle_timer calm _ _ cfg body Hbody w).
      + apply saveProgress_calm.
      + unfold calm, quiet. by_fields. }
  unfold processUrls. unfold bind at 1, get at 1.
  destruct (phase (sched w)) eqn:Hphase.
  - destruct (current (vars w) <? endIndex cfg) eqn:Hlt.
    + left. split; [reflexivity|]. split; [reflexivity|].
      unfold try_catch, bind, get. rewrite Hphase, Hlt.
      unfold innerLoop, bind, get.
      destruct (innerLoopFrom_spec cfg (Z.to_nat (endIndex cfg - current (vars w))) w)
        as (Hok & _).
      destruct (innerLoopFrom cfg _ w) as [[[]|e] w']; [reflexivity | discriminate].
    + right. pose proof (Hidle (drain cfg) (or_introl eq_refl)) as H.
      unfold try_catch in *. unfold bind, get. by rewrite Hphase, Hlt.
  - right. pose proof (Hidle (drain cfg) (or_introl eq_refl)) as H.
    unfold try_catch in *. unfold bind, get. by rewrite Hphase.
  - right. pose proof (Hidle (ret tt) (or_intror eq_refl)) as H.
    unfold try_catch in *. unfold bind, get. by rewrite Hphase.
  - right. pose proof (Hidle (ret tt) (or_intror eq_refl)) as H.
    unfold try_catch in *. unfold bind, get. by rewrite Hphase.
Qed.

Lemma processUrls_Inv cfg w : Inv cfg w → Inv cfg (processUrls cfg w).2.
Proof.
  intros HInv. destruct (processUrls_cases cfg w) as [(_ & _ & ->)|[Hs _]].
  - by apply innerLoopFrom_spec.
  - by eapply Inv_same_items.
Qed.

Lemma processUrls_QInv cfg w : QInv w → QInv (processUrls cfg w).2.
Proof.
  intros HQ. destruct (processUrls_cases cfg w) as [(_ & _ & ->)|[Hs Hc]].
  - by apply innerLoopFrom_spec.
  - by eapply QInv_same_items.
Qed.

Lemma settle_Inv cfg k i url io w :
  inflight (sched w) !! k = Some (i, url) →
  Inv cfg w → Inv cfg (settle cfg url io (dropPending k w)).2.
Proof.
  intros Hk [H1 H2 H3 H4 H5 H6 H7].
  destruct (settle_control cfg url io (dropPending k w)) as (_ & Hs & Hc & Ha).
  assert (Hlen : length (delete k (inflight (sched w)))
                 = (length (inflight (sched w)) - 1)%nat).
  { apply length_delete. by eexists. }
  apply lookup_lt_Some in Hk.
  split; rewrite ?Hs, ?Hc; cbn [dropPending with_sched vars sched inflight started] in *;
    try assumption.
  - etransitivity; [apply sublist_delete | exact H4].
  - lia.
  - rewrite Hlen. lia.
  - rewrite Hlen. lia.
Qed.

Lemma settle_QInv cfg k i url io w :
  inflight (sched w) !! k = Some (i, url) →
  QInv w → QInv (settle cfg url io (dropPending k w)).2.
Proof.
  intros Hk [Hq Hn].
  destruct (settle_control cfg url io (dropPending k w)) as (_ & Hs & _).
  destruct (settle_quiet cfg url io (dropPending k w)) as [Hq' Ha]; [exact Hq|].
  assert (Hlen : length (delete k (inflight (sched w)))
                 = (length (inflight (sched w)) - 1)%nat).
  { apply length_delete. by eexists. }
  apply lookup_lt_Some in Hk.
  split; [exact Hq'|]. rewrite Ha, Hs.
  cbn [dropPending with_sched vars sched inflight] in *. rewrite Hlen. lia.
Qed.

Lemma step_Inv cfg ev w w' : step cfg ev w = Some w' → Inv cfg w → Inv cfg w'.
Proof.
  unfold step. intros Hstep HInv.
  destruct (phase (sched w)), ev as [|k io]; try discriminate;
    try (injection Hstep as <-; by apply processUrls_Inv);
    destruct (inflight (sched w) !! k) as [[i url]|] eqn:Hk; try discriminate;
    injection Hstep as <-; by eapply settle_Inv.
Qed.

Lemma step_QInv cfg ev w w' : step cfg ev w = Some w' → QInv w → QInv w'.
Proof.
  unfold step. intros Hstep HQ.
  destruct (phase (sched w)), ev as [|k io]; try discriminate;
    try (injection Hstep as <-; by apply processUrls_QInv);
    destruct (inflight (sched w) !! k) as [[i url]|] eqn:Hk; try discriminate;
    injection Hstep as <-; by eapply settle_QInv.
Qed.

Lemma reachable_Inv cfg f e w : reachable cfg f e w → Inv cfg w.
Proof.
  induction 1 as [|w ev w' _ IH Hstep].
  - apply processUrls_Inv, Inv_initial.
  - by eapply step_Inv.
Qed.

Lemma reachable_QInv cfg f e w : oracle e = [] → reachable cfg f e w → QInv w.
Proof.
  intros He. induction 1 as [|w ev w' _ IH Hstep].
  - by apply processUrls_QInv, QInv_initial.
  - by eapply step_QInv.
Qed.

(** ** Start order *)

Lemma launchedAt_spec cfg i p :
  p ∈ launchedAt cfg i → p.1 = i ∧ urlAt cfg i = Some p.2 ∧ Text.truthy p.2 = true.
Proof.
  unfold launchedAt. destruct (urlAt cfg i) as [url|]; [|by intros ?%elem_of_nil].
  destruct (Text.truthy url) eqn:Ht; [|by intros ?%elem_of_nil].
  intros ->%list_elem_of_singleton. by repeat split.
Qed.

Lemma sliceFrom_spec cfg i n p :
  p ∈ sliceFrom cfg i n →
  i ≤ p.1 < i + Z.of_nat n ∧ urlAt cfg p.1 = Some p.2 ∧ Text.truthy p.2 = true.
Proof.
  revert i. induction n as [|n IH]; intros i; cbn [sliceFrom].
  - by intros ?%elem_of_nil.
  - intros [Hp|Hp]%elem_of_app.
    + apply launchedAt_spec in Hp as (-> & Hu & Ht). rewrite Hu. split; [lia | done].
    + apply IH in Hp as (Hb & Hu). split; [lia | done].
Qed.

(** Positions are started in increasing order, each one once. *)
Lemma sliceFrom_sorted cfg i n : StronglySorted Z.lt (sliceFrom cfg i n).*1.
Proof.
  revert i. induction n as [|n IH]; intros i; cbn [sliceFrom]; [constructor|].
  unfold launchedAt. destruct (urlAt cfg i) as [url|]; [destruct (Text.truthy url)|];
    simpl; try apply IH.
  constructor; [apply IH|].
  apply Forall_forall. intros j [p [-> Hp]]%list_elem_of_fmap.
  apply sliceFrom_spec in Hp. lia.
Qed.

(** The started URLs are a part of the queue, in queue order. *)
Lemma sliceFrom_sublist cfg i n :
  sublist (sliceFrom cfg i n).*2 (drop (Z.to_nat i) (urls cfg)).
Proof.
  revert i. induction n as [|n IH]; intros i; cbn [sliceFrom].
  - apply sublist_nil_l.
  - specialize (IH (i + 1)). unfold launchedAt, urlAt.
    destruct (Z.ltb_spec i 0) as [Hneg|Hpos].
    + simpl. by replace (Z.to_nat (i + 1)) with (Z.to_nat i) in IH by lia.
    + replace (Z.to_nat (i + 1)) with (S (Z.to_nat i)) in IH by lia.
      destruct (urls cfg !! Z.to_nat i) as [url|] eqn:Hu.
      * rewrite (drop_S _ _ _ Hu).
        destruct (Text.truthy url); simpl; by constructor.
      * simpl. etransitivity; [exact IH|].
        rewrite <- Nat.add_1_r, <- drop_drop. apply sublist_drop.
Qed.

Lemma sliceFrom_app cfg i n1 n2 :
  sliceFrom cfg i (n1 + n2)
  = (sliceFrom cfg i n1 ++ sliceFrom cfg (i + Z.of_nat n1) n2)%list.
Proof.
  revert i. induction n1 as [|n1 IH]; intros i.
  - simpl. by rewrite Z.add_0_r.
  - cbn [Nat.add sliceFrom]. rewrite IH, <- app_assoc. do 3 f_equal. lia.
Qed.

Lemma runEvents_reachable cfg f e evs w w' :
  reachable cfg f e w → runEvents cfg evs w = Some w' → reachable cfg f e w'.
Proof.
  revert w. induction evs as [|ev evs IH]; intros w Hw; cbn [runEvents].
  - by intros [= <-].
  - destruct (step cfg ev w) as [w1|] eqn:Hstep; [|discriminate].
    apply IH. by eapply reach_step.
Qed.

(** ** Bounded concurrency *)

(** When no file operation throws, the counter is the number of pending
    calls and never passes the limit. *)
Lemma inflight_bounded_when_quiet cfg f e w :
  oracle e = [] → 0 ≤ maxConcurrent cfg → reachable cfg f e w →
  activeDownloads (vars w) = Z.of_nat (length (inflight (sched w)))
  ∧ Z.of_nat (length (inflight (sched w))) ≤ maxConcurrent cfg.
Proof.
  intros He Hmax Hreach.
  destruct (reachable_QInv cfg f e w He Hreach) as [_ Hn].
  pose proof (inv_counter_max _ _ (reachable_Inv cfg f e w Hreach)).
  split; [exact Hn | lia].
Qed.

(** In every run, the pending calls exceed the limit by no more than the
    number of calls that have settled. *)
Lemma inflight_bounded_by_settled cfg f e w :
  0 ≤ maxConcurrent cfg → reachable cfg f e w →
  Z.of_nat (length (inflight (sched w)))
  ≤ maxConcurrent cfg
    + (Z.of_nat (length (started (sched w))) - Z.of_nat (length (inflight (sched w)))).
Proof.
  intros Hmax Hreach. destruct (reachable_Inv cfg f e w Hreach). lia.
Qed.

(** Hence a call beyond the limit is started only after an earlier one
    has settled: with limit 2, once a third call is started, one of the
    started calls is no longer pending. *)
Lemma third_waits_for_a_slot cfg f e w :
  maxConcurrent cfg = 2 → reachable cfg f e w →
  (3 ≤ length (started (sched w)))%nat →
  (length (inflight (sched w)) < length (started (sched w)))%nat.
Proof.
  intros Hmax Hreach H3.
  pose proof (inflight_bounded_by_settled cfg f e w) as Hb.
  rewrite Hmax in Hb. specialize (Hb ltac:(lia) Hreach). lia.
Qed.

(** Calls are started in queue order, each position at most once. *)
Lemma started_in_slice_order cfg f e w :
  reachable cfg f e w →
  started (sched w)
  = sliceFrom cfg (startIndex cfg) (Z.to_nat (current (vars w) - startIndex cfg))
  ∧ StronglySorted Z.lt (started (sched w)).*1
  ∧ sublist (started (sched w)).*2 (urls cfg)
  ∧ sublist (inflight (sched w)) (started (sched w)).
Proof.
  intros Hreach. destruct (reachable_Inv cfg f e w Hreach) as [_ _ Hst Hin _ _ _].
  split; [exact Hst|]. rewrite Hst. split; [apply sliceFrom_sorted|].
  split; [|by rewrite <- Hst].
  etransitivity; [apply sliceFrom_sublist | apply sublist_drop].
Qed.

(** C3: the limit can be passed.  The call site of [processUrl] gives the
    slot back when the promise rejects, but [processUrl] has already
    given it back when the rejection comes from [saveProgress]: with
    limit 1 and queue [[a,b,c]], [a] succeeds, the write of the snapshot
    throws, the counter drops to -1 and the next timer starts [b] and
    [c] together.  So it is not true that in every run the pending calls
    stay within [maxConcurrent]. *)
Theorem rejected_snapshot_releases_slot_twice :
  let cfg := mkConfig 3 0 1 ∅ ∅ ∅ ["a"; "b"; "c"] in
  let e := mkEnv [None; Some diskError] (fun _ => "2025-05-01T10:00:00.000Z") 0 in
  (∃ w1 w2 : World,
     inflight (sched (boot cfg noFiles e)) = [(0, "a")]
     ∧ step cfg (Settled 0 (mkItemIO None None)) (boot cfg noFiles e) = Some w1
     ∧ inflight (sched w1) = []
     ∧ activeDownloads (vars w1) = -1
     ∧ step cfg Timer w1 = Some w2
     ∧ reachable cfg noFiles e w2
     ∧ inflight (sched w2) = [(1, "b"); (2, "c")]
     ∧ maxConcurrent cfg < Z.of_nat (length (inflight (sched w2))))
  ∧ ¬ (∀ (cfg : Config) (f : Files) (e : Env) (w : World),
         0 < maxConcurrent cfg → reachable cfg f e w →
         Z.of_nat (length (inflight (sched w))) ≤ maxConcurrent cfg).
Proof.
  cbv zeta.
  set (cfg := mkConfig 3 0 1 ∅ ∅ ∅ ["a"; "b"; "c"]).
  set (e := mkEnv [None; Some diskError] (fun _ => "2025-05-01T10:00:00.000Z") 0).
  assert (Hrun : ∃ w2, runEvents cfg [Settled 0 (mkItemIO None None); Timer]
                         (boot cfg noFiles e) = Some w2
                       ∧ inflight (sched w2) = [(1, "b"); (2, "c")])
    by (eexists; split; vm_compute; reflexivity).
  destruct Hrun as (w2 & Hrun & Hin).
  assert (Hreach : reachable cfg noFiles e w2)
    by (eapply runEvents_reachable; [apply reach_boot | exact Hrun]).
  split.
  - cbn [runEvents] in Hrun.
    destruct (step cfg (Settled 0 (mkItemIO None None)) (boot cfg noFiles e))
      as [w1|] eqn:Hstep1; [|discriminate].
    destruct (step cfg Timer w1) as [w2'|] eqn:Hstep2; [|discriminate].
    injection Hrun as ->.
    assert (Hw1 : inflight (sched w1) = [] ∧ activeDownloads (vars w1) = -1).
    { vm_compute in Hstep1. injection Hstep1 as <-. by split. }
    destruct Hw1 as [Hin1 Hact1].
    exists w1, w2. split; [vm_compute; reflexivity|]. split; [reflexivity|].
    split; [exact Hin1|]. split; [exact Hact1|]. split; [exact Hstep2|].
    split; [exact Hreach|]. split; [exact Hin|]. by rewrite Hin.
  - intros Hbound. specialize (Hbound cfg noFiles e w2 ltac:(done) Hreach).
    rewrite Hin in Hbound. simpl in Hbound. lia.
Qed.

(** ** Attempts per item *)

Lemma extract_processUrl_spec url retryCount st :
  (retryCount ≤ Extract.MAX_RETRIES)%nat →
  ∃ n : nat,
    (1 ≤ n ≤ S Extract.MAX_RETRIES - retryCount)%nat
    ∧ Extract.visits (Extract.processUrl url retryCount st)
      = (Extract.visits st ++ replicate n url)%list
    ∧ ((∀ k, Extract.web st k = None) →
       n = (S Extract.MAX_RETRIES - retryCount)%nat
       ∧ Extract.failureLogFile (Extract.processUrl url retryCount st)
         = appendText (Extract.failureLogFile st)
             (logLine (Extract.clock st (Extract.ticks st)) url)
       ∧ Extract.successLogFile (Extract.processUrl url retryCount st)
         = Extract.successLogFile st).
Proof.
  funelim (Extract.processUrl url retryCount st); intros Hle; clear Heqcall.
  - (* the attempt succeeds *)
    exists 1%nat. cbn. split; [lia|]. split; [reflexivity|].
    intros Hnone. rewrite Hnone in *. discriminate.
  - (* the attempt fails and a retry is left *)
    match goal with IH : _ → ∃ _, _ |- _ => destruct IH as (n & Hn & Hv & Hfail); [lia|] end.
    exists (S n). split; [lia|]. split.
    + rewrite Hv. cbn. by rewrite <- app_assoc.
    + intros Hnone. destruct (Hfail Hnone) as (-> & Hf & Hs).
      split; [lia|]. by rewrite Hf, Hs.
  - (* the attempt fails and the retries are used up *)
    exists 1%nat. cbn. split; [lia|]. split; [reflexivity|].
    intros _. split; [lia | done].
Qed.

(** C5, as it is worded, fails.  The validator retries: a product page
    that keeps failing is visited four times in one call of its
    [processUrl].  The downloader starts a URL that the candidate file
    lists twice at both positions.  And a URL whose download failed is
    not eligible in the next invocation: the failure log keeps it out of
    the queue. *)
Lemma items_are_attempted_more_than_once :
  Extract.visits (Extract.processUrl "u" 0 (blankState (fun _ => None)))
  = ["u"; "u"; "u"; "u"]
  ∧ (∃ cfg : Config,
       configure 10 0 3 (Some (unlines ["A"; "A"])) None noFiles = Some cfg
       ∧ started (sched (boot cfg noFiles calmEnv)) = [(0, "A"); (1, "A")])
  ∧ (∃ (cfg cfg' : Config) (w : World),
       configure 10 0 3 (Some (unlines ["A"])) None noFiles = Some cfg
       ∧ urls cfg = ["A"]
       ∧ step cfg (Settled 0 (mkItemIO (Some execError) None)) (boot cfg noFiles calmEnv)
         = Some w
       ∧ configure 10 0 3 (Some (unlines ["A"])) None (files w) = Some cfg'
       ∧ urls cfg' = []).
Proof.
  split; [vm_compute; reflexivity|]. split.
  - eexists. split; vm_compute; reflexivity.
  - eexists _, _, _. repeat (split; [vm_compute; reflexivity|]).
    vm_compute. reflexivity.
Qed.

(** C5 (amended): in a run of the downloader every position of the work
    queue is started at most once, in queue order, and an item that has
    settled, failed or not, is not started again, so that a URL the queue
    holds once is attempted at most once; a URL of the failure log is
    left out of the queue of every later run; the validator, instead,
    retries a failing URL within the run: between one and
    [MAX_RETRIES + 1] = 4 visits for one item, all four if every visit
    fails, and only then the failure is logged. *)
Theorem attempts_per_item
    (cfg : Config) (f : Files) (e : Env) (w : World)
    (Hreach : reachable cfg f e w) :
  StronglySorted Z.lt (started (sched w)).*1
  ∧ sublist (started (sched w)).*2 (urls cfg)
  ∧ (NoDup (urls cfg) → NoDup (started (sched w)).*2)
  ∧ (∀ (k : nat) (io : ItemIO) (w' : World),
       step cfg (Settled k io) w = Some w' → started (sched w') = started (sched w))
  ∧ (∀ (bs si mc : Z) (input extract : option string) (f' : Files) (cfg' : Config)
       (u : string),
       configure bs si mc input extract f' = Some cfg' →
       u ∈ readLog (failureLogFile f') → u ∉ urls cfg')
  ∧ (∀ (url : string) (st : Extract.State),
       ∃ n : nat,
         (1 ≤ n ≤ 4)%nat
         ∧ Extract.visits (Extract.processUrl url 0 st)
           = (Extract.visits st ++ replicate n url)%list
         ∧ ((∀ k, Extract.web st k = None) →
            n = 4%nat
            ∧ Extract.failureLogFile (Extract.processUrl url 0 st)
              = appendText (Extract.failureLogFile st)
                  (logLine (Extract.clock st (Extract.ticks st)) url))).
Proof.
  destruct (started_in_slice_order cfg f e w Hreach) as (_ & Hsorted & Hsub & _).
  split; [exact Hsorted|]. split; [exact Hsub|].
  split; [intros Hnd; by eapply sublist_NoDup|].
  split; [|split].
  - intros k io w' Hstep. unfold step in Hstep.
    destruct (phase (sched w)); try discriminate;
      destruct (inflight (sched w) !! k) as [[i url]|]; try discriminate;
      injection Hstep as <-;
      destruct (settle_control cfg url io (dropPending k w)) as (_ & -> & _);
      reflexivity.
  - intros bs si mc input extract f' cfg' u Hcfg Hu Hin.
    destruct (configure_spec _ _ _ _ _ _ _ Hcfg) as (text & _ & _ & _ & _ & Hurls).
    rewrite Hurls in Hin.
    apply elem_of_workQueue in Hin as (_ & Hnot & _). by apply Hnot.
  - intros url st.
    destruct (extract_processUrl_spec url 0 st) as (n & Hn & Hv & Hfail);
      [unfold Extract.MAX_RETRIES; lia|].
    exists n. unfold Extract.MAX_RETRIES in *. split; [lia|]. split; [exact Hv|].
    intros Hnone. destruct (Hfail Hnone) as (-> & Hf & _). by split.
Qed.

Lemma attempts_per_item_witness :
  StronglySorted Z.lt (started (sched (boot demoConfig noFiles calmEnv))).*1
  ∧ sublist (started (sched (boot demoConfig noFiles calmEnv))).*2 (urls demoConfig)
  ∧ (NoDup (urls demoConfig) →
     NoDup (started (sched (boot demoConfig noFiles calmEnv))).*2)
  ∧ (∀ (k : nat) (io : ItemIO) (w' : World),
       step demoConfig (Settled k io) (boot demoConfig noFiles calmEnv) = Some w' →
       started (sched w') = started (sched (boot demoConfig noFiles calmEnv)))
  ∧ (∀ (bs si mc : Z) (input extract : option string) (f' : Files) (cfg' : Config)
       (u : string),
       configure bs si mc input extract f' = Some cfg' →
       u ∈ readLog (failureLogFile f') → u ∉ urls cfg')
  ∧ (∀ (url : string) (st : Extract.State),
       ∃ n : nat,
         (1 ≤ n ≤ 4)%nat
         ∧ Extract.visits (Extract.processUrl url 0 st)
           = (Extract.visits st ++ replicate n url)%list
         ∧ ((∀ k, Extract.web st k = None) →
            n = 4%nat
            ∧ Extract.failureLogFile (Extract.processUrl url 0 st)
              = appendText (Extract.failureLogFile st)
                  (logLine (Extract.clock st (Extract.ticks st)) url))).
Proof.
  apply (attempts_per_item demoConfig noFiles calmEnv (boot demoConfig noFiles calmEnv)).
  apply reach_boot.
Defined.

(** ** Resuming *)

(** On one and the same queue, two slices that follow each other make up
    the slice of their joint length. *)
Lemma slices_are_contiguous cfg s n1 n2 :
  (sliceFrom cfg s n1 ++ sliceFrom cfg (s + Z.of_nat n1) n2)%list
  = sliceFrom cfg s (n1 + n2).
Proof. symmetry. apply sliceFrom_app. Qed.

(** C9: resuming at the printed index skips items.  Four candidates, all
    validated, batches of two: the first run downloads [A] and [B] and
    prints the arguments [2 2 3]; the second run, started with them,
    rebuilds its queue from the logs -- [[C, D]], since [A] and [B] are
    now in both success logs -- and index 2 is past its end: nothing is
    started, [C] and [D] are never downloaded and no further command is
    printed.  A single run over the four starts all of them.  So it is
    not true that a run and its resumption always start, between them,
    the next slices of the first run's queue. *)
Theorem resume_index_skips_the_rest :
  (∃ (cfg1 cfg2 cfgAll : Config) (w1 wAll : World),
     configure 2 0 3 fourCandidates fourValidated noFiles = Some cfg1
     ∧ urls cfg1 = ["A"; "B"; "C"; "D"]
     ∧ runEvents cfg1 [Settled 0 itemOk; Settled 0 itemOk; Timer]
         (boot cfg1 noFiles calmEnv) = Some w1
     ∧ phase (sched w1) = Finished
     ∧ started (sched w1) = [(0, "A"); (1, "B")]
     ∧ inflight (sched w1) = []
     ∧ resumeHint (sched w1) = Some (2, 2, 3)
     ∧ configure 2 2 3 fourCandidates fourValidated (files w1) = Some cfg2
     ∧ urls cfg2 = ["C"; "D"]
     ∧ phase (sched (boot cfg2 (files w1) calmEnv)) = Finished
     ∧ started (sched (boot cfg2 (files w1) calmEnv)) = []
     ∧ resumeHint (sched (boot cfg2 (files w1) calmEnv)) = None
     ∧ configure 4 0 3 fourCandidates fourValidated noFiles = Some cfgAll
     ∧ runEvents cfgAll [Settled 0 itemOk; Timer] (boot cfgAll noFiles calmEnv) = Some wAll
     ∧ started (sched wAll) = [(0, "A"); (1, "B"); (2, "C"); (3, "D")])
  ∧ ¬ (∀ (input extract : option string) (f : Files) (e1 e2 : Env)
         (bs si mc next : Z) (cfg1 cfg2 : Config) (w1 w2 : World),
         configure bs si mc input extract f = Some cfg1 →
         reachable cfg1 f e1 w1 → phase (sched w1) = Finished →
         resumeHint (sched w1) = Some (bs, next, mc) →
         configure bs next mc input extract (files w1) = Some cfg2 →
         reachable cfg2 (files w1) e2 w2 → phase (sched w2) = Finished →
         ((started (sched w1)).*2 ++ (started (sched w2)).*2)%list
         = take (Z.to_nat (next + bs - si)) (drop (Z.to_nat si) (urls cfg1))).
Proof.
  assert (Hruns : ∃ (cfg1 cfg2 : Config) (w1 : World),
     configure 2 0 3 fourCandidates fourValidated noFiles = Some cfg1
     ∧ urls cfg1 = ["A"; "B"; "C"; "D"]
     ∧ runEvents cfg1 [Settled 0 itemOk; Settled 0 itemOk; Timer]
         (boot cfg1 noFiles calmEnv) = Some w1
     ∧ phase (sched w1) = Finished
     ∧ started (sched w1) = [(0, "A"); (1, "B")]
     ∧ inflight (sched w1) = []
     ∧ resumeHint (sched w1) = Some (2, 2, 3)
     ∧ configure 2 2 3 fourCandidates fourValidated (files w1) = Some cfg2
     ∧ urls cfg2 = ["C"; "D"]
     ∧ phase (sched (boot cfg2 (files w1) calmEnv)) = Finished
     ∧ started (sched (boot cfg2 (files w1) calmEnv)) = []
     ∧ resumeHint (sched (boot cfg2 (files w1) calmEnv)) = None).
  { eexists _, _, _. repeat (split; [vm_compute; reflexivity|]).
    vm_compute. reflexivity. }
  destruct Hruns as (cfg1 & cfg2 & w1 & H1 & Hq1 & Hrun1 & Hph1 & Hst1 & Hin1 & Hhint
                     & H2 & Hq2 & Hph2 & Hst2 & Hhint2).
  split.
  - exists cfg1, cfg2. eexists _, w1, _.
    do 12 (split; [eassumption|]).
    repeat (split; [vm_compute; reflexivity|]). vm_compute. reflexivity.
  - intros Hclaim.
    specialize (Hclaim fourCandidates fourValidated noFiles calmEnv calmEnv
                  2 0 3 2 cfg1 cfg2 w1 (boot cfg2 (files w1) calmEnv) H1).
    assert (Hreach1 : reachable cfg1 noFiles calmEnv w1)
      by (eapply runEvents_reachable; [apply reach_boot | exact Hrun1]).
    specialize (Hclaim Hreach1 Hph1 Hhint H2 (reach_boot _ _ _) Hph2).
    rewrite Hst1, Hst2, Hq1 in Hclaim. discriminate Hclaim.
Qed.

(** ** From a log line back to the set *)

Lemma append_assoc (a b c : string) : (a ++ b) ++ c = a ++ (b ++ c).
Proof.
  induction a as [|x a IH]; [reflexivity|].
  by rewrite !append_cons, IH.
Qed.

Lemma lacks_append c a b : lacks c (a ++ b) = lacks c a && lacks c b.
Proof.
  induction a as [|x a IH]; [reflexivity|].
  rewrite append_cons. unfold lacks in *. simpl. by rewrite IH, andb_assoc.
Qed.

Lemma split_nonempty sep s : Text.split sep s ≠ [].
Proof.
  destruct s as [|c s]; simpl; [discriminate|].
  destruct (Ascii.eqb c sep); [discriminate|].
  destruct (Text.split sep s); discriminate.
Qed.

Lemma split_lacks sep s : lacks sep s = true → Text.split sep s = [s].
Proof.
  induction s as [|c s IH]; [reflexivity|].
  unfold lacks. simpl. intros [Hc Hs]%andb_prop.
  apply negb_true_iff in Hc. rewrite Hc. by rewrite (IH Hs).
Qed.

Lemma split_at_sep sep s1 s2 :
  Text.split sep (s1 ++ String sep s2) = (Text.split sep s1 ++ Text.split sep s2)%list.
Proof.
  induction s1 as [|c s1 IH].
  - change ("" ++ String sep s2) with (String sep s2). simpl.
    by rewrite Ascii.eqb_refl.
  - rewrite append_cons. simpl. rewrite IH.
    destruct (Ascii.eqb c sep); [reflexivity|].
    pose proof (split_nonempty sep s1) as Hne.
    destruct (Text.split sep s1); [done | reflexivity].
Qed.

(** Text appended to a file that ends at a line boundary starts new
    pieces. *)
Lemma split_after_boundary sep t u pre :
  Text.split sep t = (pre ++ [""])%list →
  Text.split sep (t ++ u) = (pre ++ Text.split sep u)%list.
Proof.
  revert pre. induction t as [|c t IH]; intros pre Hpre.
  - simpl in Hpre. destruct pre as [|p [|q pre]]; try discriminate. reflexivity.
  - rewrite append_cons. simpl in *. destruct (Ascii.eqb c sep).
    + destruct pre as [|p pre].
      { injection Hpre as Hnil. by destruct (split_nonempty sep t). }
      injection Hpre as <- Hpre. by rewrite (IH pre Hpre).
    + destruct (Text.split sep t) as [|p r] eqn:Hsplit;
        [by destruct (split_nonempty sep t)|].
      destruct pre as [|p' pre]; [discriminate|].
      injection Hpre as <- Hr.
      rewrite (IH (p :: pre)); [reflexivity | by rewrite Hr].
Qed.

Lemma logEntry_of_line ts url :
  lacks bar ts = true → lacks bar url = true →
  logEntry (ts ++ " | " ++ url) = Text.trim url.
Proof.
  intros Hts Hurl. unfold logEntry.
  change (ts ++ " | " ++ url) with (ts ++ String " " (String bar (String " " url))).
  replace (ts ++ String " " (String bar (String " " url)))
    with ((ts ++ " ") ++ String bar (String " " url))
    by (by rewrite append_assoc).
  rewrite split_at_sep.
  rewrite (split_lacks bar (ts ++ " ")) by (by rewrite lacks_append, Hts).
  rewrite (split_lacks bar (String " " url)) by (unfold lacks in *; simpl; exact Hurl).
  reflexivity.
Qed.

Lemma logLine_body ts url : logLine ts url = (ts ++ " | " ++ url) ++ String newline "".
Proof. unfold logLine. by rewrite !append_assoc. Qed.

(** Reading a log back after one more line has been appended: the new
    entry joins the set, and the file again ends with a line break. *)
Lemma readLog_appended (old : option string) (ts url : string) :
  endsWithNewline old → cleanStamp ts → cleanEntry url →
  readLog (appendText old (logLine ts url)) = {[url]} ∪ readLog old
  ∧ endsWithNewline (appendText old (logLine ts url)).
Proof.
  intros [pre Hpre] [Hts1 Hts2] (Hu1 & Hu2 & Hu3 & Hu4).
  assert (Hbody : lacks newline (ts ++ " | " ++ url) = true).
  { rewrite !lacks_append, Hts2, Hu2. reflexivity. }
  assert (Hnew : Text.split newline (default "" old ++ logLine ts url)
                 = (pre ++ [(ts ++ " | " ++ url)%string; ""])%list).
  { rewrite (split_after_boundary _ _ _ pre Hpre), logLine_body, split_at_sep.
    by rewrite (split_lacks _ _ Hbody). }
  assert (Hold : readLog old
                 = list_to_set (List.filter Text.truthy (List.map logEntry pre))).
  { destruct old as [t|]; simpl in Hpre |- *.
    - rewrite Hpre, List.map_app, List.filter_app, list_to_set_app_L. simpl.
      by rewrite union_empty_r_L.
    - destruct pre as [|p [|q pre]]; try discriminate. reflexivity. }
  assert (Htext : appendText old (logLine ts url) = Some (default "" old ++ logLine ts url))
    by (by destruct old).
  rewrite Htext. split.
  - unfold readLog at 1. rewrite Hnew, Hold, List.map_app, List.filter_app, list_to_set_app_L.
    cbn [List.map]. rewrite (logEntry_of_line ts url Hts1 Hu1), Hu3.
    replace (List.filter Text.truthy [url; logEntry ""]) with [url]
      by (destruct url; [done | reflexivity]).
    change (list_to_set [url] : gset string) with ({[url]} ∪ ∅ : gset string).
    rewrite union_empty_r_L. apply union_comm_L.
  - exists (pre ++ [(ts ++ " | " ++ url)%string])%list. simpl. rewrite Hnew.
    by rewrite <- app_assoc.
Qed.

(** ** From one run to the next *)

(** An item the run has logged as failed is in the failure set the next
    run reads, and so in no later queue. *)
Lemma failed_item_is_left_out cfg url io error ty w :
  quiet w → failureOf io = Some (error, ty) →
  endsWithNewline (failureLogFile (files w)) →
  cleanStamp (clock (env w) (S (ticks (env w)))) → cleanEntry url →
  ∀ bs si mc input extract cfg',
    configure bs si mc input extract (files (settle cfg url io w).2) = Some cfg' →
    url ∈ failureSet cfg' ∧ url ∉ urls cfg'.
Proof.
  intros Hq Hio Hend Hts Hurl bs si mc input extract cfg' Hcfg.
  destruct (configure_spec _ _ _ _ _ _ _ Hcfg) as (text & _ & _ & _ & Hfl & Hurls).
  rewrite (settle_failure_quiet cfg url io w error ty Hq Hio) in Hfl, Hurls.
  cbn [snd files successLogFile failureLogFile] in Hfl, Hurls.
  destruct (readLog_appended _ _ _ Hend Hts Hurl) as [Hread _].
  rewrite Hread in Hfl, Hurls.
  assert (Hin : url ∈ ({[url]} ∪ readLog (failureLogFile (files w)) : gset string))
    by (apply elem_of_union_l; by apply elem_of_singleton).
  rewrite Hfl, Hurls. split; [exact Hin|].
  intros (_ & Hnot & _)%elem_of_workQueue. by apply Hnot.
Qed.

(** An item the run has logged as downloaded is in the success set the
    next run reads; it leaves the queue if the validator's log has it
    too, and stays otherwise. *)
Lemma downloaded_item_next_run cfg url io w :
  quiet w → failureOf io = None →
  endsWithNewline (successLogFile (files w)) →
  cleanStamp (clock (env w) (ticks (env w))) → cleanEntry url →
  ∀ bs si mc input extract cfg',
    configure bs si mc input extract (files (settle cfg url io w).2) = Some cfg' →
    url ∈ dezoomifySuccessSet cfg'
    ∧ (url ∈ readLog extract → url ∉ urls cfg')
    ∧ (∀ text, input = Some text → url ∈ readUrls text →
         url ∉ readLog extract → url ∉ readLog (failureLogFile (files w)) →
         url ∈ urls cfg').
Proof.
  intros Hq Hio Hend Hts Hurl bs si mc input extract cfg' Hcfg.
  destruct (configure_spec _ _ _ _ _ _ _ Hcfg) as (text & -> & Hdz & _ & _ & Hurls).
  rewrite (settle_success_quiet cfg url io w Hq Hio) in Hdz, Hurls.
  cbn [snd files successLogFile failureLogFile] in Hdz, Hurls.
  destruct (readLog_appended _ _ _ Hend Hts Hurl) as [Hread _].
  rewrite Hread in Hdz, Hurls.
  assert (Hin : url ∈ ({[url]} ∪ readLog (successLogFile (files w)) : gset string))
    by (apply elem_of_union_l; by apply elem_of_singleton).
  rewrite Hdz, Hurls. split; [exact Hin|]. split.
  - intros Hex. by apply both_success_sets_skip.
  - intros text' [= <-] Hcand Hex Hfl. apply elem_of_workQueue.
    split; [exact Hcand|]. split; [exact Hfl|].
    rewrite elem_of_intersection. tauto.
Qed.

(** ** The end of a run *)

Lemma idle_timer_cases cfg w :
  let w' := (try_catch (drain cfg) (fun error => set_phase Exited) w).2 in
  current (vars w') = current (vars w)
  ∧ activeDownloads (vars w') = activeDownloads (vars w)
  ∧ (phase (sched w') = Draining ∧ resumeHint (sched w') = resumeHint (sched w)
     ∨ phase (sched w') = Finished
       ∧ activeDownloads (vars w) ≤ 0
       ∧ resumeHint (sched w')
         = (if current (vars w) <? Z.of_nat (length (urls cfg))
            then Some (batchSize cfg, current (vars w), maxConcurrent cfg)
            else resumeHint (sched w))
     ∨ phase (sched w') = Exited).
Proof.
  unfold try_catch, drain, finish, bind, get.
  destruct (Z.ltb_spec 0 (activeDownloads (vars w))) as [Hact|Hact].
  - destruct w as [f v [i s p h] e]. cbn. split; [reflexivity|]. split; [reflexivity|].
    by left.
  - set (w1 := ((if current (vars w) <? Z.of_nat (length (urls cfg))
                 then set_hint (batchSize cfg, current (vars w), maxConcurrent cfg)
                 else ret ()) w)).
    assert (Hw1 : w1.1 = Ok tt ∧ vars w1.2 = vars w
                  ∧ resumeHint (sched w1.2)
                    = (if current (vars w) <? Z.of_nat (length (urls cfg))
                       then Some (batchSize cfg, current (vars w), maxConcurrent cfg)
                       else resumeHint (sched w))).
    { subst w1. destruct (current (vars w) <? Z.of_nat (length (urls cfg)));
        destruct w as [f v [i s p h] e]; by cbn. }
    destruct Hw1 as (Hok & Hv1 & Hh1). destruct w1 as [r1 w1]. simpl in Hok, Hv1, Hh1.
    subst r1.
    pose proof (saveProgress_same_control cfg w1) as (Hs2 & Hc2 & Ha2).
    destruct (saveProgress cfg w1) as [[[]|e2] w2]; simpl in Hs2, Hc2, Ha2.
    + destruct w2 as [f2 v2 [i2 s2 p2 h2] e2]. cbn in *.
      rewrite Hc2, Ha2, Hv1. split; [reflexivity|]. split; [reflexivity|].
      right; left. split; [reflexivity|]. split; [lia|]. by rewrite <- Hs2 in Hh1.
    + destruct w2 as [f2 v2 [i2 s2 p2 h2] e2']. cbn in *.
      rewrite Hc2, Ha2, Hv1. split; [reflexivity|]. split; [reflexivity|].
      by right; right.
Qed.

(** [processUrls] from a timer, by cases on where it stands. *)
Lemma processUrls_eq cfg w :
  (processUrls cfg w).2
  = match phase (sched w) with
    | Dispatching =>
        if current (vars w) <? endIndex cfg
        then (innerLoopFrom cfg (Z.to_nat (endIndex cfg - current (vars w))) w).2
        else (try_catch (drain cfg) (fun error => set_phase Exited) w).2
    | Draining => (try_catch (drain cfg) (fun error => set_phase Exited) w).2
    | Finished | Exited => w
    end.
Proof.
  unfold processUrls. unfold try_catch at 1, bind at 1, get at 1.
  destruct (phase (sched w)); try reflexivity.
  destruct (current (vars w) <? endIndex cfg); [|reflexivity].
  unfold innerLoop, bind, get.
  destruct (innerLoopFrom_spec cfg (Z.to_nat (endIndex cfg - current (vars w))) w)
    as (Hok & _).
  destruct (innerLoopFrom cfg _ w) as [[[]|e] w']; [reflexivity | discriminate].
Qed.

Lemma processUrls_PhaseInv cfg w : PhaseInv cfg w → PhaseInv cfg (processUrls cfg w).2.
Proof.
  intros [Hd Hdr Hf].
  assert (Hidle : (phase (sched w) = Dispatching → endIndex cfg ≤ current (vars w)) →
                  phase (sched w) = Dispatching ∨ phase (sched w) = Draining →
                  PhaseInv cfg (try_catch (drain cfg) (fun error => set_phase Exited) w).2).
  { intros Hend Hph.
    assert (Hnone : resumeHint (sched w) = None)
      by (destruct Hph as [Hph|Hph]; [by apply Hd | by apply Hdr]).
    assert (Hcur : endIndex cfg ≤ current (vars w))
      by (destruct Hph as [Hph|Hph]; [by apply Hend | by apply Hdr]).
    destruct (idle_timer_cases cfg w) as (Hc & Ha & Hcases).
    split; rewrite ?Hc, ?Ha; intros Hp;
      destruct Hcases as [[Hp' Hh]|[(Hp' & Hact & Hh)|Hp']]; try congruence.
    - split; [congruence | exact Hcur].
    - split; [exact Hcur|]. split; [exact Hact|]. rewrite Hh. unfold hintOf.
      by destruct (current (vars w) <? Z.of_nat (length (urls cfg))). }
  rewrite processUrls_eq. destruct (phase (sched w)) eqn:Hphase.
  - destruct (Z.ltb_spec (current (vars w)) (endIndex cfg)) as [Hlt|Hge].
    + destruct (innerLoopFrom_spec cfg (Z.to_nat (endIndex cfg - current (vars w))) w)
        as (_ & _ & _ & _ & _ & Hp & Hh & _).
      split; rewrite Hp, Hh, Hphase; try discriminate. intros _. by apply Hd.
    + apply Hidle; [intros _; exact Hge | by left].
  - apply Hidle; [discriminate | by right].
  - split; intros Hp; first [by apply Hf | congruence].
  - split; intros Hp; congruence.
Qed.

Lemma settle_PhaseInv cfg url io k w :
  PhaseInv cfg w → PhaseInv cfg (settle cfg url io (dropPending k w)).2.
Proof.
  intros [Hd Hdr Hf].
  destruct (settle_control cfg url io (dropPending k w)) as (_ & Hs & Hc & Ha).
  assert (Hp : phase (sched (settle cfg url io (dropPending k w)).2) = phase (sched w))
    by (rewrite Hs; by destruct w as [f v [i s p h] e]).
  assert (Hh : resumeHint (sched (settle cfg url io (dropPending k w)).2)
               = resumeHint (sched w))
    by (rewrite Hs; by destruct w as [f v [i s p h] e]).
  assert (Hcur : current (vars (settle cfg url io (dropPending k w)).2) = current (vars w))
    by (rewrite Hc; by destruct w as [f v [i s p h] e]).
  assert (Hact : activeDownloads (vars (settle cfg url io (dropPending k w)).2)
                 ≤ activeDownloads (vars w)).
  { replace (activeDownloads (vars w)) with (activeDownloads (vars (dropPending k w)))
      by (by destruct w as [f v [i s p h] e]). lia. }
  split; rewrite Hp, Hh, ?Hcur; intros Hph.
  - by apply Hd.
  - by apply Hdr.
  - destruct (Hf Hph) as (H1 & H2 & H3). split; [exact H1|]. split; [lia | exact H3].
Qed.

Lemma reachable_PhaseInv cfg f e w : reachable cfg f e w → PhaseInv cfg w.
Proof.
  induction 1 as [|w ev w' _ IH Hstep].
  - apply processUrls_PhaseInv. by split.
  - unfold step in Hstep.
    destruct (phase (sched w)) eqn:Hphase, ev as [|k io]; try discriminate;
      try (injection Hstep as <-; by apply processUrls_PhaseInv);
      destruct (inflight (sched w) !! k) as [[i url]|]; try discriminate;
      injection Hstep as <-; by apply settle_PhaseInv.
Qed.

(** A run that has ended has started the whole slice, in order; it has
    printed a command exactly if the queue goes on past the slice, and
    the index in it is the end of the slice.  When no file operation
    threw, nothing is pending any more. *)
Lemma finished_run cfg f e w :
  reachable cfg f e w → phase (sched w) = Finished →
  startIndex cfg ≤ endIndex cfg →
  current (vars w) = endIndex cfg
  ∧ started (sched w)
    = sliceFrom cfg (startIndex cfg) (Z.to_nat (endIndex cfg - startIndex cfg))
  ∧ resumeHint (sched w) = hintOf cfg (endIndex cfg)
  ∧ (oracle e = [] → inflight (sched w) = []).
Proof.
  intros Hreach Hph Hslice.
  destruct (pi_finished _ _ (reachable_PhaseInv cfg f e w Hreach) Hph) as (Hge & Hact & Hh).
  destruct (reachable_Inv cfg f e w Hreach) as [_ Hhi Hst _ _ _ _].
  assert (Hcur : current (vars w) = endIndex cfg) by lia.
  rewrite Hcur in *. split; [reflexivity|]. split; [exact Hst|]. split; [exact Hh|].
  intros He. destruct (reachable_QInv cfg f e w He Hreach) as [_ Hn].
  apply length_zero_iff_nil. lia.
Qed.

(** * Further properties of the code *)

(** ** Trimming *)

Lemma trim_start_idem s : Text.trim_start (Text.trim_start s) = Text.trim_start s.
Proof.
  induction s as [|c s IH]; [reflexivity|]. cbn [Text.trim_start].
  destruct (Text.is_space c) eqn:Hc; [exact IH|]. cbn [Text.trim_start]. by rewrite Hc.
Qed.

Lemma trim_end_idem s : Text.trim_end (Text.trim_end s) = Text.trim_end s.
Proof.
  induction s as [|c s IH]; [reflexivity|]. cbn [Text.trim_end].
  destruct (Text.trim_end s) as [|d t] eqn:Ht.
  - destruct (Text.is_space c) eqn:Hc; [reflexivity|]. cbn [Text.trim_end]. by rewrite Hc.
  - cbn [Text.trim_end] in *. by rewrite IH.
Qed.

(** A trimmed start is empty or begins with a character that is not
    white space. *)
Lemma trim_start_head s :
  Text.trim_start s = ""
  ∨ ∃ c r, Text.trim_start s = String c r ∧ Text.is_space c = false.
Proof.
  induction s as [|c s IH]; [by left|]. cbn [Text.trim_start].
  destruct (Text.is_space c) eqn:Hc; [exact IH|]. right. by exists c, s.
Qed.

Lemma trim_end_head c r :
  Text.is_space c = false → ∃ r', Text.trim_end (String c r) = String c r'.
Proof.
  intros Hc. cbn [Text.trim_end]. destruct (Text.trim_end r) as [|d t].
  - rewrite Hc. by exists "".
  - by exists (String d t).
Qed.

Lemma trim_start_fixed c r :
  Text.is_space c = false → Text.trim_start (String c r) = String c r.
Proof. intros Hc. cbn [Text.trim_start]. by rewrite Hc. Qed.

Lemma trim_idem s : Text.trim (Text.trim s) = Text.trim s.
Proof.
  unfold Text.trim. destruct (trim_start_head s) as [->|(c & r & -> & Hc)]; [reflexivity|].
  destruct (trim_end_head c r Hc) as [r' Hr]. rewrite Hr, (trim_start_fixed _ _ Hc), <- Hr.
  apply trim_end_idem.
Qed.

Lemma lacks_trim_start c s : lacks c s = true → lacks c (Text.trim_start s) = true.
Proof.
  induction s as [|a s IH]; [done|]. intros H. cbn [Text.trim_start].
  destruct (Text.is_space a); [|exact H]. apply IH.
  unfold lacks in *. cbn [Str.forallb] in H. by apply andb_true_iff in H as [_ H].
Qed.

Lemma lacks_trim_end c s : lacks c s = true → lacks c (Text.trim_end s) = true.
Proof.
  induction s as [|a s IH]; [done|]. intros H.
  unfold lacks in H. cbn [Str.forallb] in H. apply andb_true_iff in H as [Ha Hs].
  specialize (IH Hs). cbn [Text.trim_end]. destruct (Text.trim_end s) as [|d t].
  - destruct (Text.is_space a); [done|]. unfold lacks. cbn [Str.forallb]. by rewrite Ha.
  - unfold lacks in *. cbn [Str.forallb] in *. by rewrite Ha, IH.
Qed.

Lemma lacks_trim c s : lacks c s = true → lacks c (Text.trim s) = true.
Proof. intros H. by apply lacks_trim_end, lacks_trim_start. Qed.

(** The pieces of a split do not hold the separator. *)
Lemma split_pieces_lack sep s piece :
  piece ∈ Text.split sep s → lacks sep piece = true.
Proof.
  revert piece. induction s as [|c s IH]; intros piece Hin; cbn [Text.split] in Hin.
  - apply list_elem_of_singleton in Hin as ->. reflexivity.
  - destruct (Ascii.eqb c sep) eqn:Hc.
    + apply elem_of_cons in Hin as [->|Hin]; [reflexivity | by apply IH].
    + destruct (Text.split sep s) as [|p rest] eqn:Hs.
      * by destruct (split_nonempty sep s).
      * apply elem_of_cons in Hin as [->|Hin].
        -- unfold lacks. cbn [Str.forallb]. rewrite Hc. cbn.
           apply (IH p). by left.
        -- apply IH. by right.
Qed.

(** What a line of the candidate file becomes. *)
Lemma readUrls_clean (text u : string) :
  u ∈ readUrls text → u ≠ "" ∧ lacks newline u = true ∧ Text.trim u = u.
Proof.
  intros Hin.
  unfold readUrls in Hin. apply list_elem_of_In, filter_In in Hin as [Hin Hlen].
  apply in_map_iff in Hin as (line & <- & Hline). apply list_elem_of_In in Hline.
  split; [|split].
  - intros Heq. rewrite Heq in Hlen. by cbn in Hlen.
  - apply lacks_trim. by apply (split_pieces_lack _ text).
  - apply trim_idem.
Qed.

(** X1 (run_dezoomify.js, [readUrls], lines 64-67).  Every candidate the
    runner reads is a non-empty line without line break and without white
    space at either end; such a candidate without a bar is an entry that
    the logs give back unchanged. *)
Theorem candidates_are_trimmed_lines (text u : string) (Hin : u ∈ readUrls text) :
  u ≠ ""
  ∧ Text.truthy u = true
  ∧ lacks newline u = true
  ∧ Text.trim u = u
  ∧ (lacks bar u = true → cleanEntry u).
Proof.
  destruct (readUrls_clean text u Hin) as (Hne & Hnl & Htrim).
  split; [exact Hne|]. split; [by destruct u|].
  split; [exact Hnl|]. split; [exact Htrim|].
  intros Hbar. by split.
Qed.

Lemma candidates_are_trimmed_lines_witness :
  "http://a/2" ≠ ""
  ∧ Text.truthy "http://a/2" = true
  ∧ lacks newline "http://a/2" = true
  ∧ Text.trim "http://a/2" = "http://a/2"
  ∧ (lacks bar "http://a/2" = true → cleanEntry "http://a/2").
Proof.
  apply (candidates_are_trimmed_lines
           ("http://a/1" ++ String newline ("  http://a/2 " ++ String newline ""))).
  vm_compute. apply list_elem_of_further, list_elem_of_here.
Defined.

(** ** Writing a log line and reading it back *)

(** One more line at the end of a log adds its entry, if it has one. *)
Lemma readLog_line (old : option string) (line : string) :
  endsWithNewline old → lacks newline line = true →
  readLog (appendText old (line ++ String newline ""))
  = (if Text.truthy (logEntry line) then {[logEntry line]} else ∅) ∪ readLog old
  ∧ endsWithNewline (appendText old (line ++ String newline "")).
Proof.
  intros [pre Hpre] Hbody.
  assert (Hnew : Text.split newline (default "" old ++ line ++ String newline "")
                 = (pre ++ [line; ""])%list).
  { rewrite (split_after_boundary _ _ _ pre Hpre), split_at_sep.
    by rewrite (split_lacks _ _ Hbody). }
  assert (Hold : readLog old
                 = list_to_set (List.filter Text.truthy (List.map logEntry pre))).
  { destruct old as [t|]; simpl in Hpre |- *.
    - rewrite Hpre, List.map_app, List.filter_app, list_to_set_app_L. simpl.
      by rewrite union_empty_r_L.
    - destruct pre as [|p [|q pre]]; try discriminate. reflexivity. }
  assert (Htext : appendText old (line ++ String newline "")
                  = Some (default "" old ++ line ++ String newline ""))
    by (by destruct old).
  rewrite Htext. split.
  - unfold readLog at 1. rewrite Hnew, Hold, List.map_app, List.filter_app, list_to_set_app_L.
    cbn [List.map List.filter].
    change (Text.truthy (logEntry "")) with false. cbv iota.
    destruct (Text.truthy (logEntry line)).
    + change (list_to_set [logEntry line] : gset string)
        with ({[logEntry line]} ∪ ∅ : gset string).
      rewrite union_empty_r_L. apply union_comm_L.
    + change (list_to_set [] : gset string) with (∅ : gset string).
      apply union_comm_L.
  - exists (pre ++ [line])%list. simpl. rewrite Hnew. by rewrite <- app_assoc.
Qed.

Lemma logToFile_quiet file content w :
  quiet w →
  logToFile file content w
  = (Ok tt,
     mkWorld
       (match file with
        | SuccessLog =>
            mkFiles (appendText (successLogFile (files w))
                       (logLine (clock (env w) (ticks (env w))) content))
                    (failureLogFile (files w)) (detailedFailureLogFile (files w))
                    (progressFile (files w))
        | FailureLog =>
            mkFiles (successLogFile (files w))
                    (appendText (failureLogFile (files w))
                       (logLine (clock (env w) (ticks (env w))) content))
                    (detailedFailureLogFile (files w)) (progressFile (files w))
        end)
       (vars w) (sched w)
       (mkEnv [] (clock (env w)) (S (ticks (env w))))).
Proof.
  intros Hq. destruct w as [f v s [o c t]]. unfold quiet in Hq. simpl in Hq. subst o.
  destruct file; reflexivity.
Qed.

Lemma lacks_cons c a s : lacks c (String a s) = negb (Ascii.eqb a c) && lacks c s.
Proof. reflexivity. Qed.

Lemma split_cons sep c s :
  Text.split sep (String c s)
  = if Ascii.eqb c sep then EmptyString :: Text.split sep s
    else match Text.split sep s with
         | piece :: rest => String c piece :: rest
         | [] => [String c EmptyString]
         end.
Proof. reflexivity. Qed.

Lemma split_single sep s x : Text.split sep s = [x] → s = x.
Proof.
  revert x. induction s as [|c s IH]; intros x; rewrite ?split_cons.
  - by intros [= <-].
  - destruct (Ascii.eqb c sep).
    + intros Hs. injection Hs as _ Hs. by destruct (split_nonempty sep s).
    + destruct (Text.split sep s) as [|p rest] eqn:Hp; [by destruct (split_nonempty sep s)|].
      intros [= <- ->]. by rewrite (IH p).
Qed.

(** The entry of a timestamped line whose content holds a bar: what
    stands before that bar. *)
Lemma logEntry_with_bar ts a b :
  lacks bar ts = true → lacks bar a = true →
  logEntry (ts ++ " | " ++ a ++ String bar b) = Text.trim a.
Proof.
  intros Hts Ha. unfold logEntry.
  change (ts ++ " | " ++ a ++ String bar b)
    with (ts ++ String " " (String bar (String " " (a ++ String bar b)))).
  replace (ts ++ String " " (String bar (String " " (a ++ String bar b))))
    with ((ts ++ " ") ++ String bar ((String " " a) ++ String bar b))
    by (by rewrite append_assoc).
  rewrite !split_at_sep.
  rewrite (split_lacks bar (ts ++ " ")) by (by rewrite lacks_append, Hts).
  rewrite (split_lacks bar (String " " a)) by (unfold lacks in *; simpl; exact Ha).
  reflexivity.
Qed.

Lemma beforeFirst_lacks c s : lacks c (beforeFirst c s) = true.
Proof.
  induction s as [|a s IH]; [reflexivity|]. cbn [beforeFirst].
  destruct (Ascii.eqb a c) eqn:Ha; [reflexivity|].
  rewrite lacks_cons, Ha. exact IH.
Qed.

Lemma beforeFirst_id c s : lacks c s = true → beforeFirst c s = s.
Proof.
  induction s as [|a s IH]; [reflexivity|]. rewrite lacks_cons.
  intros [Ha Hs]%andb_true_iff. apply negb_true_iff in Ha.
  cbn [beforeFirst]. by rewrite Ha, (IH Hs).
Qed.

Lemma beforeFirst_cut c s :
  lacks c s = false → ∃ b, s = beforeFirst c s ++ String c b.
Proof.
  induction s as [|a s IH]; [discriminate|]. rewrite lacks_cons. cbn [beforeFirst].
  destruct (Ascii.eqb a c) eqn:Ha.
  - intros _. apply Ascii.eqb_eq in Ha as ->. by exists s.
  - cbn [negb andb]. intros Hs. destruct (IH Hs) as [b Hb].
    exists b. rewrite append_cons. by rewrite <- Hb.
Qed.

(** The entry of a line that [logToFile] has written: what stands before
    the first bar of the logged string, trimmed. *)
Lemma logEntry_logged ts content :
  lacks bar ts = true →
  logEntry (ts ++ " | " ++ content) = Text.trim (beforeFirst bar content).
Proof.
  intros Hts. destruct (lacks bar content) eqn:Hbar.
  - rewrite (beforeFirst_id _ _ Hbar). by apply logEntry_of_line.
  - destruct (beforeFirst_cut _ _ Hbar) as [b Hb]. rewrite Hb at 1.
    apply logEntry_with_bar; [exact Hts | apply beforeFirst_lacks].
Qed.

Lemma readLog_logged (old : option string) (ts content : string) :
  endsWithNewline old → cleanStamp ts → lacks newline content = true →
  readLog (appendText old (logLine ts content))
  = (if Text.truthy (Text.trim (beforeFirst bar content))
     then {[Text.trim (beforeFirst bar content)]} else ∅) ∪ readLog old
  ∧ endsWithNewline (appendText old (logLine ts content)).
Proof.
  intros Hend [Hts1 Hts2] Hnl.
  assert (Hbody : lacks newline (ts ++ " | " ++ content) = true).
  { rewrite !lacks_append, Hts2, Hnl. reflexivity. }
  rewrite logLine_body.
  destruct (readLog_line old _ Hend Hbody) as [Hread Hend'].
  rewrite (logEntry_logged ts content Hts1) in Hread. by split.
Qed.

Lemma logEntry_lacks_bar line : lacks bar (logEntry line) = true.
Proof.
  unfold logEntry. destruct (Text.split bar line) as [|p0 [|p1 rest]] eqn:Hs.
  - by destruct (split_nonempty bar line).
  - apply lacks_trim. apply (split_pieces_lack bar line).
    rewrite Hs. apply split_single in Hs as ->. by left.
  - apply lacks_trim. apply (split_pieces_lack bar line). rewrite Hs.
    by apply list_elem_of_further, list_elem_of_here.
Qed.

(** No entry that [readLog] returns holds a bar. *)
Lemma readLog_lacks_bar file e : e ∈ readLog file → lacks bar e = true.
Proof.
  destruct file as [text|]; [|by intros ?%elem_of_empty].
  unfold readLog. rewrite elem_of_list_to_set.
  intros Hin. apply list_elem_of_In, filter_In in Hin as [Hin _].
  apply in_map_iff in Hin as (line & <- & _). apply logEntry_lacks_bar.
Qed.

Lemma barred_not_logged file e : lacks bar e = false → e ∉ readLog file.
Proof. intros Hbar Hin. by rewrite (readLog_lacks_bar file e Hin) in Hbar. Qed.

Lemma logText_logToFile file content w :
  logText file (files (mkWorld
       (match file with
        | SuccessLog =>
            mkFiles (appendText (successLogFile (files w))
                       (logLine (clock (env w) (ticks (env w))) content))
                    (failureLogFile (files w)) (detailedFailureLogFile (files w))
                    (progressFile (files w))
        | FailureLog =>
            mkFiles (successLogFile (files w))
                    (appendText (failureLogFile (files w))
                       (logLine (clock (env w) (ticks (env w))) content))
                    (detailedFailureLogFile (files w)) (progressFile (files w))
        end)
       (vars w) (sched w)
       (mkEnv [] (clock (env w)) (S (ticks (env w))))))
  = appendText (logText file (files w))
      (logLine (clock (env w) (ticks (env w))) content).
Proof. by destruct file. Qed.

(** X2 (run_dezoomify.js, [logToFile] lines 90-93 and [readLog] lines
    40-51).  A line written by [logToFile] and read back by [readLog].
    Assumed: the write does not throw, the log ended with a line break
    (or was missing or empty), the timestamp holds neither bar nor line
    break, and the logged string holds no line break.  Then the set read
    from that log grows by exactly one string, the part of the logged
    string before its first bar, trimmed (by nothing when that part is
    blank); the file again ends with a line break and the other log is
    untouched.  So the logged string itself is in the set afterwards
    exactly if it was there before or it holds no bar, is trimmed and is
    not empty; and for a string of that kind the set grows by exactly
    that string, and stays as it was if it already held it. *)
Theorem logged_entry_is_read_back
    (file : LogFile) (content : string) (w : World)
    (Hq : quiet w)
    (Hend : endsWithNewline (logText file (files w)))
    (Hts : cleanStamp (clock (env w) (ticks (env w))))
    (Hnl : lacks newline content = true) :
  ∃ w' : World,
    logToFile file content w = (Ok tt, w')
    ∧ readLog (logText file (files w'))
      = (if Text.truthy (Text.trim (beforeFirst bar content))
         then {[Text.trim (beforeFirst bar content)]} else ∅)
        ∪ readLog (logText file (files w))
    ∧ endsWithNewline (logText file (files w'))
    ∧ (∀ other : LogFile, other ≠ file →
         logText other (files w') = logText other (files w))
    ∧ (content ∈ readLog (logText file (files w'))
       ↔ content ∈ readLog (logText file (files w))
         ∨ lacks bar content = true ∧ Text.trim content = content ∧ content ≠ "")
    ∧ (lacks bar content = true → Text.trim content = content → content ≠ "" →
       readLog (logText file (files w')) = {[content]} ∪ readLog (logText file (files w))
       ∧ (content ∈ readLog (logText file (files w)) →
          readLog (logText file (files w')) = readLog (logText file (files w)))).
Proof.
  eexists. split; [by apply logToFile_quiet|].
  rewrite logText_logToFile.
  destruct (readLog_logged _ _ content Hend Hts Hnl) as [Hread Hend'].
  split; [exact Hread|]. split; [exact Hend'|]. split; [|split].
  - intros other Hother. by destruct file, other.
  - rewrite Hread, elem_of_union. split.
    + intros [Hin|Hin]; [|by left]. right.
      destruct (Text.truthy (Text.trim (beforeFirst bar content))) eqn:Htr;
        [|by apply elem_of_empty in Hin].
      apply elem_of_singleton in Hin.
      assert (Hbar : lacks bar content = true).
      { rewrite Hin. apply lacks_trim, beforeFirst_lacks. }
      rewrite (beforeFirst_id _ _ Hbar) in Hin, Htr.
      split; [exact Hbar|]. split; [by symmetry|].
      intros Hempty. rewrite <- Hin, Hempty in Htr. discriminate.
    + intros [Hin|(Hbar & Htrim & Hne)]; [by right|]. left.
      rewrite (beforeFirst_id _ _ Hbar), Htrim.
      destruct content; [done|]. by apply elem_of_singleton.
  - intros Hbar Htrim Hne. rewrite Hread, (beforeFirst_id _ _ Hbar), Htrim.
    assert (Htr : Text.truthy content = true) by (by destruct content).
    rewrite Htr. split; [reflexivity|].
    intros Hin. apply (anti_symm (⊆)).
    + apply union_subseteq. split; [by apply singleton_subseteq_l | done].
    + apply union_subseteq_r.
Qed.

Lemma logged_entry_is_read_back_witness :
  ∃ w' : World,
    logToFile SuccessLog "http://a/1" (initialWorld demoConfig noFiles calmEnv) = (Ok tt, w')
    ∧ readLog (logText SuccessLog (files w'))
      = (if Text.truthy (Text.trim (beforeFirst bar "http://a/1"))
         then {[Text.trim (beforeFirst bar "http://a/1")]} else ∅)
        ∪ readLog (logText SuccessLog (files (initialWorld demoConfig noFiles calmEnv)))
    ∧ endsWithNewline (logText SuccessLog (files w'))
    ∧ (∀ other : LogFile, other ≠ SuccessLog →
         logText other (files w')
         = logText other (files (initialWorld demoConfig noFiles calmEnv)))
    ∧ ("http://a/1" ∈ readLog (logText SuccessLog (files w'))
       ↔ "http://a/1"
           ∈ readLog (logText SuccessLog (files (initialWorld demoConfig noFiles calmEnv)))
         ∨ lacks bar "http://a/1" = true ∧ Text.trim "http://a/1" = "http://a/1"
           ∧ "http://a/1" ≠ "")
    ∧ (lacks bar "http://a/1" = true → Text.trim "http://a/1" = "http://a/1" →
       "http://a/1" ≠ "" →
       readLog (logText SuccessLog (files w'))
       = {["http://a/1"]}
         ∪ readLog (logText SuccessLog (files (initialWorld demoConfig noFiles calmEnv)))
       ∧ ("http://a/1"
            ∈ readLog (logText SuccessLog (files (initialWorld demoConfig noFiles calmEnv))) →
          readLog (logText SuccessLog (files w'))
          = readLog (logText SuccessLog (files (initialWorld demoConfig noFiles calmEnv))))).
Proof.
  apply (logged_entry_is_read_back SuccessLog "http://a/1"
           (initialWorld demoConfig noFiles calmEnv)).
  - reflexivity.
  - exists []. reflexivity.
  - split; vm_compute; reflexivity.
  - vm_compute. reflexivity.
Defined.

(** X3 (run_dezoomify.js, [readLog] lines 44-48 with [logToFile] lines
    90-93).  An entry that holds a bar is not read back: [readLog] takes
    what stands between the first and the second bar of the line, so the
    set gains the part of the entry before its bar (if that part is not
    blank) and the entry itself is in the set only if it was before. *)
Theorem entry_with_bar_is_cut
    (old : option string) (ts a b : string)
    (Hend : endsWithNewline old) (Hts : cleanStamp ts)
    (Ha : lacks bar a = true)
    (Hnl : lacks newline (a ++ String bar b) = true) :
  readLog (appendText old (logLine ts (a ++ String bar b)))
  = (if Text.truthy (Text.trim a) then {[Text.trim a]} else ∅) ∪ readLog old
  ∧ (a ++ String bar b ∈ readLog (appendText old (logLine ts (a ++ String bar b)))
     ↔ a ++ String bar b ∈ readLog old).
Proof.
  destruct Hts as [Hts1 Hts2].
  assert (Hbody : lacks newline (ts ++ " | " ++ a ++ String bar b) = true).
  { rewrite lacks_append, Hts2. rewrite lacks_append. rewrite Hnl. reflexivity. }
  rewrite logLine_body.
  destruct (readLog_line old _ Hend Hbody) as [Hread _].
  rewrite (logEntry_with_bar ts a b Hts1 Ha) in Hread.
  split; [exact Hread|]. rewrite Hread.
  assert (Hne : Text.trim a ≠ a ++ String bar b).
  { intros Heq. pose proof (lacks_trim bar a Ha) as Hl. rewrite Heq, lacks_append in Hl.
    apply andb_true_iff in Hl as [_ Hl]. unfold lacks in Hl. cbn [Str.forallb] in Hl.
    unfold bar in Hl. by cbn in Hl. }
  rewrite elem_of_union. split; [|by right].
  intros [Hin|Hin]; [|exact Hin].
  destruct (Text.truthy (Text.trim a)).
  - apply elem_of_singleton in Hin. by destruct Hne.
  - by apply elem_of_empty in Hin.
Qed.

Lemma entry_with_bar_is_cut_witness :
  readLog (appendText None (logLine "2025-05-01T10:00:00.000Z" ("http://a/x" ++ String bar "y")))
  = (if Text.truthy (Text.trim "http://a/x") then {[Text.trim "http://a/x"]} else ∅)
    ∪ readLog None
  ∧ ("http://a/x" ++ String bar "y"
       ∈ readLog (appendText None
                    (logLine "2025-05-01T10:00:00.000Z" ("http://a/x" ++ String bar "y")))
     ↔ "http://a/x" ++ String bar "y" ∈ readLog None).
Proof.
  apply (entry_with_bar_is_cut None "2025-05-01T10:00:00.000Z" "http://a/x" "y").
  - exists []. reflexivity.
  - split; vm_compute; reflexivity.
  - vm_compute; reflexivity.
  - vm_compute; reflexivity.
Defined.

(** ** Runs in which no file operation throws *)

Lemma saveProgress_quiet cfg w :
  quiet w →
  saveProgress cfg w
  = (Ok tt,
     mkWorld
       (mkFiles (successLogFile (files w)) (failureLogFile (files w))
          (detailedFailureLogFile (files w))
          (Some (snapshotOf cfg (vars w) (loaded w) (clock (env w) (ticks (env w))))))
       (vars w) (sched w)
       (mkEnv [] (clock (env w)) (S (ticks (env w))))).
Proof.
  intros Hq. destruct w as [[sl fl det pr] v s [o c t]]. unfold quiet in Hq. simpl in Hq.
  subst o. destruct det; reflexivity.
Qed.

Lemma idle_timer_quiet cfg w :
  quiet w →
  try_catch (drain cfg) (fun error => set_phase Exited) w = (Ok tt, idleWorld cfg w).
Proof.
  intros Hq. unfold try_catch, drain, idleWorld. unfold bind at 1, get at 1.
  destruct (0 <? activeDownloads (vars w)).
  - by destruct w as [f v [i s p h] e].
  - unfold finish. unfold bind at 1, get at 1. unfold bind at 1.
    assert (Hhint : (if current (vars w) <? Z.of_nat (length (urls cfg))
                     then set_hint (batchSize cfg, current (vars w), maxConcurrent cfg)
                     else ret ()) w
                    = (Ok tt,
                       with_sched (fun s =>
                         mkSched (inflight s) (started s) (phase s)
                           (if current (vars w) <? Z.of_nat (length (urls cfg))
                            then Some (batchSize cfg, current (vars w), maxConcurrent cfg)
                            else resumeHint s)) w)).
    { destruct (current (vars w) <? Z.of_nat (length (urls cfg)));
        by destruct w as [f v [i s p h] e]. }
    rewrite Hhint. unfold bind. rewrite saveProgress_quiet by (by destruct w).
    by destruct w as [f v [i s p h] e].
Qed.

Lemma processUrls_quiet cfg w :
  quiet w →
  (processUrls cfg w).2
  = match phase (sched w) with
    | Dispatching =>
        if current (vars w) <? endIndex cfg
        then (innerLoopFrom cfg (Z.to_nat (endIndex cfg - current (vars w))) w).2
        else idleWorld cfg w
    | Draining => idleWorld cfg w
    | Finished | Exited => w
    end.
Proof. intros Hq. by rewrite processUrls_eq, (idle_timer_quiet cfg w Hq). Qed.

(** The inner loop touches neither counter of outcomes; it moves
    [current] forwards, by at least one position when it can start. *)
Lemma innerLoopFrom_counts cfg turns w :
  let w' := (innerLoopFrom cfg turns w).2 in
  successCount (vars w') = successCount (vars w)
  ∧ failCount (vars w') = failCount (vars w)
  ∧ settledCount w' = settledCount w
  ∧ current (vars w) ≤ current (vars w')
  ∧ (canLaunch cfg w = true → (0 < turns)%nat → current (vars w) < current (vars w')).
Proof.
  revert w. induction turns as [|turns IH]; intros w.
  - cbn [innerLoopFrom ret fst snd]. repeat (split; [done|]). lia.
  - rewrite innerLoopFrom_S. destruct (canLaunch cfg w) eqn:Hcan.
    + destruct (IH (afterLaunch cfg w)) as (Hs & Hf & Hn & Hc & _).
      cbv zeta. rewrite Hs, Hf, Hn.
      split; [reflexivity|]. split; [reflexivity|]. split.
      * unfold settledCount. cbn [afterLaunch sched started inflight].
        rewrite !length_app. lia.
      * cbn [afterLaunch vars current] in Hc. split; [lia|]. intros _ _. lia.
    + cbn [fst snd]. repeat (split; [done|]). done.
Qed.

Lemma QRun_initial cfg f e : QRun cfg (initialWorld cfg f e).
Proof. split; unfold settledCount; cbn; try done; try lia. Qed.

Lemma processUrls_QRun cfg w : quiet w → QRun cfg w → QRun cfg (processUrls cfg w).2.
Proof.
  intros Hq [Hph Hc Hs Hf Hsnap]. rewrite (processUrls_quiet cfg w Hq).
  assert (Hidle : phase (sched w) ≠ Finished → QRun cfg (idleWorld cfg w)).
  { intros Hnf. unfold idleWorld. destruct (0 <? activeDownloads (vars w)).
    - destruct w as [fi v [i s p h] en]. by split.
    - split; try done. intros _. by eexists. }
  destruct (phase (sched w)) eqn:Hphase.
  - destruct (current (vars w) <? endIndex cfg); [|apply Hidle; congruence].
    destruct (innerLoopFrom_spec cfg (Z.to_nat (endIndex cfg - current (vars w))) w)
      as (_ & _ & _ & _ & _ & Hp & _).
    destruct (innerLoopFrom_counts cfg (Z.to_nat (endIndex cfg - current (vars w))) w)
      as (Hs' & Hf' & Hn' & _).
    split; rewrite ?Hp, ?Hs', ?Hf', ?Hn', ?Hphase; done.
  - apply Hidle; congruence.
  - split; try done; [congruence | intros _; by apply Hsnap].
  - congruence.
Qed.

Lemma settle_QRun cfg k i url io w :
  inflight (sched w) !! k = Some (i, url) →
  quiet w → QRun cfg w → QRun cfg (settle cfg url io (dropPending k w)).2.
Proof.
  intros Hk Hq [Hph Hc Hs Hf Hsnap].
  assert (Hq' : quiet (dropPending k w)) by (by destruct w).
  assert (Hlen : length (delete k (inflight (sched w)))
                 = (length (inflight (sched w)) - 1)%nat).
  { apply length_delete. by eexists. }
  apply lookup_lt_Some in Hk.
  destruct (failureOf io) as [[error ty]|] eqn:Hio.
  - rewrite (settle_failure_quiet cfg url io _ error ty Hq' Hio).
    destruct w as [fi [sc fc cur act] [infl st p h] en].
    unfold settledCount in *. cbn in *.
    split; unfold settledCount; cbn; try done; try lia. intros _. by eexists.
  - rewrite (settle_success_quiet cfg url io _ Hq' Hio).
    destruct w as [fi [sc fc cur act] [infl st p h] en].
    unfold settledCount in *. cbn in *.
    split; unfold settledCount; cbn; try done; try lia. intros _. by eexists.
Qed.

Lemma reachable_QRun cfg f e w : oracle e = [] → reachable cfg f e w → QRun cfg w.
Proof.
  intros He Hreach. induction Hreach as [|w ev w' Hreach IH Hstep].
  - apply processUrls_QRun; [exact He | apply QRun_initial].
  - destruct (reachable_QInv cfg f e w He Hreach) as [Hq _].
    unfold step in Hstep.
    destruct (phase (sched w)) eqn:Hphase, ev as [|k io]; try discriminate;
      try (injection Hstep as <-; by apply processUrls_QRun);
      destruct (inflight (sched w) !! k) as [[i url]|] eqn:Hk; try discriminate;
      injection Hstep as <-; by eapply settle_QRun.
Qed.

(** ** What a run starts *)

(** Every URL of a queue built at startup is a non-empty string. *)
Lemma configure_truthy bs si mc input extract f cfg :
  configure bs si mc input extract f = Some cfg →
  ∀ u, u ∈ urls cfg → Text.truthy u = true.
Proof.
  intros Hcfg u Hu.
  destruct (configure_spec _ _ _ _ _ _ _ Hcfg) as (text & _ & _ & _ & _ & Hurls).
  rewrite Hurls in Hu. apply elem_of_workQueue in Hu as [Hu _].
  destruct (readUrls_clean text u Hu) as [Hne _]. by destruct u.
Qed.

(** Over a queue without empty strings, the positions from [i] on start
    the URLs that stand there. *)
Lemma sliceFrom_truthy cfg i n :
  (∀ u, u ∈ urls cfg → Text.truthy u = true) →
  (sliceFrom cfg i n).*2
  = take (Z.to_nat (i + Z.of_nat n) - Z.to_nat i) (drop (Z.to_nat i) (urls cfg)).
Proof.
  intros Htruthy. revert i. induction n as [|n IH]; intros i.
  - replace (Z.to_nat (i + Z.of_nat 0) - Z.to_nat i)%nat with 0%nat by lia. reflexivity.
  - cbn [sliceFrom]. rewrite fmap_app, IH. unfold launchedAt, urlAt.
    destruct (Z.ltb_spec i 0) as [Hneg|Hpos].
    + replace (Z.to_nat (i + 1)) with 0%nat by lia.
      replace (Z.to_nat i) with 0%nat by lia.
      replace (i + 1 + Z.of_nat n) with (i + Z.of_nat (S n)) by lia. reflexivity.
    + replace (Z.to_nat (i + 1 + Z.of_nat n) - Z.to_nat (i + 1))%nat with n by lia.
      replace (Z.to_nat (i + Z.of_nat (S n)) - Z.to_nat i)%nat with (S n) by lia.
      replace (Z.to_nat (i + 1)) with (S (Z.to_nat i)) by lia.
      destruct (urls cfg !! Z.to_nat i) as [u|] eqn:Hu.
      * rewrite (Htruthy u) by (by eapply list_elem_of_lookup_2).
        rewrite (drop_S _ _ _ Hu). reflexivity.
      * apply lookup_ge_None in Hu. rewrite !drop_ge by lia. by rewrite !take_nil.
Qed.

(** X4 (run_dezoomify.js, [processUrls] lines 196-235, with the startup
    code of lines 64-83).  A run that has ended has started exactly the
    URLs of the queue from [startIndex] up to [endIndex], in queue order
    and each position once; no position is skipped by the test
    [if (url)], because a queue built at startup holds no empty string.
    This holds whatever the file operations did. *)
Theorem finished_run_started_the_slice
    (bs si mc : Z) (input extract : option string) (f f' : Files) (e : Env)
    (cfg : Config) (w : World)
    (Hcfg : configure bs si mc input extract f = Some cfg)
    (Hreach : reachable cfg f' e w)
    (Hend : phase (sched w) = Finished) :
  (started (sched w)).*2
  = take (Z.to_nat (endIndex cfg) - Z.to_nat si) (drop (Z.to_nat si) (urls cfg))
  ∧ (∀ i u, (i, u) ∈ started (sched w) → urlAt cfg i = Some u)
  ∧ StronglySorted Z.lt (started (sched w)).*1
  ∧ (0 ≤ si → si ≤ endIndex cfg → current (vars w) = endIndex cfg).
Proof.
  assert (Hsi : startIndex cfg = si).
  { unfold configure in Hcfg. destruct input; [|discriminate]. by injection Hcfg as <-. }
  pose proof (reachable_Inv cfg f' e w Hreach) as [Hlo Hhi Hst _ _ _ _].
  destruct (pi_finished _ _ (reachable_PhaseInv cfg f' e w Hreach) Hend) as (Hge & _ & _).
  rewrite Hsi in *.
  split; [|split; [|split]].
  - rewrite Hst, (sliceFrom_truthy cfg _ _ (configure_truthy _ _ _ _ _ _ _ Hcfg)).
    f_equal. lia.
  - intros i u Hin. rewrite Hst in Hin. by destruct (sliceFrom_spec _ _ _ _ Hin) as (_ & ? & _).
  - rewrite Hst. apply sliceFrom_sorted.
  - lia.
Qed.

Lemma finished_run_started_the_slice_witness :
  ∃ w : World,
    runEvents sliceConfig [Settled 0 itemOk; Settled 0 itemOk; Timer]
      (boot sliceConfig noFiles calmEnv) = Some w
    ∧ (started (sched w)).*2
      = take (Z.to_nat (endIndex sliceConfig) - Z.to_nat 1)
          (drop (Z.to_nat 1) (urls sliceConfig))
    ∧ (∀ i u, (i, u) ∈ started (sched w) → urlAt sliceConfig i = Some u)
    ∧ StronglySorted Z.lt (started (sched w)).*1
    ∧ (0 ≤ 1 → 1 ≤ endIndex sliceConfig → current (vars w) = endIndex sliceConfig).
Proof.
  eexists. split; [vm_compute; reflexivity|].
  apply (finished_run_started_the_slice 2 1 3 fourCandidates None noFiles noFiles calmEnv).
  - vm_compute. reflexivity.
  - apply (runEvents_reachable sliceConfig noFiles calmEnv [Settled 0 itemOk; Settled 0 itemOk; Timer]
             (boot sliceConfig noFiles calmEnv));
      [apply reach_boot | vm_compute; reflexivity].
  - vm_compute. reflexivity.
Defined.

(** ** The limit *)

Lemma sorted_NoDup (l : list Z) : StronglySorted Z.lt l → NoDup l.
Proof.
  induction 1 as [|x l _ IH Hall]; constructor; [|exact IH].
  intros Hin. rewrite Forall_forall in Hall. specialize (Hall x Hin). lia.
Qed.

(** X5 (run_dezoomify.js, [processUrls] lines 202-213 and [processUrl]
    lines 191-192).  In a run in which no file operation throws, with a
    limit that is not negative: the counter [activeDownloads] is the
    number of pending calls, it is never negative, it never passes
    [maxConcurrent], and no position of the queue is pending twice. *)
Theorem quiet_run_respects_limit
    (cfg : Config) (f : Files) (e : Env) (w : World)
    (He : oracle e = []) (Hmax : 0 ≤ maxConcurrent cfg)
    (Hreach : reachable cfg f e w) :
  activeDownloads (vars w) = Z.of_nat (length (inflight (sched w)))
  ∧ 0 ≤ activeDownloads (vars w) ≤ maxConcurrent cfg
  ∧ NoDup (inflight (sched w)).*1.
Proof.
  destruct (reachable_QInv cfg f e w He Hreach) as [_ Hn].
  pose proof (reachable_Inv cfg f e w Hreach) as [_ _ Hst Hsub Hcm _ _].
  split; [exact Hn|]. split; [lia|].
  assert (Hsub1 : sublist (inflight (sched w)).*1 (started (sched w)).*1)
    by (by apply fmap_sublist).
  refine (sublist_NoDup _ _ _ Hsub1). apply sorted_NoDup. rewrite Hst.
  apply sliceFrom_sorted.
Qed.

Lemma quiet_run_respects_limit_witness :
  ∃ w : World,
    runEvents demoConfig [Settled 1 itemOk; Timer] (boot demoConfig noFiles calmEnv) = Some w
    ∧ activeDownloads (vars w) = Z.of_nat (length (inflight (sched w)))
    ∧ 0 ≤ activeDownloads (vars w) ≤ maxConcurrent demoConfig
    ∧ NoDup (inflight (sched w)).*1.
Proof.
  eexists. split; [vm_compute; reflexivity|].
  apply (quiet_run_respects_limit demoConfig noFiles calmEnv).
  - reflexivity.
  - vm_compute. discriminate.
  - apply (runEvents_reachable demoConfig noFiles calmEnv [Settled 1 itemOk; Timer]
             (boot demoConfig noFiles calmEnv));
      [apply reach_boot | vm_compute; reflexivity].
Defined.

(** What one timer does to a world in which no file operation throws,
    while the first loop runs. *)
Lemma timer_quiet cfg w :
  QInv w → Inv cfg w → phase (sched w) = Dispatching →
  let w' := (processUrls cfg w).2 in
  (Z.of_nat (length (inflight (sched w'))) = Z.max 0 (maxConcurrent cfg)
   ∨ endIndex cfg ≤ current (vars w'))
  ∧ current (vars w) ≤ current (vars w')
  ∧ started (sched w')
    = (started (sched w)
       ++ sliceFrom cfg (current (vars w))
            (Z.to_nat (current (vars w') - current (vars w))))%list.
Proof.
  intros HQ HInv Hph. cbv zeta. rewrite (processUrls_quiet cfg w (proj1 HQ)), Hph.
  destruct (Z.ltb_spec (current (vars w)) (endIndex cfg)) as [Hlt|Hge].
  - destruct (innerLoopFrom_spec cfg (Z.to_nat (endIndex cfg - current (vars w))) w)
      as (_ & HI & HQ' & _ & _ & _ & _ & Hstop).
    destruct (innerLoopFrom_counts cfg (Z.to_nat (endIndex cfg - current (vars w))) w)
      as (_ & _ & _ & Hcur & _).
    specialize (HI HInv). specialize (HQ' HQ). specialize (Hstop ltac:(lia)).
    set (w' := (innerLoopFrom cfg (Z.to_nat (endIndex cfg - current (vars w))) w).2) in *.
    destruct HQ' as [_ Hn]. destruct HI as [Hlo' _ Hst' _ Hcm' _ _].
    destruct HInv as [Hlo _ Hst _ _ _ _].
    split; [|split; [exact Hcur|]].
    + unfold canLaunch in Hstop. apply andb_false_iff in Hstop as [H|H];
        apply Z.ltb_ge in H; [left; lia | by right].
    + rewrite Hst', Hst.
      replace (Z.to_nat (current (vars w') - startIndex cfg))
        with (Z.to_nat (current (vars w) - startIndex cfg)
              + Z.to_nat (current (vars w') - current (vars w)))%nat by lia.
      rewrite sliceFrom_app. do 2 f_equal. lia.
  - unfold idleWorld. destruct (0 <? activeDownloads (vars w));
      destruct w as [fi v [i s p h] en]; cbn in *;
      (split; [by right|]); (split; [lia|]);
      by rewrite Z.sub_diag, app_nil_r.
Qed.

(** X6 (run_dezoomify.js, [processUrls] lines 202-217).  In a run in
    which no file operation throws, each timer that fires while the
    first loop runs fills the free slots: afterwards either as many
    calls are pending as the limit allows, that is [maxConcurrent] of
    them, and none when the limit is negative, or every position of the
    slice has been passed; what the timer starts are the next positions
    of the queue, in order. *)
Theorem timer_fills_free_slots
    (cfg : Config) (f : Files) (e : Env) (w w' : World)
    (He : oracle e = [])
    (Hreach : reachable cfg f e w)
    (Hph : phase (sched w) = Dispatching)
    (Hstep : step cfg Timer w = Some w') :
  (Z.of_nat (length (inflight (sched w'))) = Z.max 0 (maxConcurrent cfg)
   ∨ endIndex cfg ≤ current (vars w'))
  ∧ current (vars w) ≤ current (vars w')
  ∧ started (sched w')
    = (started (sched w)
       ++ sliceFrom cfg (current (vars w))
            (Z.to_nat (current (vars w') - current (vars w))))%list.
Proof.
  unfold step in Hstep. rewrite Hph in Hstep. injection Hstep as <-.
  apply timer_quiet; [by eapply reachable_QInv | by eapply reachable_Inv | done].
Qed.

Lemma timer_fills_free_slots_witness :
  ∃ w w' : World,
    runEvents demoConfig [Settled 0 itemOk] (boot demoConfig noFiles calmEnv) = Some w
    ∧ step demoConfig Timer w = Some w'
    ∧ (Z.of_nat (length (inflight (sched w'))) = Z.max 0 (maxConcurrent demoConfig)
       ∨ endIndex demoConfig ≤ current (vars w'))
    ∧ current (vars w) ≤ current (vars w')
    ∧ started (sched w')
      = (started (sched w)
         ++ sliceFrom demoConfig (current (vars w))
              (Z.to_nat (current (vars w') - current (vars w))))%list.
Proof.
  eexists. eexists. split; [vm_compute; reflexivity|].
  split; [vm_compute; reflexivity|].
  eapply (timer_fills_free_slots demoConfig noFiles calmEnv).
  - reflexivity.
  - apply (runEvents_reachable demoConfig noFiles calmEnv [Settled 0 itemOk]
             (boot demoConfig noFiles calmEnv));
      [apply reach_boot | vm_compute; reflexivity].
  - vm_compute. reflexivity.
  - vm_compute. reflexivity.
Defined.

(** X7 (run_dezoomify.js, lines 11 and 202-217).  A limit that is not
    positive (a negative third argument) makes the runner wait for ever:
    when the slice is not empty, no call is ever started, [current]
    never moves and the first loop is never left, so the run never
    ends. *)
Theorem no_slot_no_progress
    (cfg : Config) (f : Files) (e : Env) (w : World)
    (Hmax : maxConcurrent cfg ≤ 0) (Hslice : startIndex cfg < endIndex cfg)
    (Hreach : reachable cfg f e w) :
  w = initialWorld cfg f e
  ∧ started (sched w) = []
  ∧ phase (sched w) = Dispatching
  ∧ (∀ w', step cfg Timer w = Some w' → w' = w).
Proof.
  assert (Hboot : (processUrls cfg (initialWorld cfg f e)).2 = initialWorld cfg f e).
  { rewrite processUrls_eq. cbn [initialWorld sched phase vars current].
    destruct (Z.ltb_spec (startIndex cfg) (endIndex cfg)) as [_|?]; [|lia].
    destruct (Z.to_nat (endIndex cfg - startIndex cfg)) as [|n]; [reflexivity|].
    rewrite innerLoopFrom_S. unfold canLaunch. cbn [initialWorld vars activeDownloads].
    destruct (Z.ltb_spec 0 (maxConcurrent cfg)) as [?|_]; [lia|]. reflexivity. }
  assert (Hw : w = initialWorld cfg f e).
  { induction Hreach as [|w ev w' _ IH Hstep]; [exact Hboot|].
    subst w. unfold step in Hstep. cbn [initialWorld sched phase inflight] in Hstep.
    destruct ev as [|k io]; [|by rewrite lookup_nil in Hstep].
    injection Hstep as <-. exact Hboot. }
  subst w. split; [reflexivity|]. split; [reflexivity|]. split; [reflexivity|].
  intros w' Hstep. unfold step in Hstep. cbn [initialWorld sched phase] in Hstep.
  injection Hstep as <-. exact Hboot.
Qed.

Lemma no_slot_no_progress_witness :
  ∃ w : World,
    runEvents (mkConfig 10 0 (-1) ∅ ∅ ∅ ["a"; "b"]) [Timer; Timer]
      (boot (mkConfig 10 0 (-1) ∅ ∅ ∅ ["a"; "b"]) noFiles calmEnv) = Some w
    ∧ w = initialWorld (mkConfig 10 0 (-1) ∅ ∅ ∅ ["a"; "b"]) noFiles calmEnv
    ∧ started (sched w) = []
    ∧ phase (sched w) = Dispatching
    ∧ (∀ w', step (mkConfig 10 0 (-1) ∅ ∅ ∅ ["a"; "b"]) Timer w = Some w' → w' = w).
Proof.
  eexists. split; [vm_compute; reflexivity|].
  apply (no_slot_no_progress (mkConfig 10 0 (-1) ∅ ∅ ∅ ["a"; "b"]) noFiles calmEnv).
  - vm_compute. discriminate.
  - vm_compute. reflexivity.
  - apply (runEvents_reachable (mkConfig 10 0 (-1) ∅ ∅ ∅ ["a"; "b"]) noFiles calmEnv [Timer; Timer]
             (boot (mkConfig 10 0 (-1) ∅ ∅ ∅ ["a"; "b"]) noFiles calmEnv));
      [apply reach_boot | vm_compute; reflexivity].
Defined.

(** X8 (run_dezoomify.js, lines 83 and 196-235).  A start index at or
    past the end of the slice (past the end of the queue, or with a
    batch size that is not positive) starts nothing, whatever happens;
    when no file operation throws, the run ends at its first step: the
    snapshot is written, a command is printed exactly if the start index
    is inside the queue, and no timer or downloader is left. *)
Theorem empty_batch_ends_at_once
    (cfg : Config) (f : Files) (e : Env)
    (Hempty : endIndex cfg ≤ startIndex cfg) :
  (∀ w, reachable cfg f e w →
        started (sched w) = [] ∧ inflight (sched w) = []
        ∧ current (vars w) = startIndex cfg)
  ∧ (oracle e = [] →
     boot cfg f e = finishedWorld cfg (initialWorld cfg f e)
     ∧ phase (sched (boot cfg f e)) = Finished
     ∧ resumeHint (sched (boot cfg f e)) = hintOf cfg (startIndex cfg)
     ∧ ∀ ev, step cfg ev (boot cfg f e) = None).
Proof.
  split.
  - intros w Hreach.
    pose proof (reachable_Inv cfg f e w Hreach) as [Hlo Hhi Hst Hsub _ _ _].
    assert (Hcur : current (vars w) = startIndex cfg) by lia.
    rewrite Hcur, Z.sub_diag in Hst. cbn in Hst. rewrite Hst in Hsub.
    split; [exact Hst|]. split; [by apply sublist_nil_r | exact Hcur].
  - intros He.
    assert (Hboot : boot cfg f e = finishedWorld cfg (initialWorld cfg f e)).
    { unfold boot. rewrite processUrls_quiet by exact He.
      cbn [initialWorld sched phase vars current].
      destruct (Z.ltb_spec (startIndex cfg) (endIndex cfg)) as [?|_]; [lia|].
      reflexivity. }
    split; [exact Hboot|]. rewrite Hboot. split; [reflexivity|]. split; [reflexivity|].
    intros [|k io]; reflexivity.
Qed.

Lemma empty_batch_ends_at_once_witness :
  (∀ w, reachable (mkConfig 10 5 3 ∅ ∅ ∅ ["a"; "b"]) noFiles calmEnv w →
        started (sched w) = [] ∧ inflight (sched w) = []
        ∧ current (vars w) = startIndex (mkConfig 10 5 3 ∅ ∅ ∅ ["a"; "b"]))
  ∧ (oracle calmEnv = [] →
     boot (mkConfig 10 5 3 ∅ ∅ ∅ ["a"; "b"]) noFiles calmEnv
     = finishedWorld (mkConfig 10 5 3 ∅ ∅ ∅ ["a"; "b"])
         (initialWorld (mkConfig 10 5 3 ∅ ∅ ∅ ["a"; "b"]) noFiles calmEnv)
     ∧ phase (sched (boot (mkConfig 10 5 3 ∅ ∅ ∅ ["a"; "b"]) noFiles calmEnv)) = Finished
     ∧ resumeHint (sched (boot (mkConfig 10 5 3 ∅ ∅ ∅ ["a"; "b"]) noFiles calmEnv))
       = hintOf (mkConfig 10 5 3 ∅ ∅ ∅ ["a"; "b"])
           (startIndex (mkConfig 10 5 3 ∅ ∅ ∅ ["a"; "b"]))
     ∧ ∀ ev, step (mkConfig 10 5 3 ∅ ∅ ∅ ["a"; "b"]) ev
               (boot (mkConfig 10 5 3 ∅ ∅ ∅ ["a"; "b"]) noFiles calmEnv) = None).
Proof.
  apply (empty_batch_ends_at_once (mkConfig 10 5 3 ∅ ∅ ∅ ["a"; "b"]) noFiles calmEnv).
  vm_compute. discriminate.
Defined.

(** ** Counting outcomes *)

(** X9 (run_dezoomify.js, [processUrl] lines 165-193 with the counters
    of lines 77-78).  In a run in which no file operation throws, every
    call that has settled is counted exactly once: the two counters
    start at the sizes of the two sets read at startup, and their sum
    has grown by the number of settled calls; when a call settles, the
    success counter grows by one if download and move succeeded, the
    failure counter grows by one otherwise, and the other counter
    stays. *)
Theorem every_settled_item_is_counted
    (cfg : Config) (f : Files) (e : Env) (w : World)
    (He : oracle e = []) (Hreach : reachable cfg f e w) :
  successCount (vars w) + failCount (vars w)
  = Z.of_nat (size (dezoomifySuccessSet cfg)) + Z.of_nat (size (failureSet cfg))
    + settledCount w
  ∧ Z.of_nat (size (dezoomifySuccessSet cfg)) ≤ successCount (vars w)
  ∧ Z.of_nat (size (failureSet cfg)) ≤ failCount (vars w)
  ∧ (∀ k io w', step cfg (Settled k io) w = Some w' →
       settledCount w' = settledCount w + 1
       ∧ (failureOf io = None →
          successCount (vars w') = successCount (vars w) + 1
          ∧ failCount (vars w') = failCount (vars w))
       ∧ (failureOf io ≠ None →
          successCount (vars w') = successCount (vars w)
          ∧ failCount (vars w') = failCount (vars w) + 1)).
Proof.
  destruct (reachable_QRun cfg f e w He Hreach) as [Hph Hc Hs Hf _].
  destruct (reachable_QInv cfg f e w He Hreach) as [Hq _].
  split; [exact Hc|]. split; [exact Hs|]. split; [exact Hf|].
  intros k io w' Hstep. unfold step in Hstep.
  assert (Hk : ∃ i url, inflight (sched w) !! k = Some (i, url)
                        ∧ w' = (settle cfg url io (dropPending k w)).2).
  { destruct (phase (sched w)); [| | |done];
      destruct (inflight (sched w) !! k) as [[i url]|]; try discriminate;
      injection Hstep as <-; by exists i, url. }
  destruct Hk as (i & url & Hk & ->).
  assert (Hq' : quiet (dropPending k w)) by (by destruct w).
  assert (Hlen : length (delete k (inflight (sched w)))
                 = (length (inflight (sched w)) - 1)%nat).
  { apply length_delete. by eexists. }
  apply lookup_lt_Some in Hk.
  destruct (failureOf io) as [[error ty]|] eqn:Hio.
  - rewrite (settle_failure_quiet cfg url io _ error ty Hq' Hio).
    destruct w as [fi [sc fc cur act] [infl st p h] en].
    unfold settledCount. cbn in *. split; [lia|]. split; [done|]. intros _. by split.
  - rewrite (settle_success_quiet cfg url io _ Hq' Hio).
    destruct w as [fi [sc fc cur act] [infl st p h] en].
    unfold settledCount. cbn in *. split; [lia|]. split; [intros _; by split | done].
Qed.

Lemma every_settled_item_is_counted_witness :
  ∃ w : World,
    runEvents demoConfig [Settled 1 itemOk; Settled 0 (mkItemIO (Some execError) None)]
      (boot demoConfig noFiles calmEnv) = Some w
    ∧ successCount (vars w) = 1 ∧ failCount (vars w) = 1
    ∧ successCount (vars w) + failCount (vars w)
      = Z.of_nat (size (dezoomifySuccessSet demoConfig))
        + Z.of_nat (size (failureSet demoConfig)) + settledCount w.
Proof.
  eexists. split; [vm_compute; reflexivity|].
  split; [reflexivity|]. split; [reflexivity|].
  apply (every_settled_item_is_counted demoConfig noFiles calmEnv).
  - reflexivity.
  - apply (runEvents_reachable demoConfig noFiles calmEnv
             [Settled 1 itemOk; Settled 0 (mkItemIO (Some execError) None)]
             (boot demoConfig noFiles calmEnv));
      [apply reach_boot | vm_compute; reflexivity].
Defined.

(** ** The last snapshot *)

(** X10 (run_dezoomify.js, [processUrls] lines 219-234 and
    [saveProgress] lines 126-162).  When a run in which no file operation
    throws has ended, the snapshot on disk is the one of the final
    state: its index is [current], which has reached the end of the
    slice, its counters are the final counters, it reports no active
    download, and its failure statistics are those of the detailed
    record on disk.  Nothing is pending and nothing more happens. *)
Theorem final_snapshot_is_accurate
    (cfg : Config) (f : Files) (e : Env) (w : World)
    (He : oracle e = []) (Hreach : reachable cfg f e w)
    (Hend : phase (sched w) = Finished) :
  ∃ p : Progress.t,
    progressFile (files w) = Some p
    ∧ Progress.lastProcessedIndex p = current (vars w)
    ∧ endIndex cfg ≤ Progress.lastProcessedIndex p
    ∧ Progress.successCount p = successCount (vars w)
    ∧ Progress.failCount p = failCount (vars w)
    ∧ Progress.activeDownloads p = 0
    ∧ Progress.failed (Progress.totalProcessed p) = failureStatsOf (loaded w)
    ∧ inflight (sched w) = []
    ∧ (∀ ev, step cfg ev w = None).
Proof.
  destruct (reachable_QRun cfg f e w He Hreach) as [_ _ _ _ Hsnap].
  destruct (reachable_QInv cfg f e w He Hreach) as [_ Hn].
  destruct (pi_finished _ _ (reachable_PhaseInv cfg f e w Hreach) Hend) as (Hge & Hact & _).
  destruct (Hsnap Hend) as [now Hp].
  assert (Hnil : inflight (sched w) = []).
  { destruct (inflight (sched w)); [reflexivity|]. cbn in Hn. lia. }
  exists (snapshotOf cfg (vars w) (loaded w) now).
  split; [exact Hp|]. split; [reflexivity|]. split; [exact Hge|].
  split; [reflexivity|]. split; [reflexivity|].
  split; [cbn; rewrite Hn, Hnil; reflexivity|]. split; [reflexivity|].
  split; [exact Hnil|].
  intros [|k io]; unfold step; rewrite Hend; [reflexivity|]. by rewrite Hnil, lookup_nil.
Qed.

Lemma final_snapshot_is_accurate_witness :
  ∃ w : World,
    runEvents sliceConfig [Settled 0 itemOk; Settled 0 itemOk; Timer]
      (boot sliceConfig noFiles calmEnv) = Some w
    ∧ ∃ p : Progress.t,
        progressFile (files w) = Some p
        ∧ Progress.lastProcessedIndex p = current (vars w)
        ∧ endIndex sliceConfig ≤ Progress.lastProcessedIndex p
        ∧ Progress.successCount p = successCount (vars w)
        ∧ Progress.failCount p = failCount (vars w)
        ∧ Progress.activeDownloads p = 0
        ∧ Progress.failed (Progress.totalProcessed p) = failureStatsOf (loaded w)
        ∧ inflight (sched w) = []
        ∧ (∀ ev, step sliceConfig ev w = None).
Proof.
  eexists. split; [vm_compute; reflexivity|].
  apply (final_snapshot_is_accurate sliceConfig noFiles calmEnv).
  - reflexivity.
  - apply (runEvents_reachable sliceConfig noFiles calmEnv
             [Settled 0 itemOk; Settled 0 itemOk; Timer]
             (boot sliceConfig noFiles calmEnv));
      [apply reach_boot | vm_compute; reflexivity].
  - vm_compute. reflexivity.
Defined.

(** ** Every quiet run can end *)

Lemma runEvents_app cfg evs1 evs2 w w1 :
  runEvents cfg evs1 w = Some w1 →
  runEvents cfg (evs1 ++ evs2) w = runEvents cfg evs2 w1.
Proof.
  revert w. induction evs1 as [|ev evs1 IH]; intros w Hrun; cbn in *.
  - by injection Hrun as ->.
  - destruct (step cfg ev w) as [w'|]; [by apply IH | discriminate].
Qed.

(** Once every downloader has ended, nothing is pending. *)
Lemma settle_all cfg w :
  QInv w → phase (sched w) ≠ Exited →
  ∃ evs w',
    runEvents cfg evs w = Some w'
    ∧ QInv w'
    ∧ inflight (sched w') = []
    ∧ phase (sched w') = phase (sched w)
    ∧ current (vars w') = current (vars w).
Proof.
  remember (length (inflight (sched w))) as n eqn:Hn. revert w Hn.
  induction n as [|n IH]; intros w Hn HQ Hph.
  - exists [], w. split; [reflexivity|]. split; [exact HQ|].
    split; [by apply nil_length_inv | done].
  - destruct (inflight (sched w)) as [|[i url] rest] eqn:Hin; [discriminate|].
    set (w1 := (settle cfg url itemOk (dropPending 0 w)).2).
    assert (Hk : inflight (sched w) !! 0%nat = Some (i, url)) by (by rewrite Hin).
    assert (Hstep : step cfg (Settled 0 itemOk) w = Some w1).
    { unfold step. rewrite Hk. by destruct (phase (sched w)). }
    destruct (settle_control cfg url itemOk (dropPending 0 w)) as (_ & Hs & Hc & _).
    fold w1 in Hs, Hc.
    assert (Hin1 : inflight (sched w1) = rest).
    { rewrite Hs. destruct w as [fi v [infl st p h] en]. cbn in *. by subst infl. }
    assert (Hp1 : phase (sched w1) = phase (sched w))
      by (rewrite Hs; by destruct w as [fi v [infl st p h] en]).
    assert (Hc1 : current (vars w1) = current (vars w))
      by (rewrite Hc; by destruct w as [fi v [infl st p h] en]).
    destruct (IH w1) as (evs & w' & Hrun & HQ' & Hnil & Hp' & Hc').
    + rewrite Hin1. cbn in Hn. lia.
    + by apply (settle_QInv cfg 0 i).
    + by rewrite Hp1.
    + exists (Settled 0 itemOk :: evs), w'. cbn [runEvents]. rewrite Hstep.
      split; [exact Hrun|]. split; [exact HQ'|]. split; [exact Hnil|].
      split; congruence.
Qed.

(** With nothing pending and nothing left to start, the next timer ends
    the run. *)
Lemma timer_ends cfg w :
  QInv w → inflight (sched w) = [] →
  phase (sched w) = Draining
  ∨ phase (sched w) = Dispatching ∧ endIndex cfg ≤ current (vars w) →
  ∃ w', step cfg Timer w = Some w' ∧ phase (sched w') = Finished.
Proof.
  intros [Hq Ha] Hnil Hcase. rewrite Hnil in Ha. cbn in Ha.
  exists (finishedWorld cfg w). split; [|reflexivity].
  assert (Hidle : idleWorld cfg w = finishedWorld cfg w)
    by (unfold idleWorld; by rewrite Ha).
  unfold step. destruct Hcase as [Hd|[Hd Hge]]; rewrite Hd, (processUrls_quiet cfg w Hq), Hd.
  - by rewrite Hidle.
  - destruct (Z.ltb_spec (current (vars w)) (endIndex cfg)); [lia | by rewrite Hidle].
Qed.

(** With nothing pending and positions left, the next timer starts at
    least one call. *)
Lemma timer_advances cfg w :
  0 < maxConcurrent cfg → QInv w → inflight (sched w) = [] →
  phase (sched w) = Dispatching → current (vars w) < endIndex cfg →
  ∃ w', step cfg Timer w = Some w'
        ∧ QInv w' ∧ phase (sched w') = Dispatching
        ∧ current (vars w) < current (vars w').
Proof.
  intros Hmax HQ Hnil Hd Hlt. pose proof HQ as [Hq Ha]. rewrite Hnil in Ha. cbn in Ha.
  exists (innerLoopFrom cfg (Z.to_nat (endIndex cfg - current (vars w))) w).2.
  destruct (innerLoopFrom_spec cfg (Z.to_nat (endIndex cfg - current (vars w))) w)
    as (_ & _ & HQ' & _ & _ & Hp & _).
  destruct (innerLoopFrom_counts cfg (Z.to_nat (endIndex cfg - current (vars w))) w)
    as (_ & _ & _ & _ & Hgrow).
  split; [|split; [by apply HQ'|split; [by rewrite Hp|]]].
  - unfold step. rewrite Hd, (processUrls_quiet cfg w Hq), Hd.
    by destruct (Z.ltb_spec (current (vars w)) (endIndex cfg)); [|lia].
  - apply Hgrow; [|lia]. unfold canLaunch. rewrite Ha.
    apply andb_true_iff. split; by apply Z.ltb_lt.
Qed.

Lemma can_finish cfg (n : nat) w :
  0 < maxConcurrent cfg →
  (Z.to_nat (endIndex cfg - current (vars w)) ≤ n)%nat →
  QInv w → phase (sched w) ≠ Exited →
  ∃ evs w', runEvents cfg evs w = Some w' ∧ phase (sched w') = Finished.
Proof.
  intros Hmax. revert w. induction n as [|n IH]; intros w Hm HQ Hph;
    destruct (settle_all cfg w HQ Hph) as (evs & w1 & Hrun & HQ1 & Hnil & Hp1 & Hc1);
    destruct (phase (sched w1)) eqn:Hphase1.
  all: try (exists evs, w1; by split).
  all: try (rewrite <- Hp1 in Hph; done).
  all: try (destruct (timer_ends cfg w1 HQ1 Hnil) as (w2 & Hstep & Hfin); [by left|];
            exists (evs ++ [Timer])%list, w2;
            rewrite (runEvents_app _ _ _ _ _ Hrun); cbn [runEvents]; by rewrite Hstep).
  - destruct (timer_ends cfg w1 HQ1 Hnil) as (w2 & Hstep & Hfin); [right; split; [done|lia]|].
    exists (evs ++ [Timer])%list, w2.
    rewrite (runEvents_app _ _ _ _ _ Hrun). cbn [runEvents]. by rewrite Hstep.
  - destruct (Z.lt_ge_cases (current (vars w1)) (endIndex cfg)) as [Hlt|Hge].
    + destruct (timer_advances cfg w1 Hmax HQ1 Hnil Hphase1 Hlt)
        as (w2 & Hstep & HQ2 & Hp2 & Hgrow).
      destruct (IH w2) as (evs2 & w3 & Hrun2 & Hfin); [lia | exact HQ2 | by rewrite Hp2 |].
      exists (evs ++ Timer :: evs2)%list, w3.
      rewrite (runEvents_app _ _ _ _ _ Hrun). cbn [runEvents]. by rewrite Hstep.
    + destruct (timer_ends cfg w1 HQ1 Hnil) as (w2 & Hstep & Hfin); [right; by split|].
      exists (evs ++ [Timer])%list, w2.
      rewrite (runEvents_app _ _ _ _ _ Hrun). cbn [runEvents]. by rewrite Hstep.
Qed.

(** X11 (run_dezoomify.js, [processUrls] lines 196-235 with
    [processUrl]).  With a positive limit, a run in which no file
    operation throws never ends by [process.exit(1)], and from every
    state it can be brought to its end: once the pending downloaders
    have ended, the next timers start the remaining positions and then
    return from [processUrls]. *)
Theorem quiet_run_can_finish
    (cfg : Config) (f : Files) (e : Env) (w : World)
    (He : oracle e = []) (Hmax : 0 < maxConcurrent cfg)
    (Hreach : reachable cfg f e w) :
  phase (sched w) ≠ Exited
  ∧ ∃ (evs : list Event) (w' : World),
      runEvents cfg evs w = Some w'
      ∧ reachable cfg f e w'
      ∧ phase (sched w') = Finished.
Proof.
  destruct (reachable_QRun cfg f e w He Hreach) as [Hph _ _ _ _].
  split; [exact Hph|].
  destruct (can_finish cfg (Z.to_nat (endIndex cfg - current (vars w))) w Hmax
              ltac:(lia) (reachable_QInv cfg f e w He Hreach) Hph)
    as (evs & w' & Hrun & Hfin).
  exists evs, w'. split; [exact Hrun|]. split; [by eapply runEvents_reachable | exact Hfin].
Qed.

Lemma quiet_run_can_finish_witness :
  phase (sched (boot demoConfig noFiles calmEnv)) ≠ Exited
  ∧ ∃ (evs : list Event) (w' : World),
      runEvents demoConfig evs (boot demoConfig noFiles calmEnv) = Some w'
      ∧ reachable demoConfig noFiles calmEnv w'
      ∧ phase (sched w') = Finished.
Proof.
  apply (quiet_run_can_finish demoConfig noFiles calmEnv).
  - reflexivity.
  - vm_compute. reflexivity.
  - apply reach_boot.
Defined.

(** ** The statistics of a snapshot *)

Lemma sumCounts_insert (m : gmap string Z) t v :
  sumCounts (<[t := v]> m) = v + sumCounts (delete t m).
Proof.
  unfold sumCounts. rewrite <- insert_delete_eq.
  apply (map_fold_insert_L (fun _ n acc => n + acc)); [intros; lia | apply lookup_delete_eq].
Qed.

Lemma sumCounts_delete (m : gmap string Z) t :
  sumCounts m = default 0 (m !! t) + sumCounts (delete t m).
Proof.
  destruct (m !! t) as [x|] eqn:Ht; cbn.
  - unfold sumCounts. by apply (map_fold_delete_L (fun _ n acc => n + acc)); [intros; lia|].
  - by rewrite delete_id.
Qed.

Lemma foldl_sumCounts (values : list FailureRecord) (acc : gmap string Z) :
  sumCounts (foldl (fun acc curr => <[type curr := or0 (default 0 (acc !! type curr)) + 1]> acc)
               acc values)
  = sumCounts acc + Z.of_nat (length values).
Proof.
  revert acc. induction values as [|r values IH]; intros acc; cbn [foldl length].
  - lia.
  - rewrite IH, sumCounts_insert, or0_id, (sumCounts_delete acc (type r)). lia.
Qed.

Lemma countByType_sum (values : list FailureRecord) :
  sumCounts (countByType values) = Z.of_nat (length values).
Proof.
  unfold countByType. rewrite foldl_sumCounts. unfold sumCounts. by rewrite map_fold_empty.
Qed.

Lemma filter_bool_decide {A} (P : A → Prop) `{!∀ x, Decision (P x)} (l : list A) :
  List.filter (fun x => bool_decide (P x)) l = filter P l.
Proof.
  induction l as [|x l IH]; [reflexivity|]. cbn [List.filter]. rewrite filter_cons, IH.
  by case_bool_decide; case_decide.
Qed.

Lemma filter_bool_decide_neg {A} (P : A → Prop) `{!∀ x, Decision (P x)} (l : list A) :
  List.filter (fun x => negb (bool_decide (P x))) l = filter (fun x => ¬ P x) l.
Proof.
  induction l as [|x l IH]; [reflexivity|]. cbn [List.filter]. rewrite filter_cons, IH.
  by case_bool_decide; case_decide.
Qed.

(** Counting the members of one set that are in another gives the size
    of the intersection. *)
Lemma count_both (X Y : gset string) :
  length (List.filter (fun url => bool_decide (url ∈ Y)) (elements X)) = size (X ∩ Y).
Proof.
  rewrite (filter_bool_decide (fun url => url ∈ Y)). unfold size, set_size. cbn.
  apply Permutation_length, NoDup_Permutation.
  - apply NoDup_filter, NoDup_elements.
  - apply NoDup_elements.
  - intros x. rewrite list_elem_of_filter, !elem_of_elements, elem_of_intersection. tauto.
Qed.

(** X12 (run_dezoomify.js, [saveProgress] lines 126-162).  When its
    file operations succeed, [saveProgress] writes a snapshot whose
    statistics agree with each other and with the detailed record: the
    total is the number of recorded URLs, the count of each type is the
    number of records of that type (no property for a type without
    record), the counts by type add up to the total, the number of URLs
    with several attempts does not pass the total, and [completedBoth] is
    the size of the intersection of the two success sets.  It changes
    neither log, no variable and no pending call. *)
Theorem snapshot_statistics_agree (cfg : Config) (w : World) (Hq : quiet w) :
  ∃ (w' : World) (p : Progress.t),
    saveProgress cfg w = (Ok tt, w')
    ∧ progressFile (files w') = Some p
    ∧ same_logs w w' ∧ vars w' = vars w ∧ sched w' = sched w
    ∧ Progress.lastProcessedIndex p = current (vars w)
    ∧ Progress.activeDownloads p = activeDownloads (vars w)
    ∧ Progress.totalUrls p = Z.of_nat (length (urls cfg))
    ∧ Progress.total (Progress.failed (Progress.totalProcessed p))
      = Z.of_nat (size (loaded w))
    ∧ (∀ t, Progress.byType (Progress.failed (Progress.totalProcessed p)) !! t
            = countCell (typeCount t (map_to_list (loaded w)).*2))
    ∧ sumCounts (Progress.byType (Progress.failed (Progress.totalProcessed p)))
      = Progress.total (Progress.failed (Progress.totalProcessed p))
    ∧ 0 ≤ Progress.multipleAttempts (Progress.failed (Progress.totalProcessed p))
        ≤ Progress.total (Progress.failed (Progress.totalProcessed p))
    ∧ Progress.completedBoth (Progress.totalProcessed p)
      = Z.of_nat (size (dezoomifySuccessSet cfg ∩ extractSuccessSet cfg))
    ∧ Progress.completedBoth (Progress.totalProcessed p)
      ≤ Z.min (Progress.dezoomifySuccess (Progress.totalProcessed p))
              (Progress.extractSuccess (Progress.totalProcessed p)).
Proof.
  eexists. eexists. split; [by apply saveProgress_quiet|].
  cbn [files progressFile vars sched].
  split; [reflexivity|]. split; [by destruct w as [[] [] [] []]|].
  split; [reflexivity|]. split; [reflexivity|].
  cbn [snapshotOf Progress.lastProcessedIndex Progress.activeDownloads Progress.totalUrls
       Progress.totalProcessed Progress.failed Progress.completedBoth
       Progress.dezoomifySuccess Progress.extractSuccess].
  split; [reflexivity|]. split; [reflexivity|]. split; [reflexivity|].
  unfold failureStatsOf.
  cbn [Progress.total Progress.byType Progress.multipleAttempts].
  assert (Hlen : length (map_to_list (loaded w)).*2 = size (loaded w))
    by (by rewrite length_fmap, length_map_to_list).
  split; [reflexivity|]. split; [intros t; apply countByType_lookup|].
  split; [by rewrite countByType_sum, Hlen|].
  split.
  - split; [lia|]. rewrite <- Hlen. apply inj_le, List.filter_length_le.
  - rewrite count_both. split; [reflexivity|].
    apply Z.min_glb; apply inj_le, subseteq_size.
    + apply intersection_subseteq_l.
    + apply intersection_subseteq_r.
Qed.

Lemma snapshot_statistics_agree_witness :
  ∃ (w' : World) (p : Progress.t),
    saveProgress demoConfig twiceFailed = (Ok tt, w')
    ∧ progressFile (files w') = Some p
    ∧ same_logs twiceFailed w' ∧ vars w' = vars twiceFailed ∧ sched w' = sched twiceFailed
    ∧ Progress.lastProcessedIndex p = current (vars twiceFailed)
    ∧ Progress.activeDownloads p = activeDownloads (vars twiceFailed)
    ∧ Progress.totalUrls p = Z.of_nat (length (urls demoConfig))
    ∧ Progress.total (Progress.failed (Progress.totalProcessed p))
      = Z.of_nat (size (loaded twiceFailed))
    ∧ (∀ t, Progress.byType (Progress.failed (Progress.totalProcessed p)) !! t
            = countCell (typeCount t (map_to_list (loaded twiceFailed)).*2))
    ∧ sumCounts (Progress.byType (Progress.failed (Progress.totalProcessed p)))
      = Progress.total (Progress.failed (Progress.totalProcessed p))
    ∧ 0 ≤ Progress.multipleAttempts (Progress.failed (Progress.totalProcessed p))
        ≤ Progress.total (Progress.failed (Progress.totalProcessed p))
    ∧ Progress.completedBoth (Progress.totalProcessed p)
      = Z.of_nat (size (dezoomifySuccessSet demoConfig ∩ extractSuccessSet demoConfig))
    ∧ Progress.completedBoth (Progress.totalProcessed p)
      ≤ Z.min (Progress.dezoomifySuccess (Progress.totalProcessed p))
              (Progress.extractSuccess (Progress.totalProcessed p)).
Proof.
  apply (snapshot_statistics_agree demoConfig twiceFailed). vm_compute. reflexivity.
Defined.

(** ** A detailed record that cannot be read *)

(** X13 (run_dezoomify.js, [logFailure] lines 102-123).  When the
    detailed failure record exists but cannot be used (its text does not
    parse, or reading it throws), [logFailure] starts from the empty
    object: the file it writes holds the new entry alone, with one
    attempt, and every entry the file held before is gone. *)
Theorem unreadable_record_starts_fresh
    (url : string) (error : Error) (ty : string) (w : World)
    (Hbroken :
       detailedFailureLogFile (files w) = Unparsable ∧ oracle (env w) = []
       ∨ ∃ (m : gmap string FailureRecord) (readError : Error),
           detailedFailureLogFile (files w) = Parsed m
           ∧ oracle (env w) = [None; Some readError]) :
  ∃ (w' : World) (r : FailureRecord),
    logFailure url error ty w = (Ok tt, w')
    ∧ detailedFailureLogFile (files w') = Parsed {[url := r]}
    ∧ attempts r = 1
    ∧ type r = ty
    ∧ failureLogFile (files w')
      = appendText (failureLogFile (files w))
          (logLine (clock (env w) (S (ticks (env w)))) url).
Proof.
  destruct w as [[sl fl det pr] v s [o c t]]. cbn in Hbroken.
  destruct Hbroken as [[-> ->]|(m & readError & -> & ->)].
  - eexists. eexists. split; [unfold logFailure; run_step; reflexivity|]. split.
    + cbn. rewrite insert_empty. reflexivity.
    + by repeat split.
  - eexists. eexists. split; [unfold logFailure; run_step; reflexivity|]. split.
    + cbn. rewrite insert_empty. reflexivity.
    + by repeat split.
Qed.

Lemma unreadable_record_starts_fresh_witness :
  ∃ (w' : World) (r : FailureRecord),
    logFailure "b" moveError "move_failure"
      (with_env (fun _ => mkEnv [None; Some diskError] (clock calmEnv) 0) twiceFailed)
    = (Ok tt, w')
    ∧ detailedFailureLogFile (files w') = Parsed {["b" := r]}
    ∧ attempts r = 1
    ∧ type r = "move_failure"
    ∧ failureLogFile (files w')
      = appendText
          (failureLogFile
             (files (with_env (fun _ => mkEnv [None; Some diskError] (clock calmEnv) 0)
                       twiceFailed)))
          (logLine
             (clock (env (with_env (fun _ => mkEnv [None; Some diskError] (clock calmEnv) 0)
                            twiceFailed))
                (S (ticks (env (with_env
                                  (fun _ => mkEnv [None; Some diskError] (clock calmEnv) 0)
                                  twiceFailed)))))
             "b").
Proof.
  apply (unreadable_record_starts_fresh "b" moveError "move_failure"
           (with_env (fun _ => mkEnv [None; Some diskError] (clock calmEnv) 0) twiceFailed)).
  right. eexists. exists diskError. split; vm_compute; reflexivity.
Defined.

(** ** What the outcome of an item means for the next run *)

(** X14 (run_dezoomify.js, [processUrl] lines 173-189 with the startup
    code of lines 40-75).  The outcome a run logs for an item decides
    the queue of the next run.  Assumed: the item is a candidate as
    [readUrls] delivers it, no file operation throws, both logs ended
    with a line break and the timestamps hold neither bar nor line
    break.  If the URL holds no bar: an item logged as failed is in the
    next failure set and in no later queue, whatever the other logs say;
    an item logged as downloaded is in the next success set, is left out
    once the validator's log holds it too, and otherwise, if it is still
    a candidate and had not failed before, is in the queue again.  If
    the URL holds a bar, no log ever gives it back: it is in neither set
    of the next run and, while it is a candidate, in the queue again,
    whatever its outcome was. *)
Theorem outcome_decides_next_queue
    (cfg : Config) (url : string) (io : ItemIO) (w : World)
    (bs si mc : Z) (input extract : option string) (cfg' : Config)
    (candidates : string)
    (Hq : quiet w)
    (Hfl : endsWithNewline (failureLogFile (files w)))
    (Hsl : endsWithNewline (successLogFile (files w)))
    (Hts0 : cleanStamp (clock (env w) (ticks (env w))))
    (Hts1 : cleanStamp (clock (env w) (S (ticks (env w)))))
    (Hurl : url ∈ readUrls candidates)
    (Hcfg : configure bs si mc input extract (files (settle cfg url io w).2) = Some cfg') :
  (lacks bar url = true →
     (failureOf io ≠ None → url ∈ failureSet cfg' ∧ url ∉ urls cfg')
     ∧ (failureOf io = None →
        url ∈ dezoomifySuccessSet cfg'
        ∧ (url ∈ readLog extract → url ∉ urls cfg')
        ∧ (∀ text, input = Some text → url ∈ readUrls text →
             url ∉ readLog extract → url ∉ readLog (failureLogFile (files w)) →
             url ∈ urls cfg')))
  ∧ (lacks bar url = false →
       (url ∉ failureSet cfg')
       ∧ (url ∉ dezoomifySuccessSet cfg')
       ∧ (∀ text, input = Some text → url ∈ readUrls text → url ∈ urls cfg')).
Proof.
  destruct (readUrls_clean candidates url Hurl) as (Hne & Hnl & Htrim).
  split.
  - intros Hbar. assert (Hclean : cleanEntry url) by (by split).
    split.
    + destruct (failureOf io) as [[error ty]|] eqn:Hio; [intros _|done].
      by apply (failed_item_is_left_out cfg url io error ty w Hq Hio Hfl Hts1 Hclean
                  bs si mc input extract).
    + intros Hio.
      by apply (downloaded_item_next_run cfg url io w Hq Hio Hsl Hts0 Hclean
                  bs si mc input extract).
  - intros Hbar.
    destruct (configure_spec _ _ _ _ _ _ _ Hcfg) as (text & -> & Hdz & _ & Hfs & Hurls).
    rewrite Hfs, Hdz, Hurls.
    split; [by apply barred_not_logged|]. split; [by apply barred_not_logged|].
    intros text' [= <-] Hcand. apply elem_of_workQueue.
    split; [exact Hcand|]. split; [by apply barred_not_logged|].
    rewrite elem_of_intersection. intros [Hin _]. by apply (barred_not_logged _ _ Hbar Hin).
Qed.

Lemma outcome_decides_next_queue_witness :
  (∃ cfg' : Config,
     configure 10 0 3 (Some (unlines ["a"; "b"; "c"])) None
       (files (settle demoConfig "a" (mkItemIO None (Some moveError))
                 (boot demoConfig noFiles calmEnv)).2) = Some cfg'
     ∧ urls cfg' = ["b"; "c"]
     ∧ (lacks bar "a" = true →
          (failureOf (mkItemIO None (Some moveError)) ≠ None →
           "a" ∈ failureSet cfg' ∧ "a" ∉ urls cfg')
          ∧ (failureOf (mkItemIO None (Some moveError)) = None →
             "a" ∈ dezoomifySuccessSet cfg'
             ∧ ("a" ∈ readLog None → "a" ∉ urls cfg')
             ∧ (∀ text, Some (unlines ["a"; "b"; "c"]) = Some text → "a" ∈ readUrls text →
                  "a" ∉ readLog None →
                  "a" ∉ readLog (failureLogFile (files (boot demoConfig noFiles calmEnv))) →
                  "a" ∈ urls cfg')))
     ∧ (lacks bar "a" = false →
          ("a" ∉ failureSet cfg')
          ∧ ("a" ∉ dezoomifySuccessSet cfg')
          ∧ (∀ text, Some (unlines ["a"; "b"; "c"]) = Some text → "a" ∈ readUrls text →
               "a" ∈ urls cfg')))
  ∧ (∃ cfg' : Config,
       configure 10 0 3 (Some (unlines ["x|y"; "c"])) None
         (files (settle barredConfig "x|y" (mkItemIO None (Some moveError))
                   (boot barredConfig noFiles calmEnv)).2) = Some cfg'
       ∧ urls cfg' = ["x|y"; "c"]
       ∧ (lacks bar "x|y" = true →
            (failureOf (mkItemIO None (Some moveError)) ≠ None →
             "x|y" ∈ failureSet cfg' ∧ "x|y" ∉ urls cfg')
            ∧ (failureOf (mkItemIO None (Some moveError)) = None →
               "x|y" ∈ dezoomifySuccessSet cfg'
               ∧ ("x|y" ∈ readLog None → "x|y" ∉ urls cfg')
               ∧ (∀ text, Some (unlines ["x|y"; "c"]) = Some text → "x|y" ∈ readUrls text →
                    "x|y" ∉ readLog None →
                    "x|y" ∉ readLog (failureLogFile
                                       (files (boot barredConfig noFiles calmEnv))) →
                    "x|y" ∈ urls cfg')))
       ∧ (lacks bar "x|y" = false →
            ("x|y" ∉ failureSet cfg')
            ∧ ("x|y" ∉ dezoomifySuccessSet cfg')
            ∧ (∀ text, Some (unlines ["x|y"; "c"]) = Some text → "x|y" ∈ readUrls text →
                 "x|y" ∈ urls cfg'))).
Proof.
  split.
  - eexists. split; [vm_compute; reflexivity|]. split; [vm_compute; reflexivity|].
    apply (outcome_decides_next_queue demoConfig "a" (mkItemIO None (Some moveError))
             (boot demoConfig noFiles calmEnv)
             10 0 3 (Some (unlines ["a"; "b"; "c"])) None _ (unlines ["a"; "b"; "c"])).
    + reflexivity.
    + exists []. reflexivity.
    + exists []. reflexivity.
    + split; vm_compute; reflexivity.
    + split; vm_compute; reflexivity.
    + vm_compute. apply list_elem_of_here.
    + vm_compute. reflexivity.
  - eexists. split; [vm_compute; reflexivity|]. split; [vm_compute; reflexivity|].
    apply (outcome_decides_next_queue barredConfig "x|y" (mkItemIO None (Some moveError))
             (boot barredConfig noFiles calmEnv)
             10 0 3 (Some (unlines ["x|y"; "c"])) None _ (unlines ["x|y"; "c"])).
    + reflexivity.
    + exists []. reflexivity.
    + exists []. reflexivity.
    + split; vm_compute; reflexivity.
    + split; vm_compute; reflexivity.
    + vm_compute. apply list_elem_of_here.
    + vm_compute. reflexivity.
Defined.

(** * The validator *)

(** ** The corrected URL *)

Lemma prefix_cons_same a p s : String.prefix (String a p) (String a s) = String.prefix p s.
Proof. cbn [String.prefix]. by destruct (ascii_dec a a). Qed.

Lemma length_append (a b : string) :
  String.length (a ++ b) = (String.length a + String.length b)%nat.
Proof. induction a as [|c a IH]; [reflexivity|]. rewrite append_cons. cbn. by rewrite IH. Qed.

Lemma str_drop_add n a s : Str.drop (String.length a + n) (a ++ s) = Str.drop n s.
Proof. induction a as [|c a IH]; [reflexivity|]. rewrite append_cons. exact IH. Qed.

(** The first occurrence of a character after a string without it. *)
Lemma indexOf_char c a b :
  lacks c a = true → Js.indexOf (String c "") (a ++ String c b) = Some (String.length a).
Proof.
  induction a as [|x a IH]; intros Ha.
  - change ("" ++ String c b) with (String c b). cbn [Js.indexOf].
    rewrite prefix_cons_same. by destruct b.
  - rewrite lacks_cons in Ha. apply andb_true_iff in Ha as [Hx Ha].
    rewrite append_cons. cbn [Js.indexOf].
    rewrite prefix_head_differs.
    + rewrite (IH Ha). reflexivity.
    + intros ->. by rewrite Ascii.eqb_refl in Hx.
Qed.

Lemma indexOf_lacks c s : lacks c s = true → Js.indexOf (String c "") s = None.
Proof.
  induction s as [|x s IH]; intros Hs; [reflexivity|].
  rewrite lacks_cons in Hs. apply andb_true_iff in Hs as [Hx Hs].
  cbn [Js.indexOf]. rewrite prefix_head_differs.
  - by rewrite (IH Hs).
  - intros ->. by rewrite Ascii.eqb_refl in Hx.
Qed.

(** The marker does not start inside a string without capital P that is
    followed by the marker. *)
Lemma indexOf_marker base rest :
  lacks "P" base = true →
  Js.indexOf Validator.marker (base ++ Validator.marker ++ rest) = Some (String.length base).
Proof.
  induction base as [|c base IH]; intros Hbase.
  - change ("" ++ Validator.marker ++ rest) with (Validator.marker ++ rest).
    destruct (Validator.marker ++ rest) eqn:Hm; [discriminate|].
    cbn [Js.indexOf]. rewrite <- Hm. by rewrite prefix_append.
  - rewrite lacks_cons in Hbase. apply andb_true_iff in Hbase as [Hc Hbase].
    rewrite append_cons. cbn [Js.indexOf].
    assert (Hno : String.prefix Validator.marker
                    (String c (base ++ Validator.marker ++ rest)) = false).
    { unfold Validator.marker at 1.
      destruct (ascii_dec "/" c) as [<-|Hne]; [|by apply prefix_head_differs].
      rewrite prefix_cons_same. destruct base as [|d base].
      - reflexivity.
      - rewrite append_cons. apply prefix_head_differs. intros <-.
        rewrite lacks_cons in Hbase. by cbn in Hbase. }
    rewrite Hno, (IH Hbase). reflexivity.
Qed.

(** The corrected URL of a product URL of the expected shape. *)
Lemma correctedUrl_wellformed base word rest zoomlinkId :
  lacks "P" base = true → lacks "-" word = true →
  Validator.correctedUrl (base ++ Validator.marker ++ word ++ String "-" rest) zoomlinkId
  = Ok (urlPrefix ++ zoomlinkId ++ String "-" rest ++ urlSuffix).
Proof.
  intros Hbase Hword. unfold Validator.correctedUrl.
  rewrite (indexOf_marker base _ Hbase).
  change (Validator.marker ++ word ++ String "-" rest)
    with ("/P/AntiqueMap" ++ String "/" word ++ String "-" rest).
  rewrite str_drop_add.
  change 13%nat with (String.length "/P/AntiqueMap"). rewrite !drop_append.
  rewrite (indexOf_char "-" (String "/" word) rest)
    by (rewrite lacks_cons; by rewrite Hword).
  cbv beta iota zeta. by rewrite drop_append.
Qed.

(** [indexOf] finds nothing exactly in the strings that do not hold the
    pattern. *)
Lemma indexOf_None pat s :
  Js.indexOf pat s = None ↔ ∀ a b : string, s ≠ a ++ pat ++ b.
Proof.
  split.
  - induction s as [|c s IH]; cbn [Js.indexOf].
    + destruct (String.prefix pat "") eqn:Hp; [discriminate|]. intros _ a b Hab.
      destruct a; [|discriminate].
      change ("" ++ pat ++ b) with (pat ++ b) in Hab.
      by rewrite Hab, prefix_append in Hp.
    + destruct (String.prefix pat (String c s)) eqn:Hp; [discriminate|].
      destruct (Js.indexOf pat s) as [i|] eqn:Hi; [discriminate|]. intros _ a b Hab.
      destruct a as [|c' a].
      * change ("" ++ pat ++ b) with (pat ++ b) in Hab.
        by rewrite Hab, prefix_append in Hp.
      * rewrite append_cons in Hab. injection Hab as _ Hab. by apply (IH eq_refl a b).
  - induction s as [|c s IH]; intros Habs; cbn [Js.indexOf].
    + destruct (String.prefix pat "") eqn:Hp; [|reflexivity].
      destruct (prefix_inv _ _ Hp) as [r Hr]. by destruct (Habs "" r).
    + destruct (String.prefix pat (String c s)) eqn:Hp.
      * destruct (prefix_inv _ _ Hp) as [r Hr]. by destruct (Habs "" r).
      * rewrite IH; [reflexivity|]. intros a b ->. by apply (Habs (String c a) b).
Qed.

(** X15 (extract_zoomify.js, [processUrl] lines 200-215).  For a product
    URL made of a site address without capital P, the marker
    [/P/AntiqueMap/] and a map name whose part before the first dash is
    [word], the corrected URL replaces [word] by the identifier found on
    the page, and wraps the result in the Zoomify prefix and suffix;
    when the map name has no dash the item fails with "missing dash".
    Any URL at all fails with "missing /P/AntiqueMap/" exactly if the
    marker occurs nowhere in it.  The offset 13 (one less than the
    length of the marker) changes nothing: the slash it leaves is not a
    dash. *)
Theorem corrected_url_replaces_the_prefix
    (base word rest zoomlinkId url : string)
    (Hbase : lacks "P" base = true) (Hword : lacks "-" word = true) :
  Validator.correctedUrl (base ++ Validator.marker ++ word ++ String "-" rest) zoomlinkId
  = Ok (urlPrefix ++ zoomlinkId ++ String "-" rest ++ urlSuffix)
  ∧ Validator.correctedUrl (base ++ Validator.marker ++ word) zoomlinkId
    = Throw Validator.missingDash
  ∧ (Validator.correctedUrl url zoomlinkId = Throw Validator.missingMarker
     ↔ ∀ a b : string, url ≠ a ++ Validator.marker ++ b).
Proof.
  split; [by apply correctedUrl_wellformed|]. split.
  - assert (Hidx : Js.indexOf Validator.marker (base ++ Validator.marker ++ word)
                   = Some (String.length base)).
    { rewrite <- (append_empty_r word). by apply indexOf_marker. }
    unfold Validator.correctedUrl. rewrite Hidx.
    change (Validator.marker ++ word) with ("/P/AntiqueMap" ++ String "/" word).
    rewrite str_drop_add.
    change 13%nat with (String.length "/P/AntiqueMap"). rewrite !drop_append.
    rewrite indexOf_lacks; [reflexivity|]. rewrite lacks_cons. by rewrite Hword.
  - rewrite <- indexOf_None. unfold Validator.correctedUrl.
    destruct (Js.indexOf Validator.marker url) as [i|]; [|done].
    destruct (Js.indexOf "-" (Str.drop (i + 13) url)); split; discriminate.
Qed.

Lemma corrected_url_replaces_the_prefix_witness :
  (Validator.correctedUrl
     ("https://www.geographicus.com" ++ Validator.marker ++ "paris" ++ String "-" "bonne-1771")
     "Paris"
   = Ok (urlPrefix ++ "Paris" ++ String "-" "bonne-1771" ++ urlSuffix)
   ∧ Validator.correctedUrl ("https://www.geographicus.com" ++ Validator.marker ++ "paris")
       "Paris"
     = Throw Validator.missingDash
   ∧ (Validator.correctedUrl "https://www.geographicus.com/about/contact-us" "Paris"
      = Throw Validator.missingMarker
      ↔ ∀ a b : string,
          "https://www.geographicus.com/about/contact-us" ≠ a ++ Validator.marker ++ b))
  ∧ Validator.correctedUrl "https://www.geographicus.com/about/contact-us" "Paris"
    = Throw Validator.missingMarker.
Proof.
  split; [|vm_compute; reflexivity].
  apply (corrected_url_replaces_the_prefix "https://www.geographicus.com" "paris"
           "bonne-1771" "Paris" "https://www.geographicus.com/about/contact-us");
    vm_compute; reflexivity.
Defined.

(** X16 (extract_zoomify.js lines 200-215 with run_dezoomify.js,
    [sanitizeFilename] lines 33-37).  The file name the downloader
    derives from a URL the validator has built is the map name with its
    first part replaced by the page's identifier: when the identifier
    and the rest of the name hold no slash, the name is their characters
    with every character outside [[A-Za-z0-9_-]] replaced by an
    underscore, and it is the name itself when all its characters are in
    that class. *)
Theorem filename_of_corrected_url
    (base word rest zoomlinkId corrected : string)
    (Hbase : lacks "P" base = true) (Hword : lacks "-" word = true)
    (Hid : lacks "/" zoomlinkId = true) (Hrest : lacks "/" rest = true)
    (Hcorr : Validator.correctedUrl (base ++ Validator.marker ++ word ++ String "-" rest)
               zoomlinkId = Ok corrected) :
  sanitizeFilename corrected = Str.map sanitizeChar (zoomlinkId ++ String "-" rest)
  ∧ (Str.forallb in_class (zoomlinkId ++ String "-" rest) = true →
     sanitizeFilename corrected = zoomlinkId ++ String "-" rest
     ∧ finalOutputPath corrected
       = path_join outputDir (zoomlinkId ++ String "-" rest ++ ".jpg")).
Proof.
  rewrite (correctedUrl_wellformed base word rest zoomlinkId Hbase Hword) in Hcorr.
  injection Hcorr as <-.
  assert (Hname : sanitizeFilename (urlPrefix ++ zoomlinkId ++ String "-" rest ++ urlSuffix)
                  = Str.map sanitizeChar (zoomlinkId ++ String "-" rest)).
  { replace (urlPrefix ++ zoomlinkId ++ String "-" rest ++ urlSuffix)
      with (urlPrefix ++ (zoomlinkId ++ String "-" rest) ++ urlSuffix).
    - apply sanitizeFilename_wellformed. rewrite lacks_append, Hid, lacks_cons, Hrest.
      reflexivity.
    - by rewrite append_assoc. }
  split; [exact Hname|]. intros Hclass.
  assert (Hid' : ∀ s, Str.forallb in_class s = true → Str.map sanitizeChar s = s).
  { induction s as [|c s IH]; [reflexivity|]. cbn [Str.forallb Str.map].
    intros Hs. apply andb_true_iff in Hs as [Hc Hs]. rewrite (IH Hs).
    unfold sanitizeChar. by rewrite Hc. }
  unfold finalOutputPath. rewrite Hname, (Hid' _ Hclass).
  split; [reflexivity|]. by rewrite append_assoc.
Qed.

Lemma filename_of_corrected_url_witness :
  sanitizeFilename (urlPrefix ++ "Paris" ++ String "-" "bonne-1771" ++ urlSuffix)
  = Str.map sanitizeChar ("Paris" ++ String "-" "bonne-1771")
  ∧ (Str.forallb in_class ("Paris" ++ String "-" "bonne-1771") = true →
     sanitizeFilename (urlPrefix ++ "Paris" ++ String "-" "bonne-1771" ++ urlSuffix)
     = "Paris" ++ String "-" "bonne-1771"
     ∧ finalOutputPath (urlPrefix ++ "Paris" ++ String "-" "bonne-1771" ++ urlSuffix)
       = path_join outputDir ("Paris" ++ String "-" "bonne-1771" ++ ".jpg")).
Proof.
  apply (filename_of_corrected_url "https://www.geographicus.com" "paris" "bonne-1771"
           "Paris"); vm_compute; reflexivity.
Defined.

(** ** The two scripts read files alike *)

Lemma space_not_bar c : Text.is_space c = true → Ascii.eqb c bar = false.
Proof.
  intros Hc. destruct (Ascii.eqb c bar) eqn:Heq; [|reflexivity].
  apply Ascii.eqb_eq in Heq. subst c. discriminate.
Qed.

Lemma trim_end_cons c s :
  Text.trim_end (String c s)
  = match Text.trim_end s with
    | EmptyString => if Text.is_space c then EmptyString else String c EmptyString
    | t => String c t
    end.
Proof. reflexivity. Qed.

Lemma trim_end_nonspace c s :
  Text.is_space c = false → Text.trim_end (String c s) = String c (Text.trim_end s).
Proof. intros Hc. rewrite trim_end_cons. destruct (Text.trim_end s); by rewrite ?Hc. Qed.

Lemma trim_start_trim_end s :
  Text.trim_start (Text.trim_end s) = Text.trim_end (Text.trim_start s).
Proof.
  induction s as [|c s IH]; [reflexivity|].
  destruct (Text.is_space c) eqn:Hc.
  - cbn [Text.trim_start]. rewrite Hc, <- IH, trim_end_cons.
    destruct (Text.trim_end s) as [|d t]; rewrite ?Hc; [reflexivity|].
    cbn [Text.trim_start]. by rewrite Hc.
  - rewrite (trim_start_fixed _ _ Hc), (trim_end_nonspace _ _ Hc).
    by rewrite (trim_start_fixed _ _ Hc).
Qed.

Lemma trim_trim_end s : Text.trim (Text.trim_end s) = Text.trim s.
Proof. unfold Text.trim. by rewrite trim_start_trim_end, trim_end_idem. Qed.

Lemma trim_space_cons c s : Text.is_space c = true → Text.trim (String c s) = Text.trim s.
Proof. intros Hc. unfold Text.trim. cbn [Text.trim_start]. by rewrite Hc. Qed.

(** A leading white space does not change the entry of a line. *)
Lemma logEntry_space_cons c s : Text.is_space c = true → logEntry (String c s) = logEntry s.
Proof.
  intros Hc. unfold logEntry. rewrite split_cons, (space_not_bar c Hc).
  destruct (Text.split bar s) as [|p [|q rest]] eqn:Hs.
  - by destruct (split_nonempty bar s).
  - by apply trim_space_cons.
  - reflexivity.
Qed.

Lemma logEntry_trim_start s : logEntry (Text.trim_start s) = logEntry s.
Proof.
  induction s as [|c s IH]; [reflexivity|]. cbn [Text.trim_start].
  destruct (Text.is_space c) eqn:Hc; [|reflexivity]. by rewrite IH, logEntry_space_cons.
Qed.

(** Trimming the end of a line trims the end of its last piece. *)
Lemma split_trim_end s :
  Text.split bar (Text.trim_end s) = mapLast Text.trim_end (Text.split bar s).
Proof.
  induction s as [|c s IH]; [reflexivity|].
  rewrite split_cons. destruct (Ascii.eqb c bar) eqn:Hbar.
  - apply Ascii.eqb_eq in Hbar. subst c.
    rewrite trim_end_nonspace by reflexivity. rewrite split_cons, Ascii.eqb_refl, IH.
    destruct (Text.split bar s) as [|p rest] eqn:Hs; [by destruct (split_nonempty bar s)|].
    reflexivity.
  - destruct (Text.split bar s) as [|p rest] eqn:Hs; [by destruct (split_nonempty bar s)|].
    destruct (Text.is_space c) eqn:Hc.
    + rewrite trim_end_cons. destruct (Text.trim_end s) as [|d t] eqn:Ht.
      * rewrite Hc. cbn [Text.split] in IH.
        destruct rest as [|q rest]; [|by destruct rest].
        cbn [mapLast] in IH |- *. injection IH as IH.
        by rewrite trim_end_cons, <- IH, Hc.
      * rewrite split_cons, Hbar, IH. destruct rest as [|q rest].
        -- cbn [mapLast]. rewrite trim_end_cons.
           destruct (Text.trim_end p) as [|e u] eqn:Hp; [|reflexivity].
           cbn [mapLast] in IH. rewrite Hp in IH. by apply split_single in IH.
        -- reflexivity.
    + rewrite (trim_end_nonspace _ _ Hc), split_cons, Hbar, IH.
      destruct rest as [|q rest]; [|reflexivity].
      cbn [mapLast]. by rewrite (trim_end_nonspace _ _ Hc).
Qed.

Lemma logEntry_trim_end s : logEntry (Text.trim_end s) = logEntry s.
Proof.
  unfold logEntry. rewrite split_trim_end.
  destruct (Text.split bar s) as [|p [|q [|r rest]]] eqn:Hs; cbn [mapLast].
  - by destruct (split_nonempty bar s).
  - apply trim_trim_end.
  - apply trim_trim_end.
  - reflexivity.
Qed.

Lemma logEntry_trim s : logEntry (Text.trim s) = logEntry s.
Proof. unfold Text.trim. by rewrite logEntry_trim_end, logEntry_trim_start. Qed.

Lemma readLog_lines_agree (lines : list string) :
  List.filter Text.truthy
    (List.map logEntry
       (List.filter Text.truthy (List.map Text.trim (List.filter Text.truthy lines))))
  = List.filter Text.truthy (List.map logEntry lines).
Proof.
  induction lines as [|line lines IH]; [reflexivity|].
  cbn [List.filter List.map]. destruct (Text.truthy line) eqn:Hline.
  - cbn [List.filter List.map]. destruct (Text.truthy (Text.trim line)) eqn:Htrim.
    + cbn [List.filter List.map]. by rewrite logEntry_trim, IH.
    + rewrite IH, <- (logEntry_trim line).
      destruct (Text.trim line); [reflexivity | discriminate].
  - destruct line; [|discriminate]. exact IH.
Qed.

(** X17 (extract_zoomify.js, [readLog] lines 283-299, with
    run_dezoomify.js, [readLog] lines 40-51).  The validator and the
    downloader read a log in the same way: although the validator trims
    and filters the lines before it splits them at the bar, both
    functions yield the same set for every file, so the downloader's
    view of the validator's success log is the validator's own. *)
Theorem both_scripts_read_logs_alike (file : option string) :
  ValidatorMain.readLog file = readLog file
  ∧ (∀ line : string, logEntry (Text.trim line) = logEntry line).
Proof.
  split; [|exact logEntry_trim].
  destruct file as [content|]; [|reflexivity].
  unfold ValidatorMain.readLog, readLog. by rewrite readLog_lines_agree.
Qed.

(** ** The candidates of the validator *)

Lemma space_newline : Text.is_space newline = true.
Proof. reflexivity. Qed.

Lemma readUrls_keptLines text : readUrls text = keptLines text.
Proof.
  unfold readUrls, keptLines. apply List.filter_ext. intros line. by destruct line.
Qed.

Lemma keptLines_cons_newline s : keptLines (String newline s) = keptLines s.
Proof. unfold keptLines. rewrite split_cons, Ascii.eqb_refl. reflexivity. Qed.

Lemma keptLines_cons_space c s :
  Text.is_space c = true → keptLines (String c s) = keptLines s.
Proof.
  intros Hc. destruct (Ascii.eqb c newline) eqn:Hnl.
  - apply Ascii.eqb_eq in Hnl. subst c. apply keptLines_cons_newline.
  - unfold keptLines. rewrite split_cons, Hnl.
    destruct (Text.split newline s) as [|p rest] eqn:Hs;
      [by destruct (split_nonempty newline s)|].
    cbn [List.map]. by rewrite (trim_space_cons _ _ Hc).
Qed.

Lemma keptLines_trim_start s : keptLines (Text.trim_start s) = keptLines s.
Proof.
  induction s as [|c s IH]; [reflexivity|]. cbn [Text.trim_start].
  destruct (Text.is_space c) eqn:Hc; [|reflexivity]. by rewrite IH, keptLines_cons_space.
Qed.

(** Trimming the end of a text trims the end of its last line that is not
    blank and drops the blank lines after it. *)
Lemma split_newline_trim_end s :
  ∃ k : nat,
    List.map Text.trim_end (Text.split newline s)
    = (List.map Text.trim_end (Text.split newline (Text.trim_end s)) ++ replicate k "")%list.
Proof.
  induction s as [|c s [k IH]]; [by exists 0%nat|].
  assert (Hcons : ∀ x y, Text.trim_end x = Text.trim_end y →
                         Text.trim_end (String c x) = Text.trim_end (String c y))
    by (intros x y Hxy; by rewrite !trim_end_cons, Hxy).
  destruct (Ascii.eqb c newline) eqn:Hnl.
  - apply Ascii.eqb_eq in Hnl. subst c.
    rewrite trim_end_cons. rewrite split_cons, Ascii.eqb_refl. cbn [List.map].
    destruct (Text.trim_end s) as [|d t] eqn:Ht.
    + rewrite space_newline. exists (S k). rewrite IH. reflexivity.
    + exists k. rewrite split_cons, Ascii.eqb_refl, IH. reflexivity.
  - rewrite split_cons, Hnl.
    destruct (Text.split newline s) as [|p rest] eqn:Hs;
      [by destruct (split_nonempty newline s)|].
    destruct (Text.split newline (Text.trim_end s)) as [|p' rest'] eqn:Hs';
      [by destruct (split_nonempty newline (Text.trim_end s))|].
    cbn [List.map app] in IH. injection IH as Hp Hrest.
    exists k. rewrite trim_end_cons. destruct (Text.trim_end s) as [|d t] eqn:Ht.
    + cbn [Text.split] in Hs'. injection Hs' as <- <-.
      destruct (Text.is_space c) eqn:Hc.
      * cbn [Text.split List.map app]. rewrite Hrest, trim_end_cons, Hp.
        rewrite Hc. reflexivity.
      * rewrite split_cons, Hnl. cbn [Text.split List.map app].
        rewrite Hrest. f_equal. by apply Hcons.
    + rewrite split_cons, Hnl, Hs'. cbn [List.map app]. rewrite Hrest. f_equal.
      by apply Hcons.
Qed.

Lemma filter_replicate_empty k : List.filter Text.truthy (replicate k "") = [].
Proof. induction k as [|k IH]; [reflexivity | exact IH]. Qed.

Lemma trim_as_start_of_end s : Text.trim s = Text.trim_start (Text.trim_end s).
Proof. unfold Text.trim. by rewrite trim_start_trim_end. Qed.

Lemma keptLines_trim_end s : keptLines (Text.trim_end s) = keptLines s.
Proof.
  destruct (split_newline_trim_end s) as [k Hk]. unfold keptLines.
  assert (Hmap : ∀ l, List.map Text.trim l
                      = List.map Text.trim_start (List.map Text.trim_end l)).
  { intros l. rewrite List.map_map. apply List.map_ext. intros x.
    apply trim_as_start_of_end. }
  rewrite !Hmap, Hk, List.map_app, List.filter_app.
  assert (Hrep : ∀ n, List.map Text.trim_start (replicate n "") = replicate n "")
    by (intros n; induction n as [|n IH]; [reflexivity | cbn; by rewrite IH]).
  by rewrite Hrep, filter_replicate_empty, app_nil_r.
Qed.

Lemma keptLines_trim s : keptLines (Text.trim s) = keptLines s.
Proof. unfold Text.trim. by rewrite keptLines_trim_end, keptLines_trim_start. Qed.

(** A text that is not blank has a line that is not blank. *)
Lemma keptLines_nonempty s : Text.trim s ≠ "" → keptLines s ≠ [].
Proof.
  intros Hne. rewrite <- keptLines_trim. unfold Text.trim in *.
  destruct (trim_start_head s) as [Heq|(c & r & Heq & Hc)]; [by rewrite Heq in Hne|].
  rewrite Heq in *. destruct (trim_end_head c r Hc) as [r' Hr]. rewrite Hr.
  assert (Hnl : Ascii.eqb c newline = false).
  { destruct (Ascii.eqb c newline) eqn:Hnl; [|reflexivity].
    apply Ascii.eqb_eq in Hnl. subst c. discriminate. }
  unfold keptLines. rewrite split_cons, Hnl.
  destruct (Text.split newline r') as [|p rest]; cbn [List.map List.filter].
  - unfold Text.trim. rewrite (trim_start_fixed _ _ Hc).
    destruct (trim_end_head c "" Hc) as [x ->]. discriminate.
  - unfold Text.trim. rewrite (trim_start_fixed _ _ Hc).
    destruct (trim_end_head c p Hc) as [x ->]. discriminate.
Qed.

(** X18 (extract_zoomify.js, [validateEnvironment] lines 82-102, with
    run_dezoomify.js lines 64-67).  The validator reads its candidate
    file as the downloader reads its own: although it trims the whole
    text first, it returns the trimmed lines that are not empty, in file
    order.  It fails when the text is blank, and otherwise the list it
    returns is not empty.  Without the file it always fails, because
    the fallback reads a variable the script never declares. *)
Theorem validator_candidates (text : string) :
  ValidatorMain.validateEnvironment None = Throw ValidatorMain.notDefined
  ∧ ValidatorMain.validateEnvironment (Some text)
    = (if Text.truthy (Text.trim text) then Ok (readUrls text)
       else Throw ValidatorMain.noUrls)
  ∧ (readUrls text = [] ↔ Text.trim text = "").
Proof.
  split; [reflexivity|]. split.
  - unfold ValidatorMain.validateEnvironment.
    destruct (Text.truthy (Text.trim text)); [|reflexivity].
    fold (keptLines (Text.trim text)). by rewrite keptLines_trim, readUrls_keptLines.
  - rewrite readUrls_keptLines. split.
    + intros Hnil. destruct (Text.trim text) eqn:Htrim; [reflexivity|].
      destruct (keptLines_nonempty text); [by rewrite Htrim | exact Hnil].
    + intros Htrim. by rewrite <- keptLines_trim, Htrim.
Qed.

(** ** What the validator logs *)

Lemma indexOf_drop pat s i :
  Js.indexOf pat s = Some i → String.prefix pat (Str.drop i s) = true.
Proof.
  revert i. induction s as [|c s IH]; intros i; cbn [Js.indexOf].
  - destruct (String.prefix pat "") eqn:Hp; [|discriminate]. by intros [= <-].
  - destruct (String.prefix pat (String c s)) eqn:Hp; [by intros [= <-]|].
    destruct (Js.indexOf pat s) as [i'|]; [|discriminate].
    intros [= <-]. by apply IH.
Qed.

Lemma str_drop_drop n m s : Str.drop m (Str.drop n s) = Str.drop (n + m) s.
Proof.
  revert s. induction n as [|n IH]; intros s; [reflexivity|].
  destruct s as [|c s]; [by destruct m | apply IH].
Qed.

Lemma str_drop_split n s : ∃ h, s = h ++ Str.drop n s.
Proof.
  revert s. induction n as [|n IH]; intros s; [by exists ""|].
  destruct s as [|c s]; [by exists ""|].
  destruct (IH s) as [h Hh]. exists (String c h). rewrite append_cons. cbn [Str.drop].
  by rewrite <- Hh.
Qed.

Lemma countChar_append c a b :
  countChar c (a ++ b) = (countChar c a + countChar c b)%nat.
Proof.
  induction a as [|x a IH]; [reflexivity|]. rewrite append_cons. cbn [countChar].
  rewrite IH. lia.
Qed.

(** Two ways of cutting one string. *)
Lemma append_eq_prefix a b c d :
  a ++ b = c ++ d → (String.length a ≤ String.length c)%nat →
  ∃ y, c = a ++ y ∧ b = y ++ d.
Proof.
  revert c. induction a as [|x a IH]; intros c Heq Hlen.
  - exists c. by split.
  - destruct c as [|z c]; [cbn in Hlen; lia|].
    rewrite !append_cons in Heq. injection Heq as <- Heq.
    destruct (IH c Heq) as (y & -> & Hb); [cbn in Hlen; lia|].
    exists y. by split.
Qed.

(** The corrected URL is never the product URL it was built from. *)
Lemma correctedUrl_differs url zoomlinkId corrected :
  Validator.correctedUrl url zoomlinkId = Ok corrected → corrected ≠ url.
Proof.
  unfold Validator.correctedUrl.
  destruct (Js.indexOf Validator.marker url) as [i|]; [|discriminate].
  destruct (Js.indexOf "-" (Str.drop (i + 13) url)) as [j|] eqn:Hj; [|discriminate].
  intros [= <-] Heq. rewrite str_drop_drop in Heq.
  apply indexOf_drop in Hj. rewrite str_drop_drop in Hj.
  destruct (str_drop_split (i + 13 + j) url) as [h Hh].
  destruct (Str.drop (i + 13 + j) url) as [|x S'] eqn:HS; [discriminate|].
  assert (Hx : x = "-"%char).
  { cbn [String.prefix] in Hj. by destruct (ascii_dec "-" x). }
  subst x. clear Hj.
  rewrite Hh in Heq.
  assert (Hlen : String.length h = (String.length (urlPrefix ++ zoomlinkId) + 20)%nat).
  { apply (f_equal String.length) in Heq. rewrite !length_append in Heq.
    rewrite !length_append. change (String.length urlSuffix) with 20%nat in Heq.
    cbn [String.length] in Heq. lia. }
  assert (Heq' : (urlPrefix ++ zoomlinkId) ++ (String "-" S' ++ urlSuffix)
                 = h ++ String "-" S') by (by rewrite append_assoc).
  destruct (append_eq_prefix _ _ _ _ Heq') as (y & -> & Hy); [lia|].
  apply (f_equal (countChar "-")) in Heq'.
  rewrite !countChar_append in Heq'.
  change (countChar "-" urlSuffix) with 0%nat in Heq'.
  destruct y as [|y0 y].
  - rewrite length_append in Hlen. cbn in Hlen. lia.
  - rewrite !append_cons in Hy. injection Hy as <- _.
    cbn [countChar] in Heq'. rewrite Ascii.eqb_refl in Heq'. lia.
Qed.

Lemma elem_of_pending allUrls successSet failureSet url :
  url ∈ ValidatorMain.pending allUrls successSet failureSet
  ↔ url ∈ allUrls ∧ (url ∉ successSet) ∧ url ∉ failureSet.
Proof.
  unfold ValidatorMain.pending. rewrite list_elem_of_In, filter_In, <- list_elem_of_In.
  rewrite andb_true_iff, !negb_true_iff, !bool_decide_eq_false. tauto.
Qed.

(** X19 (extract_zoomify.js, [processUrl] lines 200-215 and 245-247,
    with the filter of line 309).  The validator does not recognise its
    own successes: what it writes to its success log is the corrected
    URL, which is never the product URL it was built from, while the
    filter of the next run looks up the product URL.  So recording the
    success of a product URL leaves that URL in the list the next run
    takes its batch from, unless a log held it before. *)
Theorem validated_url_stays_pending
    (url zoomlinkId corrected : string) (st : Extract.State) (allUrls : list string)
    (Hcorr : Validator.correctedUrl url zoomlinkId = Ok corrected)
    (Hclean : cleanEntry corrected)
    (Hstamp : cleanStamp (Extract.clock st (Extract.ticks st)))
    (Hend : endsWithNewline (Extract.successLogFile st)) :
  corrected ≠ url
  ∧ ValidatorMain.readLog (Extract.successLogFile (Extract.recordSuccess corrected st))
    = {[corrected]} ∪ ValidatorMain.readLog (Extract.successLogFile st)
  ∧ (url ∈ ValidatorMain.pending allUrls
             (ValidatorMain.readLog
                (Extract.successLogFile (Extract.recordSuccess corrected st)))
             (ValidatorMain.readLog
                (Extract.failureLogFile (Extract.recordSuccess corrected st)))
     ↔ url ∈ ValidatorMain.pending allUrls
               (ValidatorMain.readLog (Extract.successLogFile st))
               (ValidatorMain.readLog (Extract.failureLogFile st))).
Proof.
  pose proof (correctedUrl_differs _ _ _ Hcorr) as Hne.
  assert (Hagree : ∀ file, ValidatorMain.readLog file = readLog file).
  { intros [content|]; [|reflexivity].
    unfold ValidatorMain.readLog, readLog. by rewrite readLog_lines_agree. }
  destruct (readLog_appended _ _ _ Hend Hstamp Hclean) as [Hread _].
  split; [exact Hne|]. cbn [Extract.recordSuccess Extract.successLogFile Extract.failureLogFile].
  rewrite !Hagree, Hread. split; [reflexivity|].
  rewrite !elem_of_pending, elem_of_union, elem_of_singleton.
  split; [tauto|]. intros (H1 & H2 & H3). split; [exact H1|]. split; [|exact H3].
  intros [Heq|Hin]; [by subst | by apply H2].
Qed.

Lemma validated_url_stays_pending_witness :
  parisUrl
  ≠ parisPage
  ∧ ValidatorMain.readLog
      (Extract.successLogFile
         (Extract.recordSuccess parisUrl
            (blankState (fun _ => None))))
    = {[parisUrl]}
      ∪ ValidatorMain.readLog (Extract.successLogFile (blankState (fun _ => None)))
  ∧ (parisPage
       ∈ ValidatorMain.pending [parisPage]
           (ValidatorMain.readLog
              (Extract.successLogFile
                 (Extract.recordSuccess parisUrl
                    (blankState (fun _ => None)))))
           (ValidatorMain.readLog
              (Extract.failureLogFile
                 (Extract.recordSuccess parisUrl
                    (blankState (fun _ => None)))))
     ↔ parisPage
         ∈ ValidatorMain.pending [parisPage]
             (ValidatorMain.readLog (Extract.successLogFile (blankState (fun _ => None))))
             (ValidatorMain.readLog (Extract.failureLogFile (blankState (fun _ => None))))).
Proof.
  apply (validated_url_stays_pending
           parisPage "Paris").
  - vm_compute. reflexivity.
  - split; [vm_compute; reflexivity|]. split; [vm_compute; reflexivity|].
    split; [vm_compute; reflexivity | discriminate].
  - split; vm_compute; reflexivity.
  - exists []. reflexivity.
Defined.

(** One more line at the end of a candidate file. *)
Lemma readUrls_appended (old : option string) (url : string) :
  endsWithNewline old → lacks newline url = true → Text.trim url = url → url ≠ "" →
  readUrls (default "" (appendText old (url ++ String newline "")))
  = (readUrls (default "" old) ++ [url])%list.
Proof.
  intros [pre Hpre] Hnl Htrim Hne.
  assert (Htext : default "" (appendText old (url ++ String newline ""))
                  = default "" old ++ url ++ String newline "") by (by destruct old).
  rewrite Htext. unfold readUrls.
  rewrite (split_after_boundary _ _ _ pre Hpre), split_at_sep, (split_lacks _ _ Hnl), Hpre.
  rewrite !List.map_app, !List.filter_app. cbn [List.map List.filter Text.split].
  rewrite Htrim. destruct url; [done|]. cbn. by rewrite app_nil_r.
Qed.

(** A string that ends with a trimmed, non-empty string is trimmed at
    its end. *)
Lemma trim_end_append a b :
  Text.trim_end b = b → b ≠ "" → Text.trim_end (a ++ b) = a ++ b.
Proof.
  intros Hb Hne. induction a as [|c a IH]; [exact Hb|].
  rewrite append_cons, trim_end_cons, IH.
  destruct (a ++ b) as [|d t] eqn:Hab; [|reflexivity].
  destruct a; [|discriminate]. by destruct Hne.
Qed.

(** A corrected URL begins with [h] and ends with [l]: it is not empty
    and trimming leaves it as it is. *)
Lemma correctedUrl_trimmed url zoomlinkId corrected :
  Validator.correctedUrl url zoomlinkId = Ok corrected →
  Text.trim corrected = corrected ∧ corrected ≠ "".
Proof.
  unfold Validator.correctedUrl.
  destruct (Js.indexOf Validator.marker url) as [i|]; [|discriminate].
  destruct (Js.indexOf "-" (Str.drop (i + 13) url)) as [j|]; [|discriminate].
  intros [= <-]. split; [|discriminate].
  unfold Text.trim, urlPrefix. rewrite append_cons, trim_start_fixed by reflexivity.
  rewrite <- append_cons, <- !append_assoc. by apply trim_end_append.
Qed.

(** X20 (extract_zoomify.js, [processUrl] lines 200-215 and 245-247,
    with run_dezoomify.js lines 54-75).  What the validator records for
    a validated URL, as the downloader reads it.  Assumed: the corrected
    URL is the one built from a product URL and an identifier and holds
    no line break, the timestamp holds neither bar nor line break, and
    the success log and the candidate file ended with a line break.
    Then the corrected URL becomes the last candidate of the
    downloader's input file; it is a member of the validator's success
    set as the downloader reads it exactly if it holds no bar; and the
    next download run queues it exactly if neither of the downloader's
    own logs holds it. *)
Theorem validated_url_reaches_the_downloader
    (url zoomlinkId corrected : string) (st : Extract.State)
    (bs si mc : Z) (f : Files) (cfg : Config)
    (Hcorr : Validator.correctedUrl url zoomlinkId = Ok corrected)
    (Hnl : lacks newline corrected = true)
    (Hstamp : cleanStamp (Extract.clock st (Extract.ticks st)))
    (Hlog : endsWithNewline (Extract.successLogFile st))
    (Hfile : endsWithNewline (Extract.correctedUrlsFile st))
    (Hcfg : configure bs si mc
              (Extract.correctedUrlsFile (Extract.recordSuccess corrected st))
              (Extract.successLogFile (Extract.recordSuccess corrected st)) f
            = Some cfg) :
  readUrls (default "" (Extract.correctedUrlsFile (Extract.recordSuccess corrected st)))
  = (readUrls (default "" (Extract.correctedUrlsFile st)) ++ [corrected])%list
  ∧ (corrected ∈ extractSuccessSet cfg ↔ lacks bar corrected = true)
  ∧ (corrected ∈ urls cfg
     ↔ (corrected ∉ readLog (failureLogFile f)) ∧ (corrected ∉ readLog (successLogFile f))).
Proof.
  destruct (correctedUrl_trimmed _ _ _ Hcorr) as [Htrim Hne].
  pose proof (readUrls_appended _ corrected Hfile Hnl Htrim Hne) as Hcand.
  destruct (configure_spec _ _ _ _ _ _ _ Hcfg) as (text & Htext & Hdz & Hex & Hfl & Hurls).
  cbn [Extract.recordSuccess Extract.correctedUrlsFile Extract.successLogFile] in *.
  split; [exact Hcand|].
  assert (Hmem : corrected ∈ readUrls text).
  { rewrite Htext in Hcand. change (default "" (Some text)) with text in Hcand.
    rewrite Hcand.
    apply elem_of_app. right. by apply list_elem_of_singleton. }
  destruct (lacks bar corrected) eqn:Hbar.
  - destruct (readLog_appended _ _ corrected Hlog Hstamp) as [Hread _]; [done|].
    assert (Hin : corrected ∈ extractSuccessSet cfg).
    { rewrite Hex, Hread. apply elem_of_union_l. by apply elem_of_singleton. }
    split; [done|].
    rewrite Hurls, elem_of_workQueue, elem_of_intersection, <- Hex. tauto.
  - assert (Hnot : ∀ file, corrected ∉ readLog file)
      by (intros file; by apply barred_not_logged).
    split.
    + split; [|discriminate]. rewrite Hex. intros Hin. by destruct (Hnot _ Hin).
    + rewrite Hurls, elem_of_workQueue, elem_of_intersection.
      split; [intros _; by split|]. intros _.
      split; [exact Hmem|]. split; [apply Hnot|]. intros [Hin _]. by apply (Hnot _ Hin).
Qed.

Lemma validated_url_reaches_the_downloader_witness :
  ∃ cfg : Config,
    configure 10 0 3
      (Extract.correctedUrlsFile (Extract.recordSuccess parisUrl (blankState (fun _ => None))))
      (Extract.successLogFile (Extract.recordSuccess parisUrl (blankState (fun _ => None))))
      noFiles = Some cfg
    ∧ urls cfg = [parisUrl]
    ∧ readUrls (default "" (Extract.correctedUrlsFile
                              (Extract.recordSuccess parisUrl (blankState (fun _ => None)))))
      = (readUrls (default "" (Extract.correctedUrlsFile (blankState (fun _ => None))))
         ++ [parisUrl])%list
    ∧ (parisUrl ∈ extractSuccessSet cfg ↔ lacks bar parisUrl = true)
    ∧ (parisUrl ∈ urls cfg
       ↔ (parisUrl ∉ readLog (failureLogFile noFiles))
         ∧ (parisUrl ∉ readLog (successLogFile noFiles))).
Proof.
  eexists. split; [vm_compute; reflexivity|]. split; [vm_compute; reflexivity|].
  apply (validated_url_reaches_the_downloader parisPage "Paris" parisUrl
           (blankState (fun _ => None)) 10 0 3 noFiles).
  - vm_compute. reflexivity.
  - vm_compute. reflexivity.
  - split; vm_compute; reflexivity.
  - exists []. reflexivity.
  - exists []. reflexivity.
  - vm_compute. reflexivity.
Defined.

(** X21 (extract_zoomify.js, [processUrl] lines 129-277).  Whatever the
    pages answer and however often it retries, one call for an item
    counts the item once: [processedCount] grows by one, and either
    [stats.successful] grows by one, with one line added to the success
    log and the corrected URL added to the candidate file of the
    downloader, or [stats.failed] grows by one, with one line for the
    product URL added to the failure log; the other log and counter
    stay, and [stats.skipped] is never changed. *)
Theorem validator_counts_each_item_once
    (url : string) (retryCount : nat) (st : Extract.State) :
  Extract.processedCount (Extract.processUrl url retryCount st)
  = Extract.processedCount st + 1
  ∧ Extract.skipped (Extract.stats (Extract.processUrl url retryCount st))
    = Extract.skipped (Extract.stats st)
  ∧ ((∃ corrected : string,
        Extract.successful (Extract.stats (Extract.processUrl url retryCount st))
        = Extract.successful (Extract.stats st) + 1
        ∧ Extract.failed (Extract.stats (Extract.processUrl url retryCount st))
          = Extract.failed (Extract.stats st)
        ∧ Extract.successLogFile (Extract.processUrl url retryCount st)
          = appendText (Extract.successLogFile st)
              (logLine (Extract.clock st (Extract.ticks st)) corrected)
        ∧ Extract.correctedUrlsFile (Extract.processUrl url retryCount st)
          = appendText (Extract.correctedUrlsFile st) (corrected ++ String newline "")
        ∧ Extract.failureLogFile (Extract.processUrl url retryCount st)
          = Extract.failureLogFile st)
     ∨ (Extract.successful (Extract.stats (Extract.processUrl url retryCount st))
        = Extract.successful (Extract.stats st)
        ∧ Extract.failed (Extract.stats (Extract.processUrl url retryCount st))
          = Extract.failed (Extract.stats st) + 1
        ∧ Extract.failureLogFile (Extract.processUrl url retryCount st)
          = appendText (Extract.failureLogFile st)
              (logLine (Extract.clock st (Extract.ticks st)) url)
        ∧ Extract.successLogFile (Extract.processUrl url retryCount st)
          = Extract.successLogFile st
        ∧ Extract.correctedUrlsFile (Extract.processUrl url retryCount st)
          = Extract.correctedUrlsFile st)).
Proof.
  funelim (Extract.processUrl url retryCount st); clear Heqcall.
  - (* the attempt succeeds *)
    cbn. split; [reflexivity|]. split; [reflexivity|]. left. by eexists.
  - (* the attempt fails and a retry is left *)
    match goal with IH : _ ∧ _ |- _ => exact IH end.
  - (* the attempt fails and the retries are used up *)
    cbn. split; [reflexivity|]. split; [reflexivity|]. by right.
Qed.

(** ** The batch of the validator *)

Lemma slice_nonneg {A} (i k : Z) (l : list A) :
  0 ≤ i → 0 ≤ k → Js.slice i (i + k) l = take (Z.to_nat k) (drop (Z.to_nat i) l).
Proof.
  intros Hi Hk. unfold Js.slice.
  destruct (Z.ltb_spec i 0) as [?|_]; [lia|].
  destruct (Z.ltb_spec (i + k) 0) as [?|_]; [lia|].
  destruct (Z.le_gt_cases (Z.of_nat (length l)) i) as [Hlen|Hlen].
  - rewrite !drop_ge by lia. by rewrite !take_nil.
  - rewrite (Z.min_l i) by lia.
    destruct (Z.le_gt_cases (i + k) (Z.of_nat (length l))) as [Hend|Hend].
    + rewrite Z.min_l by lia. f_equal. lia.
    + rewrite Z.min_r by lia. rewrite !take_ge; [reflexivity| |]; rewrite length_drop; lia.
Qed.

Lemma batch_nonneg allUrls successSet failureSet s b :
  0 ≤ s → 0 ≤ b →
  ValidatorMain.batch allUrls successSet failureSet s b
  = take (Z.to_nat b) (drop (Z.to_nat s) (ValidatorMain.pending allUrls successSet failureSet)).
Proof. intros Hs Hb. unfold ValidatorMain.batch. by apply slice_nonneg. Qed.

(** X22 (extract_zoomify.js, lines 308-315).  With a start index and a
    batch size that are not negative, the batch of a validator run is
    the piece of length at most [batchSize] that starts at [startIndex]
    in the list of candidates found in neither log; its members are
    candidates no log holds; batches over the same logs that follow
    each other join into the batch of their joint size; and the run
    stops with "No new URLs to process" exactly if the batch size is
    zero or the start index is at or past the end of that list. *)
Theorem validator_batch
    (allUrls : list string) (successSet failureSet : gset string) (s b1 b2 : Z)
    (Hs : 0 ≤ s) (Hb1 : 0 ≤ b1) (Hb2 : 0 ≤ b2) :
  ValidatorMain.batch allUrls successSet failureSet s b1
  = take (Z.to_nat b1)
      (drop (Z.to_nat s) (ValidatorMain.pending allUrls successSet failureSet))
  ∧ Z.of_nat (length (ValidatorMain.batch allUrls successSet failureSet s b1)) ≤ b1
  ∧ (∀ url, url ∈ ValidatorMain.batch allUrls successSet failureSet s b1 →
            url ∈ allUrls ∧ (url ∉ successSet) ∧ url ∉ failureSet)
  ∧ (ValidatorMain.batch allUrls successSet failureSet s b1
     ++ ValidatorMain.batch allUrls successSet failureSet (s + b1) b2)%list
    = ValidatorMain.batch allUrls successSet failureSet s (b1 + b2)
  ∧ (ValidatorMain.batch allUrls successSet failureSet s b1 = []
     ↔ b1 = 0
       ∨ Z.of_nat (length (ValidatorMain.pending allUrls successSet failureSet)) ≤ s).
Proof.
  rewrite !batch_nonneg by lia.
  set (p := ValidatorMain.pending allUrls successSet failureSet).
  split; [reflexivity|]. split; [rewrite length_take; lia|]. split; [|split].
  - intros url Hin. apply elem_of_pending.
    by apply (subseteq_drop (Z.to_nat s)), (subseteq_take (Z.to_nat b1)).
  - replace (Z.to_nat (s + b1)) with (Z.to_nat s + Z.to_nat b1)%nat by lia.
    replace (Z.to_nat (b1 + b2)) with (Z.to_nat b1 + Z.to_nat b2)%nat by lia.
    rewrite <- drop_drop. apply take_take_drop.
  - split.
    + intros Hnil. apply (f_equal length) in Hnil.
      rewrite length_take, length_drop in Hnil. cbn in Hnil. lia.
    + intros Hcase. apply nil_length_inv. rewrite length_take, length_drop. lia.
Qed.

Lemma validator_batch_witness :
  ValidatorMain.batch ["a"; "b"; "c"; "d"; "e"] ∅ {["b"]} 1 2
  = take (Z.to_nat 2)
      (drop (Z.to_nat 1) (ValidatorMain.pending ["a"; "b"; "c"; "d"; "e"] ∅ {["b"]}))
  ∧ Z.of_nat (length (ValidatorMain.batch ["a"; "b"; "c"; "d"; "e"] ∅ {["b"]} 1 2)) ≤ 2
  ∧ (∀ url, url ∈ ValidatorMain.batch ["a"; "b"; "c"; "d"; "e"] ∅ {["b"]} 1 2 →
            url ∈ ["a"; "b"; "c"; "d"; "e"] ∧ (url ∉ (∅ : gset string)) ∧ url ∉ ({["b"]} : gset string))
  ∧ (ValidatorMain.batch ["a"; "b"; "c"; "d"; "e"] ∅ {["b"]} 1 2
     ++ ValidatorMain.batch ["a"; "b"; "c"; "d"; "e"] ∅ {["b"]} (1 + 2) 1)%list
    = ValidatorMain.batch ["a"; "b"; "c"; "d"; "e"] ∅ {["b"]} 1 (2 + 1)
  ∧ (ValidatorMain.batch ["a"; "b"; "c"; "d"; "e"] ∅ {["b"]} 1 2 = []
     ↔ 2 = 0
       ∨ Z.of_nat (length (ValidatorMain.pending ["a"; "b"; "c"; "d"; "e"] ∅ {["b"]})) ≤ 1).
Proof.
  apply (validator_batch ["a"; "b"; "c"; "d"; "e"] ∅ {["b"]} 1 2 1); lia.
Defined.

(** ** Failures and the next batch *)

Lemma pending_filter allUrls successSet failureSet :
  ValidatorMain.pending allUrls successSet failureSet
  = filter (fun url => (url ∉ successSet) ∧ url ∉ failureSet) allUrls.
Proof.
  unfold ValidatorMain.pending.
  induction allUrls as [|url l IH]; [reflexivity|].
  cbn [List.filter]. rewrite filter_cons, IH.
  destruct (decide (url ∈ successSet)) as [Hs|Hs], (decide (url ∈ failureSet)) as [Hf|Hf];
    [rewrite (bool_decide_eq_true_2 _ Hs) | rewrite (bool_decide_eq_true_2 _ Hs)
    | rewrite (bool_decide_eq_false_2 _ Hs) | rewrite (bool_decide_eq_false_2 _ Hs)];
    [rewrite (bool_decide_eq_true_2 _ Hf) | rewrite (bool_decide_eq_false_2 _ Hf)
    | rewrite (bool_decide_eq_true_2 _ Hf) | rewrite (bool_decide_eq_false_2 _ Hf)];
    cbn; case_decide; tauto.
Qed.

Lemma pending_more_failures allUrls successSet failureSet (F : gset string) :
  ValidatorMain.pending allUrls successSet (failureSet ∪ F)
  = filter (fun url => url ∉ F) (ValidatorMain.pending allUrls successSet failureSet).
Proof.
  rewrite !pending_filter, list_filter_filter. apply list_filter_iff.
  intros url. rewrite elem_of_union. tauto.
Qed.

Lemma filter_all {A} (P : A → Prop) `{!∀ x, Decision (P x)} (l : list A) :
  (∀ x, x ∈ l → P x) → filter P l = l.
Proof.
  induction l as [|x l IH]; intros Hall; [reflexivity|].
  rewrite filter_cons_True by (apply Hall; by left).
  f_equal. apply IH. intros y Hy. apply Hall. by right.
Qed.

Lemma length_filter_both {A} (P : A → Prop) `{!∀ x, Decision (P x)} (l : list A) :
  (length (filter P l) + length (filter (fun x => ¬ P x) l))%nat = length l.
Proof.
  induction l as [|x l IH]; [reflexivity|]. rewrite !filter_cons.
  destruct (decide (P x)); destruct (decide (¬ P x)); cbn [length]; try tauto; lia.
Qed.

Lemma length_filter_members (F : gset string) (l : list string) :
  NoDup l → (∀ u, u ∈ F → u ∈ l) → length (filter (fun u => u ∈ F) l) = size F.
Proof.
  intros Hnd Hsub. unfold size, set_size. cbn.
  apply Permutation_length, NoDup_Permutation.
  - by apply NoDup_filter.
  - apply NoDup_elements.
  - intros x. rewrite list_elem_of_filter, elem_of_elements. split; [tauto|].
    intros Hx. split; [exact Hx | by apply Hsub].
Qed.

(** X23 (extract_zoomify.js, lines 301-315 and 364-367).  Every item of
    a batch that ends in the failure log moves the rest of the list one
    place forward, so the start index that the finished run prints is
    too far by the number of failures.  Assumed: the candidates hold no
    URL twice, the start index and the batch sizes are not negative, the
    first batch, at [s] of size [b], is full, and the URLs [F] that
    failed are members of it.  The first run prints a command, the one
    for [s + b], exactly if its batch is not empty ([0 < b]), the batch
    has one URL only or the limit is at least one and at most 2^32 - 1,
    and the candidate file holds more than [s + b] URLs.  The batch taken at [s + b] is
    the piece that starts [size F] places later in the list the first
    run worked on, and the URLs in between are in neither batch. *)
Theorem failures_shift_the_next_batch
    (allUrls : list string) (successSet failureSet F : gset string) (s b b' mc : Z)
    (Hnd : NoDup allUrls) (Hs : 0 ≤ s) (Hb : 0 ≤ b) (Hb' : 0 ≤ b')
    (Hfull : s + b ≤ Z.of_nat (length (ValidatorMain.pending allUrls successSet failureSet)))
    (Hfailed : ∀ u, u ∈ F → u ∈ ValidatorMain.batch allUrls successSet failureSet s b) :
  ValidatorMain.nextBatch allUrls successSet failureSet b s mc
  = (if (0 <? b) && ((b =? 1) || (1 <=? mc) && (mc <=? 4294967295))
        && (s + b <? Z.of_nat (length allUrls))
     then Some (b, s + b, mc) else None)
  ∧ ValidatorMain.batch allUrls successSet (failureSet ∪ F) (s + b) b'
  = take (Z.to_nat b')
      (drop (Z.to_nat (s + b) + size F)
         (ValidatorMain.pending allUrls successSet failureSet))
  ∧ (∀ u, u ∈ take (size F)
                (drop (Z.to_nat (s + b))
                   (ValidatorMain.pending allUrls successSet failureSet)) →
          (u ∉ ValidatorMain.batch allUrls successSet failureSet s b)
          ∧ u ∉ ValidatorMain.batch allUrls successSet (failureSet ∪ F) (s + b) b').
Proof.
  split.
  { unfold ValidatorMain.nextBatch. rewrite batch_nonneg by lia.
    set (p := ValidatorMain.pending allUrls successSet failureSet) in *.
    assert (Hlen : length (take (Z.to_nat b) (drop (Z.to_nat s) p)) = Z.to_nat b)
      by (rewrite length_take, length_drop; lia).
    destruct (take (Z.to_nat b) (drop (Z.to_nat s) p)) as [|u rest];
      cbn [length] in Hlen.
    - destruct (Z.ltb_spec 0 b); [lia | reflexivity].
    - destruct (Z.ltb_spec 0 b); [|lia]. cbn [andb].
      destruct (Nat.eqb_spec (length rest) 0) as [Hr|Hr]; cbn [negb andb].
      + destruct (Z.eqb_spec b 1); [reflexivity | lia].
      + destruct (Z.eqb_spec b 1); [lia|]. cbn [orb].
        destruct (Z.ltb_spec mc 1), (Z.leb_spec 1 mc), (Z.ltb_spec 4294967295 mc),
          (Z.leb_spec mc 4294967295); try lia; reflexivity. }
  rewrite batch_nonneg in Hfailed by lia.
  rewrite !batch_nonneg by lia. rewrite pending_more_failures.
  set (p := ValidatorMain.pending allUrls successSet failureSet) in *.
  assert (Hp : NoDup p) by (unfold p; rewrite pending_filter; by apply NoDup_filter).
  set (A := take (Z.to_nat s) p).
  set (B := take (Z.to_nat b) (drop (Z.to_nat s) p)) in *.
  set (C := drop (Z.to_nat b) (drop (Z.to_nat s) p)).
  assert (Hsplit : p = (A ++ B ++ C)%list).
  { unfold A, B, C. by rewrite (take_drop (Z.to_nat b)), take_drop. }
  assert (HlenA : length A = Z.to_nat s) by (unfold A; rewrite length_take; lia).
  assert (HlenB : length B = Z.to_nat b)
    by (unfold B; rewrite length_take, length_drop; lia).
  assert (HC : C = drop (Z.to_nat (s + b)) p).
  { unfold C. rewrite drop_drop. f_equal. lia. }
  rewrite Hsplit in Hp. apply NoDup_app in Hp as (HA & HAB & HBC).
  apply NoDup_app in HBC as (HB & HBC & HCnd).
  assert (HfA : filter (fun url => url ∉ F) A = A).
  { apply filter_all. intros x Hx HF. apply (HAB x Hx), elem_of_app. left. by apply Hfailed. }
  assert (HfC : filter (fun url => url ∉ F) C = C).
  { apply filter_all. intros x Hx HF. by apply (HBC x (Hfailed x HF)). }
  assert (HlenB' : (length (filter (fun url => url ∉ F) B) + size F)%nat = Z.to_nat b).
  { rewrite <- HlenB, <- (length_filter_both (fun url => url ∈ F) B).
    rewrite (length_filter_members F B HB Hfailed). lia. }
  assert (Hdrop : drop (Z.to_nat (s + b)) (filter (fun url => url ∉ F) p)
                  = drop (Z.to_nat (s + b) + size F) p).
  { rewrite Hsplit at 1. rewrite !filter_app, HfA, HfC.
    replace (Z.to_nat (s + b)) with (length A + Z.to_nat b)%nat at 1 by lia.
    rewrite drop_app_add. rewrite <- HlenB' at 1. rewrite drop_app_add.
    rewrite HC, drop_drop. reflexivity. }
  split; [by rewrite Hdrop|].
  intros u Hu. rewrite Hdrop. rewrite <- HC in Hu.
  assert (HuC : u ∈ C) by (by apply (subseteq_take (size F))).
  split.
  - intros HuB. by apply (HBC u HuB).
  - intros Hin. apply (subseteq_take (Z.to_nat b')) in Hin.
    rewrite <- drop_drop, <- HC in Hin.
    apply list_elem_of_lookup_1 in Hu as [i Hi]. apply lookup_take_Some in Hi as [Hi Hlt].
    apply list_elem_of_lookup_1 in Hin as [j Hj]. rewrite lookup_drop in Hj.
    pose proof (NoDup_lookup _ _ _ _ HCnd Hi Hj). lia.
Qed.

Lemma failures_shift_the_next_batch_witness :
  ValidatorMain.nextBatch ["a"; "b"; "c"; "d"; "e"; "f"] ∅ ∅ 2 0 5
  = (if (0 <? 2) && ((2 =? 1) || (1 <=? 5) && (5 <=? 4294967295))
        && (0 + 2 <? Z.of_nat (length ["a"; "b"; "c"; "d"; "e"; "f"]))
     then Some (2, 0 + 2, 5) else None)
  ∧ ValidatorMain.batch ["a"; "b"; "c"; "d"; "e"; "f"] ∅ (∅ ∪ {["b"]}) (0 + 2) 2
  = take (Z.to_nat 2)
      (drop (Z.to_nat (0 + 2) + size ({["b"]} : gset string))
         (ValidatorMain.pending ["a"; "b"; "c"; "d"; "e"; "f"] ∅ ∅))
  ∧ (∀ u, u ∈ take (size ({["b"]} : gset string))
                (drop (Z.to_nat (0 + 2))
                   (ValidatorMain.pending ["a"; "b"; "c"; "d"; "e"; "f"] ∅ ∅)) →
          (u ∉ ValidatorMain.batch ["a"; "b"; "c"; "d"; "e"; "f"] ∅ ∅ 0 2)
          ∧ u ∉ ValidatorMain.batch ["a"; "b"; "c"; "d"; "e"; "f"] ∅ (∅ ∪ {["b"]}) (0 + 2) 2).
Proof.
  apply (failures_shift_the_next_batch ["a"; "b"; "c"; "d"; "e"; "f"] ∅ ∅ {["b"]} 0 2 2 5).
  - apply (bool_decide_unpack _). vm_compute. exact I.
  - lia.
  - lia.
  - lia.
  - vm_compute. discriminate.
  - intros u Hu. apply elem_of_singleton in Hu. subst u. vm_compute.
    apply list_elem_of_further, list_elem_of_here.
Defined.

(** ** Chunks and pages *)

Lemma chunksFrom_cover turns k i (l : list string) :
  1 ≤ k → 0 ≤ i → (length l - Z.to_nat i ≤ turns)%nat →
  concat (Chunks.chunksFrom turns k i l) = drop (Z.to_nat i) l
  ∧ Forall (fun chunk => (1 ≤ length chunk)%nat ∧ Z.of_nat (length chunk) ≤ k)
      (Chunks.chunksFrom turns k i l).
Proof.
  intros Hk. revert i. induction turns as [|turns IH]; intros i Hi Hturns.
  - cbn. split; [|constructor]. rewrite drop_ge by lia. reflexivity.
  - cbn [Chunks.chunksFrom]. destruct (Z.ltb_spec i (Z.of_nat (length l))) as [Hlt|Hge].
    + destruct (IH (i + k)) as [Hcat Hall]; [lia | lia |].
      rewrite (slice_nonneg i k l) by lia. split.
      * cbn [concat]. rewrite Hcat.
        replace (Z.to_nat (i + k)) with (Z.to_nat i + Z.to_nat k)%nat by lia.
        rewrite <- drop_drop. apply take_drop.
      * constructor; [|exact Hall]. rewrite length_take, length_drop. lia.
    + split; [|constructor]. rewrite drop_ge by lia. reflexivity.
Qed.

(** X24 (extract_zoomify.js, lines 336-351).  With a positive
    [maxConcurrent], the chunks of the remaining URLs, taken one after
    the other, are the remaining URLs: none is left out and none comes
    twice; no chunk is empty or longer than twice [maxConcurrent].  The
    tasks of a chunk run at once on the pool of [maxConcurrent] pages,
    the task at [index] on page [index % maxConcurrent]: so whenever a
    chunk is longer than [maxConcurrent], the tasks at [index] and at
    [index + maxConcurrent] are given the same page, and that is the
    case for the first chunk as soon as more than [maxConcurrent] URLs
    remain. *)
Theorem chunks_cover_and_share_pages
    (maxConcurrent : Z) (remainingUrls : list string) (Hmax : 0 < maxConcurrent) :
  concat (Chunks.chunks maxConcurrent remainingUrls) = remainingUrls
  ∧ Forall (fun chunk => (1 ≤ length chunk)%nat
                         ∧ Z.of_nat (length chunk) ≤ 2 * maxConcurrent)
      (Chunks.chunks maxConcurrent remainingUrls)
  ∧ (∀ index : nat, 0 ≤ Chunks.pageOf maxConcurrent index < maxConcurrent)
  ∧ (∀ index : nat,
       Chunks.pageOf maxConcurrent (index + Z.to_nat maxConcurrent)
       = Chunks.pageOf maxConcurrent index)
  ∧ (maxConcurrent < Z.of_nat (length remainingUrls) →
     ∃ chunk rest,
       Chunks.chunks maxConcurrent remainingUrls = chunk :: rest
       ∧ maxConcurrent < Z.of_nat (length chunk)).
Proof.
  assert (Hpage : ∀ index : nat, 0 ≤ Chunks.pageOf maxConcurrent index < maxConcurrent)
    by (intros index; unfold Chunks.pageOf; apply Z.rem_bound_pos; lia).
  assert (Hshare : ∀ index : nat,
             Chunks.pageOf maxConcurrent (index + Z.to_nat maxConcurrent)
             = Chunks.pageOf maxConcurrent index).
  { intros index. unfold Chunks.pageOf.
    rewrite Nat2Z.inj_add, Z2Nat.id by lia.
    rewrite <- (Z.mul_1_l maxConcurrent) at 1.
    rewrite !Z.rem_mod_nonneg by lia. apply Z.mod_add. lia. }
  unfold Chunks.chunks.
  destruct (decide (remainingUrls = [])) as [->|Hne].
  { cbn. split; [reflexivity|]. split; [constructor|].
    split; [exact Hpage|]. split; [exact Hshare | lia]. }
  set (k := Z.min (maxConcurrent * 2) (Z.of_nat (length remainingUrls))).
  assert (Hlen : (1 ≤ length remainingUrls)%nat)
    by (destruct remainingUrls; [done | cbn; lia]).
  assert (Hk : 1 ≤ k) by (unfold k; lia).
  destruct (chunksFrom_cover (length remainingUrls) k 0 remainingUrls Hk) as [Hcat Hall];
    [lia | lia |].
  split; [exact Hcat|]. split.
  - eapply Forall_impl; [exact Hall|]. intros chunk [H1 H2]. split; [exact H1|].
    unfold k in H2. lia.
  - split; [exact Hpage|]. split; [exact Hshare|].
    intros Hmore. destruct (length remainingUrls) as [|n] eqn:Hn; [lia|].
    cbn [Chunks.chunksFrom]. rewrite Hn.
    destruct (Z.ltb_spec 0 (Z.of_nat (S n))) as [_|?]; [|lia].
    eexists. eexists. split; [reflexivity|].
    rewrite (slice_nonneg 0 k) by lia.
    rewrite length_take, length_drop. unfold k. lia.
Qed.

Lemma chunks_cover_and_share_pages_witness :
  concat (Chunks.chunks 2 ["a"; "b"; "c"; "d"; "e"]) = ["a"; "b"; "c"; "d"; "e"]
  ∧ Forall (fun chunk => (1 ≤ length chunk)%nat ∧ Z.of_nat (length chunk) ≤ 2 * 2)
      (Chunks.chunks 2 ["a"; "b"; "c"; "d"; "e"])
  ∧ (∀ index : nat, 0 ≤ Chunks.pageOf 2 index < 2)
  ∧ (∀ index : nat,
       Chunks.pageOf 2 (index + Z.to_nat 2) = Chunks.pageOf 2 index)
  ∧ (2 < Z.of_nat (length ["a"; "b"; "c"; "d"; "e"]) →
     ∃ chunk rest,
       Chunks.chunks 2 ["a"; "b"; "c"; "d"; "e"] = chunk :: rest
       ∧ 2 < Z.of_nat (length chunk)).
Proof.
  apply (chunks_cover_and_share_pages 2 ["a"; "b"; "c"; "d"; "e"]). lia.
Defined.

(** * The sitemap tracker *)

(** ** Suffixes *)

Lemma endsWith_append suffix a : Js.endsWith suffix (a ++ suffix) = true.
Proof.
  induction a as [|c a IH].
  - change ("" ++ suffix) with suffix. destruct suffix; cbn [Js.endsWith];
      by rewrite String.eqb_refl.
  - rewrite append_cons. cbn [Js.endsWith]. rewrite IH. apply orb_true_r.
Qed.

Lemma endsWith_inv suffix s : Js.endsWith suffix s = true → ∃ a, s = a ++ suffix.
Proof.
  induction s as [|c s IH]; cbn [Js.endsWith]; intros H; apply orb_true_iff in H as [H|H].
  - apply String.eqb_eq in H. subst suffix. by exists "".
  - discriminate.
  - apply String.eqb_eq in H. subst suffix. by exists "".
  - destruct (IH H) as [a ->]. by exists (String c a).
Qed.

Lemma substring_prefix a b : String.substring 0 (String.length a) (a ++ b) = a.
Proof.
  induction a as [|c a IH].
  - change ("" ++ b) with b. by destruct b.
  - rewrite append_cons. cbn. by rewrite IH.
Qed.

Lemma dropLast_append a suffix : Js.dropLast (String.length suffix) (a ++ suffix) = a.
Proof.
  unfold Js.dropLast. rewrite length_append.
  replace (String.length a + String.length suffix - String.length suffix)%nat
    with (String.length a) by lia.
  apply substring_prefix.
Qed.

(** ** Duplicates *)

Lemma setAdd_new x s : x ∉ s → Sitemap.setAdd x s = (s ++ [x])%list.
Proof. intros Hx. unfold Sitemap.setAdd. by rewrite (bool_decide_eq_false_2 _ Hx). Qed.

Lemma filterDuplicateUrls_loop (urls l acc : list string) :
  NoDup (acc ++ l) →
  foldl (fun filteredUrls url =>
           if Js.endsWith "_d" url && bool_decide (Js.dropLast 2 url ∈ urls)
           then filteredUrls
           else Sitemap.setAdd url filteredUrls)
        acc l
  = (acc ++ filter (fun url => ¬ isTwin urls url) l)%list.
Proof.
  revert acc. induction l as [|url l IH]; intros acc Hnd; cbn [foldl].
  - by rewrite filter_nil, app_nil_r.
  - assert (Hnotin : url ∉ acc).
    { apply NoDup_app in Hnd as (_ & Hdisj & _). intros Hin.
      apply (Hdisj url Hin). by left. }
    assert (Hnd' : NoDup ((acc ++ [url]) ++ l)) by (by rewrite <- app_assoc).
    destruct (decide (isTwin urls url)) as [[Hends Hbase]|Hno].
    + rewrite Hends, (bool_decide_eq_true_2 _ Hbase). cbn [andb].
      rewrite (filter_cons_False (fun u => ¬ isTwin urls u) url l)
        by (intros Hn; apply Hn; by split).
      apply IH.
      apply NoDup_app in Hnd as (Ha & Hdisj & Hl). apply NoDup_cons in Hl as [_ Hl].
      apply NoDup_app. split; [exact Ha|]. split; [|exact Hl].
      intros x Hx Hxl. apply (Hdisj x Hx). by right.
    + assert (Hc : Js.endsWith "_d" url && bool_decide (Js.dropLast 2 url ∈ urls) = false).
      { destruct (Js.endsWith "_d" url) eqn:Hends; [|reflexivity]. cbn [andb].
        apply bool_decide_eq_false_2. intros Hbase. apply Hno. by split. }
      rewrite Hc, (filter_cons_True (fun u => ¬ isTwin urls u) url l Hno).
      cbv iota. rewrite (setAdd_new _ _ Hnotin), (IH _ Hnd'), <- app_assoc. reflexivity.
Qed.

Lemma filterDuplicateUrls_filter urls :
  NoDup urls →
  Sitemap.filterDuplicateUrls urls = filter (fun url => ¬ isTwin urls url) urls.
Proof. intros Hnd. unfold Sitemap.filterDuplicateUrls. by rewrite filterDuplicateUrls_loop. Qed.

(** X25 (track_sitemap_changes.js, [filterDuplicateUrls] lines 26-41).
    From a set of URLs the function drops exactly the URLs that end in
    [_d] while the set also holds the URL without that ending; the
    other URLs are kept, in their order and once each.  A twin whose
    base is missing is kept.  (A URL ends in [_d] exactly if it is some
    string followed by [_d].)  Filtering twice changes nothing more. *)
Theorem filterDuplicateUrls_spec (urls : list string) (Hset : NoDup urls) :
  NoDup (Sitemap.filterDuplicateUrls urls)
  ∧ sublist (Sitemap.filterDuplicateUrls urls) urls
  ∧ (∀ base : string,
       base ++ "_d" ∈ Sitemap.filterDuplicateUrls urls
       ↔ base ++ "_d" ∈ urls ∧ base ∉ urls)
  ∧ (∀ url : string,
       Js.endsWith "_d" url = false →
       (url ∈ Sitemap.filterDuplicateUrls urls ↔ url ∈ urls))
  ∧ (∀ url : string, Js.endsWith "_d" url = true ↔ ∃ base, url = base ++ "_d")
  ∧ Sitemap.filterDuplicateUrls (Sitemap.filterDuplicateUrls urls)
    = Sitemap.filterDuplicateUrls urls.
Proof.
  rewrite !(filterDuplicateUrls_filter urls Hset).
  assert (Hnd : NoDup (filter (fun url => ¬ isTwin urls url) urls)) by (by apply NoDup_filter).
  split; [exact Hnd|]. split; [apply sublist_filter|]. split; [|split; [|split]].
  - intros base. rewrite list_elem_of_filter. unfold isTwin.
    change 2%nat with (String.length "_d"). rewrite dropLast_append, endsWith_append.
    tauto.
  - intros url Hends. rewrite list_elem_of_filter. unfold isTwin. rewrite Hends.
    split; [tauto|]. intros Hin. split; [|exact Hin]. intros [? _]. discriminate.
  - intros url. split; [apply endsWith_inv|]. intros [base ->]. apply endsWith_append.
  - rewrite (filterDuplicateUrls_filter _ Hnd). apply filter_all.
    intros url Hurl [Hends Hbase]. apply list_elem_of_filter in Hurl as [Hkeep _].
    apply Hkeep. split; [exact Hends|]. by apply list_elem_of_filter in Hbase as [_ ?].
Qed.

Lemma filterDuplicateUrls_spec_witness :
  NoDup (Sitemap.filterDuplicateUrls ["m/a"; "m/a_d"; "m/b_d"])
  ∧ sublist (Sitemap.filterDuplicateUrls ["m/a"; "m/a_d"; "m/b_d"]) ["m/a"; "m/a_d"; "m/b_d"]
  ∧ (∀ base : string,
       base ++ "_d" ∈ Sitemap.filterDuplicateUrls ["m/a"; "m/a_d"; "m/b_d"]
       ↔ base ++ "_d" ∈ ["m/a"; "m/a_d"; "m/b_d"] ∧ base ∉ ["m/a"; "m/a_d"; "m/b_d"])
  ∧ (∀ url : string,
       Js.endsWith "_d" url = false →
       (url ∈ Sitemap.filterDuplicateUrls ["m/a"; "m/a_d"; "m/b_d"]
        ↔ url ∈ ["m/a"; "m/a_d"; "m/b_d"]))
  ∧ (∀ url : string, Js.endsWith "_d" url = true ↔ ∃ base, url = base ++ "_d")
  ∧ Sitemap.filterDuplicateUrls (Sitemap.filterDuplicateUrls ["m/a"; "m/a_d"; "m/b_d"])
    = Sitemap.filterDuplicateUrls ["m/a"; "m/a_d"; "m/b_d"].
Proof.
  apply (filterDuplicateUrls_spec ["m/a"; "m/a_d"; "m/b_d"]).
  apply (bool_decide_unpack _). vm_compute. exact I.
Defined.

(** ** Differences *)

Lemma elem_of_added oldUrls newUrls u :
  u ∈ (Sitemap.findDifferences oldUrls newUrls).1 ↔ u ∈ newUrls ∧ u ∉ oldUrls.
Proof.
  unfold Sitemap.findDifferences. cbn [fst].
  rewrite list_elem_of_In, filter_In, <- list_elem_of_In.
  by rewrite negb_true_iff, bool_decide_eq_false.
Qed.

Lemma elem_of_removed oldUrls newUrls u :
  u ∈ (Sitemap.findDifferences oldUrls newUrls).2 ↔ u ∈ oldUrls ∧ u ∉ newUrls.
Proof.
  unfold Sitemap.findDifferences. cbn [snd].
  rewrite list_elem_of_In, filter_In, <- list_elem_of_In.
  by rewrite negb_true_iff, bool_decide_eq_false.
Qed.

Lemma nil_iff_no_elem {A} (l : list A) : l = [] ↔ ∀ x, x ∉ l.
Proof.
  split; [intros -> x; apply not_elem_of_nil|].
  destruct l as [|x l]; [done|]. intros H. destruct (H x). by left.
Qed.

Lemma findDifferences_same l : Sitemap.findDifferences l l = ([], []).
Proof.
  assert (H : List.filter (fun url => negb (bool_decide (url ∈ l))) l = []).
  { apply nil_iff_no_elem. intros x. rewrite list_elem_of_In, filter_In, <- list_elem_of_In.
    rewrite negb_true_iff, bool_decide_eq_false. tauto. }
  unfold Sitemap.findDifferences. by rewrite H.
Qed.

(** X26 (track_sitemap_changes.js, [findDifferences] lines 89-93).  The
    two lists are the differences of the sets in either direction:
    [added] holds the new URLs the old set lacks and [removed] the old
    URLs the new set lacks, each in the order of its set.  Applying
    them to the old set gives the new one; both are empty exactly if
    the two sets have the same members; and swapping the sets swaps the
    lists. *)
Theorem findDifferences_spec (oldUrls newUrls : list string) :
  (∀ u, u ∈ (Sitemap.findDifferences oldUrls newUrls).1 ↔ u ∈ newUrls ∧ u ∉ oldUrls)
  ∧ (∀ u, u ∈ (Sitemap.findDifferences oldUrls newUrls).2 ↔ u ∈ oldUrls ∧ u ∉ newUrls)
  ∧ sublist (Sitemap.findDifferences oldUrls newUrls).1 newUrls
  ∧ sublist (Sitemap.findDifferences oldUrls newUrls).2 oldUrls
  ∧ (∀ u, u ∈ newUrls
          ↔ u ∈ oldUrls ∧ u ∉ (Sitemap.findDifferences oldUrls newUrls).2
            ∨ u ∈ (Sitemap.findDifferences oldUrls newUrls).1)
  ∧ (Sitemap.findDifferences oldUrls newUrls = ([], [])
     ↔ ∀ u, u ∈ oldUrls ↔ u ∈ newUrls)
  ∧ Sitemap.findDifferences newUrls oldUrls
    = ((Sitemap.findDifferences oldUrls newUrls).2,
       (Sitemap.findDifferences oldUrls newUrls).1).
Proof.
  split; [intros u; apply elem_of_added|]. split; [intros u; apply elem_of_removed|].
  split; [|split; [|split; [|split]]].
  - unfold Sitemap.findDifferences. cbn [fst].
    rewrite (filter_bool_decide_neg (fun url => url ∈ oldUrls)). apply sublist_filter.
  - unfold Sitemap.findDifferences. cbn [snd].
    rewrite (filter_bool_decide_neg (fun url => url ∈ newUrls)). apply sublist_filter.
  - intros u. rewrite elem_of_added, elem_of_removed.
    destruct (decide (u ∈ oldUrls)), (decide (u ∈ newUrls)); tauto.
  - split.
    + intros Heq u. pose proof (elem_of_added oldUrls newUrls u) as Ha.
      pose proof (elem_of_removed oldUrls newUrls u) as Hr.
      rewrite Heq in Ha, Hr. cbn [fst snd] in Ha, Hr.
      rewrite elem_of_nil in Ha, Hr.
      destruct (decide (u ∈ oldUrls)), (decide (u ∈ newUrls)); tauto.
    + intros Hsame.
      assert (Ha : (Sitemap.findDifferences oldUrls newUrls).1 = []).
      { apply nil_iff_no_elem. intros u. rewrite elem_of_added, Hsame. tauto. }
      assert (Hr : (Sitemap.findDifferences oldUrls newUrls).2 = []).
      { apply nil_iff_no_elem. intros u. rewrite elem_of_removed, Hsame. tauto. }
      destruct (Sitemap.findDifferences oldUrls newUrls) as [a r]. cbn in Ha, Hr. by subst.
  - reflexivity.
Qed.

(** ** From the tracker to the validator *)

Lemma split_join (urls : list string) :
  urls ≠ [] → Forall (fun u => lacks newline u = true) urls →
  Text.split newline (Js.join Sitemap.lineBreak urls) = urls.
Proof.
  induction urls as [|u urls IH]; [done|]. intros _ Hall.
  apply Forall_cons in Hall as [Hu Hall]. destruct urls as [|v urls].
  - cbn [Js.join]. by apply split_lacks.
  - change (Js.join Sitemap.lineBreak (u :: v :: urls))
      with (u ++ String newline (Js.join Sitemap.lineBreak (v :: urls))).
    rewrite split_at_sep, (split_lacks _ _ Hu), IH; [reflexivity | done | exact Hall].
Qed.

Lemma keptLines_join (urls : list string) :
  Forall cleanUrl urls → keptLines (Js.join Sitemap.lineBreak urls) = urls.
Proof.
  intros Hall. destruct (decide (urls = [])) as [->|Hne]; [reflexivity|].
  unfold keptLines. rewrite split_join; [|exact Hne|].
  - induction Hall as [|u urls (Hnl & Htrim & Hu) Hall IH]; [reflexivity|].
    cbn [List.map List.filter]. rewrite Htrim.
    destruct u; [done|]. cbn [Text.truthy]. f_equal.
    destruct (decide (urls = [])) as [->|Hne']; [reflexivity | by apply IH].
  - eapply Forall_impl; [exact Hall|]. by intros u (? & _).
Qed.

Lemma validateEnvironment_eq text :
  ValidatorMain.validateEnvironment (Some text)
  = (if Text.truthy (Text.trim text) then Ok (keptLines text) else Throw ValidatorMain.noUrls).
Proof.
  unfold ValidatorMain.validateEnvironment.
  destruct (Text.truthy (Text.trim text)); [|reflexivity].
  fold (keptLines (Text.trim text)). by rewrite keptLines_trim.
Qed.

(** What a successful check leaves on disk. *)
Lemma checkSitemapChanges_ok parse latestXml now d latestUrls diff d' :
  Sitemap.checkSitemapChanges parse latestXml now d = (Ok (latestUrls, diff), d') →
  Sitemap.extractUrls parse latestXml = Ok latestUrls
  ∧ (∃ localUrls,
       (if Text.truthy (default "" (Sitemap.CURRENT_SITEMAP d))
        then Sitemap.extractUrls parse (default "" (Sitemap.CURRENT_SITEMAP d))
        else Ok []) = Ok localUrls
       ∧ diff = Sitemap.findDifferences localUrls latestUrls)
  ∧ Sitemap.LATEST_SITEMAP d' = Some latestXml
  ∧ Sitemap.INITIAL_URLS_NOXML d' = Some (Js.join Sitemap.lineBreak latestUrls)
  ∧ (diff = ([], []) →
     Sitemap.CHANGES_LOG d' = Sitemap.CHANGES_LOG d
     ∧ Sitemap.CURRENT_SITEMAP d' = Sitemap.CURRENT_SITEMAP d)
  ∧ (diff ≠ ([], []) →
     ∃ changes,
       Sitemap.CHANGES_LOG d = Parsed changes
       ∧ Sitemap.CHANGES_LOG d'
         = Parsed (changes ++ [Sitemap.mkChange now diff.1 diff.2])%list
       ∧ Sitemap.CURRENT_SITEMAP d' = Some latestXml).
Proof.
  unfold Sitemap.checkSitemapChanges.
  cbn [Sitemap.CURRENT_SITEMAP Sitemap.LATEST_SITEMAP Sitemap.CHANGES_LOG
       Sitemap.INITIAL_URLS_NOXML].
  destruct (Sitemap.extractUrls parse latestXml) as [latest|e]; [|discriminate].
  destruct (if Text.truthy (default "" (Sitemap.CURRENT_SITEMAP d))
            then Sitemap.extractUrls parse (default "" (Sitemap.CURRENT_SITEMAP d))
            else Ok []) as [localUrls|e]; [|discriminate].
  destruct (Sitemap.findDifferences localUrls latest) as [a r] eqn:Hdiff. cbn [fst snd].
  destruct a as [|a0 a], r as [|r0 r]; cbn [length Nat.ltb Nat.leb orb].
  - intros [= <- <- <-]. split; [reflexivity|]. split; [by eexists|].
    repeat (split; [reflexivity|]). split; [done|]. by intros [].
  - destruct (Sitemap.CHANGES_LOG d) as [| |changes]; try discriminate.
    rewrite orb_true_r. intros [= <- <- <-]. split; [reflexivity|]. split; [by eexists|].
    repeat (split; [reflexivity|]). split; [discriminate|]. intros _. by eexists.
  - destruct (Sitemap.CHANGES_LOG d) as [| |changes]; try discriminate.
    rewrite orb_true_r. intros [= <- <- <-]. split; [reflexivity|]. split; [by eexists|].
    repeat (split; [reflexivity|]). split; [discriminate|]. intros _. by eexists.
  - destruct (Sitemap.CHANGES_LOG d) as [| |changes]; try discriminate.
    rewrite orb_true_r. intros [= <- <- <-]. split; [reflexivity|]. split; [by eexists|].
    repeat (split; [reflexivity|]). split; [discriminate|]. intros _. by eexists.
Qed.

(** X27 (track_sitemap_changes.js, [checkSitemapChanges] lines 115-117,
    with extract_zoomify.js, [validateEnvironment] lines 89-101).  The
    list the tracker writes for the validator is read back as it was
    written: after a successful check, when the URLs of the latest
    sitemap are non-empty one-line strings without white space at their
    ends, the validator's candidates are exactly those URLs, in sitemap
    order; with no URL at all the validator stops with "No URLs
    found". *)
Theorem tracker_feeds_the_validator
    (parse : string -> option (list string)) (latestXml now : string)
    (d d' : Sitemap.Disk) (latestUrls : list string)
    (diff : list string * list string)
    (Hrun : Sitemap.checkSitemapChanges parse latestXml now d = (Ok (latestUrls, diff), d'))
    (Hclean : Forall cleanUrl latestUrls) :
  Sitemap.INITIAL_URLS_NOXML d' = Some (Js.join Sitemap.lineBreak latestUrls)
  ∧ ValidatorMain.validateEnvironment (Sitemap.INITIAL_URLS_NOXML d')
    = match latestUrls with
      | [] => Throw ValidatorMain.noUrls
      | _ => Ok latestUrls
      end
  ∧ Text.split newline (Js.join Sitemap.lineBreak latestUrls)
    = match latestUrls with
      | [] => [""]
      | _ => latestUrls
      end.
Proof.
  destruct (checkSitemapChanges_ok _ _ _ _ _ _ _ Hrun) as (_ & _ & _ & Hfile & _).
  split; [exact Hfile|]. rewrite Hfile, validateEnvironment_eq, (keptLines_join _ Hclean).
  split.
  - destruct latestUrls as [|u urls]; [reflexivity|].
    destruct (Text.trim (Js.join Sitemap.lineBreak (u :: urls))) eqn:Htrim; [|reflexivity].
    pose proof (keptLines_join _ Hclean) as Hk. rewrite <- keptLines_trim, Htrim in Hk.
    discriminate.
  - destruct latestUrls as [|u urls]; [reflexivity|]. apply split_join; [done|].
    eapply Forall_impl; [exact Hclean|]. by intros x (? & _).
Qed.

Lemma tracker_feeds_the_validator_witness :
  ∃ d' : Sitemap.Disk,
    Sitemap.checkSitemapChanges (fun _ => Some ["m/P/AntiqueMap/a-1"; "m/P/AntiqueMap/b-2"])
      "<urlset/>" "2025-05-01T08:00:00.000Z"
      (Sitemap.ensureChangesLog (Sitemap.mkDisk None None Absent None))
    = (Ok (["m/P/AntiqueMap/a-1"; "m/P/AntiqueMap/b-2"],
           (["m/P/AntiqueMap/a-1"; "m/P/AntiqueMap/b-2"], [])), d')
    ∧ Sitemap.INITIAL_URLS_NOXML d'
      = Some (Js.join Sitemap.lineBreak ["m/P/AntiqueMap/a-1"; "m/P/AntiqueMap/b-2"])
    ∧ ValidatorMain.validateEnvironment (Sitemap.INITIAL_URLS_NOXML d')
      = Ok ["m/P/AntiqueMap/a-1"; "m/P/AntiqueMap/b-2"]
    ∧ Text.split newline
        (Js.join Sitemap.lineBreak ["m/P/AntiqueMap/a-1"; "m/P/AntiqueMap/b-2"])
      = ["m/P/AntiqueMap/a-1"; "m/P/AntiqueMap/b-2"].
Proof.
  eexists. split; [vm_compute; reflexivity|].
  apply (tracker_feeds_the_validator
           (fun _ => Some ["m/P/AntiqueMap/a-1"; "m/P/AntiqueMap/b-2"])
           "<urlset/>" "2025-05-01T08:00:00.000Z"
           (Sitemap.ensureChangesLog (Sitemap.mkDisk None None Absent None))
           _ ["m/P/AntiqueMap/a-1"; "m/P/AntiqueMap/b-2"]
           (["m/P/AntiqueMap/a-1"; "m/P/AntiqueMap/b-2"], [])).
  - vm_compute. reflexivity.
  - repeat constructor; try (vm_compute; reflexivity); discriminate.
Defined.

(** X28 (track_sitemap_changes.js, [checkSitemapChanges] lines 96-153).
    A check records a change exactly if the sets of URLs differ: it then
    appends one entry with the two lists to the log of changes and
    makes the downloaded sitemap the local copy; otherwise it leaves the
    log and the local copy alone.  In both cases a second check against
    the same sitemap finds nothing: it reports no added and no removed
    URL and leaves every file as the first check left it. *)
Theorem second_check_finds_nothing
    (parse : string -> option (list string)) (latestXml now now' : string)
    (d d' : Sitemap.Disk) (latestUrls : list string)
    (diff : list string * list string)
    (Hrun : Sitemap.checkSitemapChanges parse latestXml now d = (Ok (latestUrls, diff), d'))
    (Hxml : Text.truthy latestXml = true) :
  Sitemap.checkSitemapChanges parse latestXml now' d' = (Ok (latestUrls, ([], [])), d')
  ∧ (diff = ([], []) →
     Sitemap.CHANGES_LOG d' = Sitemap.CHANGES_LOG d
     ∧ Sitemap.CURRENT_SITEMAP d' = Sitemap.CURRENT_SITEMAP d)
  ∧ (diff ≠ ([], []) →
     ∃ changes,
       Sitemap.CHANGES_LOG d = Parsed changes
       ∧ Sitemap.CHANGES_LOG d'
         = Parsed (changes ++ [Sitemap.mkChange now diff.1 diff.2])%list
       ∧ Sitemap.CURRENT_SITEMAP d' = Some latestXml).
Proof.
  destruct (checkSitemapChanges_ok _ _ _ _ _ _ _ Hrun)
    as (Hlatest & (localUrls & Hlocal & Hdiff) & Hl & Hi & Hsame & Hchanged).
  split; [|by split].
  unfold Sitemap.checkSitemapChanges.
  cbn [Sitemap.CURRENT_SITEMAP Sitemap.LATEST_SITEMAP Sitemap.CHANGES_LOG
       Sitemap.INITIAL_URLS_NOXML].
  rewrite Hlatest.
  destruct (decide (diff = ([], []))) as [Hnone|Hsome].
  - destruct (Hsame Hnone) as [Hlog Hcur]. rewrite Hcur, Hlocal, <- Hdiff, Hnone.
    cbn [fst snd length Nat.ltb Nat.leb orb]. f_equal.
    destruct d' as [c l g i]. cbn in *. by subst.
  - destruct (Hchanged Hsome) as (changes & _ & Hlog & Hcur). rewrite Hcur.
    change (default "" (Some latestXml)) with latestXml. rewrite Hxml, Hlatest.
    rewrite findDifferences_same. cbn [fst snd length Nat.ltb Nat.leb orb]. f_equal.
    destruct d' as [c l g i]. cbn in *. by subst.
Qed.

Lemma second_check_finds_nothing_witness :
  ∃ d' : Sitemap.Disk,
    Sitemap.checkSitemapChanges (fun _ => Some ["m/P/AntiqueMap/a-1"; "m/P/AntiqueMap/b-2"])
      "<urlset/>" "2025-05-01T08:00:00.000Z"
      (Sitemap.ensureChangesLog (Sitemap.mkDisk None None Absent None))
    = (Ok (["m/P/AntiqueMap/a-1"; "m/P/AntiqueMap/b-2"],
           (["m/P/AntiqueMap/a-1"; "m/P/AntiqueMap/b-2"], [])), d')
    ∧ Sitemap.checkSitemapChanges
        (fun _ => Some ["m/P/AntiqueMap/a-1"; "m/P/AntiqueMap/b-2"])
        "<urlset/>" "2025-05-02T08:00:00.000Z" d'
      = (Ok (["m/P/AntiqueMap/a-1"; "m/P/AntiqueMap/b-2"], ([], [])), d')
    ∧ ((["m/P/AntiqueMap/a-1"; "m/P/AntiqueMap/b-2"], [])
       = (([], []) : list string * list string) →
       Sitemap.CHANGES_LOG d'
       = Sitemap.CHANGES_LOG
           (Sitemap.ensureChangesLog (Sitemap.mkDisk None None Absent None))
       ∧ Sitemap.CURRENT_SITEMAP d'
         = Sitemap.CURRENT_SITEMAP
             (Sitemap.ensureChangesLog (Sitemap.mkDisk None None Absent None)))
    ∧ ((["m/P/AntiqueMap/a-1"; "m/P/AntiqueMap/b-2"], [])
       ≠ (([], []) : list string * list string) →
       ∃ changes,
         Sitemap.CHANGES_LOG
           (Sitemap.ensureChangesLog (Sitemap.mkDisk None None Absent None))
         = Parsed changes
         ∧ Sitemap.CHANGES_LOG d'
           = Parsed (changes
                     ++ [Sitemap.mkChange "2025-05-01T08:00:00.000Z"
                           (["m/P/AntiqueMap/a-1"; "m/P/AntiqueMap/b-2"],
                            ([] : list string)).1
                           (["m/P/AntiqueMap/a-1"; "m/P/AntiqueMap/b-2"],
                            ([] : list string)).2])%list
         ∧ Sitemap.CURRENT_SITEMAP d' = Some "<urlset/>").
Proof.
  eexists. split; [vm_compute; reflexivity|].
  apply (second_check_finds_nothing
           (fun _ => Some ["m/P/AntiqueMap/a-1"; "m/P/AntiqueMap/b-2"])
           "<urlset/>" "2025-05-01T08:00:00.000Z" "2025-05-02T08:00:00.000Z"
           (Sitemap.ensureChangesLog (Sitemap.mkDisk None None Absent None))).
  - vm_compute. reflexivity.
  - reflexivity.
Defined.
